(** * GPU-sharing scheduler simulator: fragmentation estimator, workload
      distiller and pod ordering queue.

    A shallow embedding of [pkg/utils/frag.go], [pkg/algo/greed.go] and
    [pkg/simulator/plugin/pwr_score.go].  Go's [int64]/[int] are integers in
    [Z] with the two's-complement wrap-around written out, [float64] is the
    kernel's IEEE-754 binary64 type, Go maps are [gmap]s, slices that are
    shared between caller and callee live in an explicit store. *)

From Stdlib Require Import ZArith Lia List Bool.
From Stdlib Require Import Floats.
From stdpp Require Import gmap strings list fin_maps sorting pretty.

Local Open Scope Z_scope.

(** ** Machine integers *)

Definition int64_min : Z := - 2 ^ 63.
Definition int64_max : Z := 2 ^ 63 - 1.

(** The value an [int64] holds after an arithmetic result [z]. *)
Definition wrap64 (z : Z) : Z := (z + 2 ^ 63) mod 2 ^ 64 - 2 ^ 63.

Definition in_int64 (z : Z) : Prop := int64_min <= z <= int64_max.

(** ** Resource model (the fields of [simontype.NodeResource] and
       [simontype.PodResource] that the code below reads) *)

Record NodeResource := mkNodeResource {
  NodeName : string;
  MilliCpuLeft : Z;
  MilliGpuLeftList : list Z;
  NodeGpuType : string
}.

Record PodResource := mkPodResource {
  MilliCpu : Z;
  MilliGpu : Z;
  GpuNumber : Z;
  GpuType : string
}.

#[global] Instance PodResource_eq_dec : EqDecision PodResource.
Proof. solve_decision. Defined.

#[global] Instance PodResource_countable : Countable PodResource.
Proof.
  refine (inj_countable'
    (fun p => (MilliCpu p, MilliGpu p, GpuNumber p, GpuType p))
    (fun t => match t with (c, g, n, ty) => mkPodResource c g n ty end) _).
  intros []. reflexivity.
Defined.

(** [gpushareutils.MILLI] *)
Definition MILLI : Z := 1000.

(** ** Fragmentation categories *)

Definition Q1LackBoth : string := "q1_lack_both".
Definition Q2LackGpu : string := "q2_lack_gpu".
Definition Q3Satisfied : string := "q3_satisfied".
Definition Q4LackCpu : string := "q4_lack_cpu".
Definition XLSatisfied : string := "xl_satisfied".
Definition XRLackCPU : string := "xr_lack_cpu".
Definition NoAccess : string := "no_access".

Definition FragRatioDataMap : gmap string nat :=
  list_to_map
    [ (Q1LackBoth, 0%nat); (Q2LackGpu, 1%nat); (Q3Satisfied, 2%nat);
      (Q4LackCpu, 3%nat); (XLSatisfied, 4%nat); (XRLackCPU, 5%nat);
      (NoAccess, 6%nat) ].

Definition fragCategories : list string :=
  [Q1LackBoth; Q2LackGpu; Q3Satisfied; Q4LackCpu; XLSatisfied; XRLackCPU; NoAccess].

(** ** [CanNodeHostPodOnGpuMemory] *)

(** The [for ... range nodeRes.MilliGpuLeftList] loop; [gpuRequest] is the
    loop-carried counter. *)
Fixpoint canHostLoop (gpuRequest milliGpu : Z) (l : list Z) : bool :=
  match l with
  | [] => false
  | gpuHostMem :: rest =>
      if gpuHostMem >=? milliGpu then
        let gpuRequest' := wrap64 (gpuRequest - 1) in
        if gpuRequest' <=? 0 then true
        else canHostLoop gpuRequest' milliGpu rest
      else canHostLoop gpuRequest milliGpu rest
  end.

Definition CanNodeHostPodOnGpuMemory (nodeRes : NodeResource) (podRes : PodResource) : bool :=
  canHostLoop (GpuNumber podRes) (MilliGpu podRes) (MilliGpuLeftList nodeRes).

(** Number of GPUs of the node whose remaining millis cover the request. *)
Definition gpusAtLeast (milliGpu : Z) (l : list Z) : Z :=
  Z.of_nat (length (filter (fun g => milliGpu <= g) l)).

(** ** [float64] *)

Local Open Scope float_scope.

(** Go's conversion [float64(x)] of an [int64] (round to nearest even). *)
Definition float64_of_int64 (z : Z) : float :=
  if (z <? 0)%Z then
    if (z =? int64_min)%Z then (-0x1p63)
    else - PrimFloat.of_uint63 (Uint63.of_Z (- z))
  else PrimFloat.of_uint63 (Uint63.of_Z z).

(** Go's [error] results: [None] is [nil]. *)
Definition error : Type := option string.

(** ** Reference workload *)

Record TargetPod := mkTargetPod {
  TargetPodResource : PodResource;
  Percentage : float
}.

Definition TargetPodList : Type := list TargetPod.

(** ** [FragRatio] and [FragAmount] accumulators

    The methods have value receivers but write through the receiver's slice,
    so the caller's vector changes; the functions below return the new
    contents of the backing array next to the [error].  Indexing past the end
    of the slice is a run-time panic ([None]). *)

Definition AddRatio (Data : list float) (fragType : string) (freq : float)
  : option (list float * error) :=
  if (freq <? 0) || (1 <? freq) then Some (Data, Some "bad freq"%string)
  else
    match FragRatioDataMap !! fragType with
    | None => Some (Data, Some "bad fragType"%string)
    | Some index =>
        match Data !! index with
        | None => None
        | Some v => Some (<[index := v + freq]> Data, None)
        end
    end.

Definition AddByFragType (Data : list float) (fragType : string) (amount : float)
  : option (list float * error) :=
  if amount <? 0 then Some (Data, Some "bad freq"%string)
  else
    match FragRatioDataMap !! fragType with
    | None => Some (Data, Some "bad fragType"%string)
    | Some index =>
        match Data !! index with
        | None => None
        | Some v => Some (<[index := v + amount]> Data, None)
        end
    end.

(** [make([]float64, len(FragRatioDataMap))] *)
Definition zeroData : list float := replicate (size FragRatioDataMap) 0.

Fixpoint GetGpuMilliLeftTotalFrom (acc : Z) (l : list Z) : Z :=
  match l with
  | [] => acc
  | gpuMilliLeft :: rest => GetGpuMilliLeftTotalFrom (wrap64 (acc + gpuMilliLeft)) rest
  end.

Definition GetGpuMilliLeftTotal (nodeRes : NodeResource) : Z :=
  GetGpuMilliLeftTotalFrom 0 (MilliGpuLeftList nodeRes).

Fixpoint GetGpuFragMilliFrom (milliGpu : Z) (gpuFragMilli : Z) (l : list Z) : Z :=
  match l with
  | [] => gpuFragMilli
  | milliGpuLeft :: rest =>
      if (milliGpuLeft <? milliGpu)%Z
      then GetGpuFragMilliFrom milliGpu (wrap64 (gpuFragMilli + milliGpuLeft)) rest
      else GetGpuFragMilliFrom milliGpu gpuFragMilli rest
  end.

Definition GetGpuFragMilliByNodeResAndPodRes (nodeRes : NodeResource) (podRes : PodResource) : Z :=
  GetGpuFragMilliFrom (MilliGpu podRes) 0 (MilliGpuLeftList nodeRes).

(** Reference quantities, over unbounded integers: the node's remaining GPU
    millis and the part of them that sits on GPUs too small for a request of
    [milliGpu]. *)
Definition sumZ (l : list Z) : Z := foldr Z.add 0%Z l.

Definition gpuMilliLeftSum (nodeRes : NodeResource) : Z :=
  sumZ (MilliGpuLeftList nodeRes).

Definition gpuMilliFragmentSum (nodeRes : NodeResource) (podRes : PodResource) : Z :=
  sumZ (filter (fun g => (g < MilliGpu podRes)%Z) (MilliGpuLeftList nodeRes)).

(** Invariant of the resource model: no GPU has negative millis left, and the
    node total is an [int64]. *)
Definition validNode (nodeRes : NodeResource) : Prop :=
  Forall (fun g => (0 <= g)%Z) (MilliGpuLeftList nodeRes) /\
  (gpuMilliLeftSum nodeRes <= int64_max)%Z.

(** Entry [idx] of the vector grew from [before] to [after] by [amount]
    (one [float64] addition). *)
Definition entryIncreasedBy (before after : list float) (idx : nat) (amount : float) : Prop :=
  exists v, before !! idx = Some v /\ after !! idx = Some (v + amount).

(** The sum loops of [FragRatioSumExceptQ3] / [FragAmountSumExceptQ3]:
    [i] runs over [0 .. len(FragRatioDataMap) - 1], skipping the index of
    [Q3Satisfied]. *)
Fixpoint sumExceptFrom (skip : nat) (Data : list float) (out : float) (idx : list nat)
  : option float :=
  match idx with
  | [] => Some out
  | i :: rest =>
      if decide (i = skip) then sumExceptFrom skip Data out rest
      else match Data !! i with
           | None => None
           | Some v => sumExceptFrom skip Data (out + v) rest
           end
  end.

Definition FragRatioSumExceptQ3 (Data : list float) : option float :=
  match FragRatioDataMap !! Q3Satisfied with
  | Some q3 => sumExceptFrom q3 Data 0 (seq 0 (size FragRatioDataMap))
  | None => None
  end.

Definition FragAmountSumExceptQ3 (Data : list float) : option float :=
  FragRatioSumExceptQ3 Data.

(** ** [GetNodePodFrag] *)

Section Frag.

(** [IsNodeAccessibleToPod] is defined in another file of [pkg/utils]; the
    fragmentation code only branches on its result. *)
Variable IsNodeAccessibleToPod : NodeResource -> PodResource -> bool.

Definition GetNodePodFrag (nodeRes : NodeResource) (podRes : PodResource) : string :=
  if (MilliGpu podRes =? 0)%Z then
    if (MilliCpuLeft nodeRes >=? MilliCpu podRes)%Z then XLSatisfied else XRLackCPU
  else if negb (IsNodeAccessibleToPod nodeRes podRes) then NoAccess
  else if CanNodeHostPodOnGpuMemory nodeRes podRes then
    if (MilliCpuLeft nodeRes >=? MilliCpu podRes)%Z then Q3Satisfied else Q4LackCpu
  else
    if (MilliCpuLeft nodeRes >=? MilliCpu podRes)%Z then Q2LackGpu else Q1LackBoth.

(** The loop body of [NodeGpuFragRatio]; a pod with a bad frequency is
    skipped, the [error] of [AddRatio] is only logged. *)
Definition fragRatioStep (nodeRes : NodeResource) (Data : list float) (pod : TargetPod)
  : option (list float) :=
  let freq := Percentage pod in
  if (freq <? 0) || (1 <? freq) then Some Data
  else
    let fragType := GetNodePodFrag nodeRes (TargetPodResource pod) in
    match AddRatio Data fragType freq with
    | None => None
    | Some (Data', _) => Some Data'
    end.

Definition NodeGpuFragRatio (nodeRes : NodeResource) (typicalPods : TargetPodList)
  : option (list float) :=
  foldl (fun acc pod => match acc with
                        | None => None
                        | Some Data => fragRatioStep nodeRes Data pod
                        end)
        (Some zeroData) typicalPods.

(** The loop body of [NodeGpuShareFragAmount]. *)
Definition fragAmountStep (nodeRes : NodeResource) (Data : list float) (pod : TargetPod)
  : option (list float) :=
  let freq := Percentage pod in
  if (freq <? 0) || (1 <? freq) then Some Data
  else
    let fragType := GetNodePodFrag nodeRes (TargetPodResource pod) in
    let gpuMilliLeftTotal := GetGpuMilliLeftTotal nodeRes in
    if decide (fragType = Q3Satisfied) then
      let gpuFragMilli := GetGpuFragMilliByNodeResAndPodRes nodeRes (TargetPodResource pod) in
      match AddByFragType Data Q2LackGpu (freq * float64_of_int64 gpuFragMilli) with
      | None => None
      | Some (Data1, _) =>
          match AddByFragType Data1 Q3Satisfied
                  (freq * float64_of_int64 (wrap64 (gpuMilliLeftTotal - gpuFragMilli))) with
          | None => None
          | Some (Data2, _) => Some Data2
          end
      end
    else
      match AddByFragType Data fragType (freq * float64_of_int64 gpuMilliLeftTotal) with
      | None => None
      | Some (Data1, _) => Some Data1
      end.

(** [FragAmount] as returned to the caller: the node name and the contents of
    the freshly allocated [Data]. *)
Record FragAmount := mkFragAmount {
  FragNodeName : string;
  FragData : list float
}.

Definition NodeGpuShareFragAmount (nodeRes : NodeResource) (typicalPods : TargetPodList)
  : option FragAmount :=
  match foldl (fun acc pod => match acc with
                              | None => None
                              | Some Data => fragAmountStep nodeRes Data pod
                              end)
              (Some zeroData) typicalPods with
  | None => None
  | Some Data => Some (mkFragAmount (NodeName nodeRes) Data)
  end.

Definition NodeGpuShareFragAmountScore (nodeRes : NodeResource) (typicalPods : TargetPodList)
  : option float :=
  match NodeGpuShareFragAmount nodeRes typicalPods with
  | None => None
  | Some fa => FragAmountSumExceptQ3 (FragData fa)
  end.

Definition NodeGpuFragBasedOnSkyline (nodeRes : NodeResource) (skylinePods : list PodResource) : Z :=
  let gpuMilliLeftTotal := GetGpuMilliLeftTotal nodeRes in
  if existsb (fun podRes => (MilliCpuLeft nodeRes >=? MilliCpu podRes)%Z
                            && CanNodeHostPodOnGpuMemory nodeRes podRes) skylinePods
  then 0%Z else gpuMilliLeftTotal.

(** ** [NodeGpuFragBellman] *)

(** What the memoization table ([sync.Map], values of type [interface{}])
    holds under a key: a [float64], or a value of another dynamic type. *)
Inductive dpValue :=
  | DpFloat64 (frag : float)
  | DpOther (repr : string).

(** [NodeResource.Flatten] (the memoization key) and [NodeResource.Sub] (the
    node after placing a pod, with its [error]) belong to [pkg/type]. *)
Variable Flatten : NodeResource -> string -> string.
Variable Sub : NodeResource -> PodResource -> NodeResource * error.

(** [dp.Load(key)] followed by the type assertion [fa.(float64)]. *)
Definition dpLoadFloat64 (dp : gmap string dpValue) (key : string) : option float :=
  match dp !! key with
  | Some (DpFloat64 frag) => Some frag
  | _ => None
  end.

Definition gamma : float := 1.0.
Definition delta : float := 0x1.ff7ced916872bp-1. (* 0.999 *)

(** The recursion is bounded by [fuel]; [None] stands for a run that needs
    more fuel (or panics).  The result carries the updated table. *)
Fixpoint NodeGpuFragBellman (fuel : nat) (nodeRes : NodeResource)
    (typicalPods : TargetPodList) (dp : gmap string dpValue) (cumProb : float)
  : option (float * gmap string dpValue) :=
  match fuel with
  | O => None
  | S fuel' =>
      let nodeResKey := Flatten nodeRes "bellman" in
      match dpLoadFloat64 dp nodeResKey with
      | Some frag => Some (frag, dp)
      | None =>
          let gpuMilliLeftTotal := float64_of_int64 (GetGpuMilliLeftTotal nodeRes) in
          if gpuMilliLeftTotal =? 0 then Some (0, dp)
          else if gpuMilliLeftTotal * cumProb <? 1 then Some (0, dp)
          else
            match NodeGpuFragRatio nodeRes typicalPods with
            | None => None
            | Some fragRatio =>
                match FragRatioSumExceptQ3 fragRatio with
                | None => None
                | Some fragRatioValue =>
                    if fragRatioValue <? delta then
                      let fix loop (pods : list TargetPod) (pvSum : float)
                                   (dp : gmap string dpValue)
                        : option (float * gmap string dpValue) :=
                        match pods with
                        | [] => Some (pvSum, dp)
                        | pod :: rest =>
                            let p := Percentage pod in
                            match Sub nodeRes (TargetPodResource pod) with
                            | (_, Some _) => loop rest (pvSum + gpuMilliLeftTotal * p) dp
                            | (newNodeRes, None) =>
                                match NodeGpuFragBellman fuel' newNodeRes typicalPods dp
                                        (cumProb * p) with
                                | None => None
                                | Some (v, dp') => loop rest (pvSum + v * p) dp'
                                end
                            end
                        end in
                      match loop typicalPods 0 dp with
                      | None => None
                      | Some (pvSum, dp') =>
                          let frag := 0 + pvSum * gamma in
                          Some (frag, <[nodeResKey := DpFloat64 frag]> dp')
                      end
                    else
                      let frag := gpuMilliLeftTotal in
                      Some (frag, <[nodeResKey := DpFloat64 frag]> dp)
                end
            end
      end
  end.

End Frag.

(** ** Workload distiller: skyline pods *)

(** [sort.SliceStable]: Go's stable sort, given by the stable insertion sort
    (every stable sort yields the same slice for the same [less]). *)
Fixpoint insertSorted {A : Type} (less : A -> A -> bool) (x : A) (sorted : list A) : list A :=
  match sorted with
  | [] => [x]
  | y :: rest => if less x y then x :: y :: rest else y :: insertSorted less x rest
  end.

Definition SliceStable {A : Type} (less : A -> A -> bool) (l : list A) : list A :=
  foldl (fun sorted x => insertSorted less x sorted) [] l.

(** The [less] closure of [GetSkylinePods]. *)
Definition skylineLess (a b : PodResource) : bool :=
  if (MilliCpu a <? MilliCpu b)%Z then true
  else if (MilliCpu a =? MilliCpu b)%Z then (MilliGpu a <? MilliGpu b)%Z
  else false.

(** The sweep over the sorted requests; [skylinePods] is the slice built so
    far. *)
Fixpoint skylineSweep (skylinePods podResList : list PodResource) : list PodResource :=
  match podResList with
  | [] => skylinePods
  | p :: rest =>
      let accept :=
        match last skylinePods with
        | None => true (* num == 0 *)
        | Some top => (MilliCpu p >? MilliCpu top)%Z && (MilliGpu p <? MilliGpu top)%Z
        end in
      if accept then skylineSweep (skylinePods ++ [p]) rest
      else skylineSweep skylinePods rest
  end.

(** [v1alpha1.TypicalPodsConfig] *)
Record TypicalPodsConfig := mkTypicalPodsConfig {
  IsInvolvedCpuPods : bool;
  PodPopularityThreshold : Z;
  PodIncreaseStep : Z;
  GpuResWeight : float
}.

(** [TargetPodList.Less], the order that [sort.Sort] is given. *)
Definition targetPodLess (a b : TargetPod) : bool := Percentage a <? Percentage b.

(** [insertionSort] of Go's [sort] package, on the prefix sorted so far held
    in reverse: the new element moves left while it is [less] than its left
    neighbour. *)
Fixpoint moveLeft {A : Type} (less : A -> A -> bool) (x : A) (revPrefix : list A) : list A :=
  match revPrefix with
  | [] => [x]
  | y :: rest => if less x y then y :: moveLeft less x rest else x :: y :: rest
  end.

Definition insertionSort {A : Type} (less : A -> A -> bool) (l : list A) : list A :=
  rev (foldl (fun revPrefix x => moveLeft less x revPrefix) [] l).

(** [sort.Sort]: slices of at most 12 elements are sorted by
    [insertionSort]; longer ones go through the quicksort and heapsort passes
    of pdqsort, which are not modelled ([None]). *)
Definition sortSort {A : Type} (less : A -> A -> bool) (l : list A) : option (list A) :=
  if (length l <=? 12)%nat then Some (insertionSort less l) else None.

Section Distiller.

(** [*v1.Pod] and [GetPodResource] (defined elsewhere in [pkg/utils]). *)
Variable Pod : Type.
Variable GetPodResource : Pod -> PodResource.

Definition GetSkylinePods (allPods : list Pod) : list PodResource :=
  let podResList := map GetPodResource allPods in
  skylineSweep [] (SliceStable skylineLess podResList).

(** *** Typical pods *)

(** [simontype.DefaultTypicalPodPopularityThreshold] and
    [simontype.DefaultTypicalPodIncreaseStep] *)
Variable DefaultTypicalPodPopularityThreshold : Z.
Variable DefaultTypicalPodIncreaseStep : Z.

(** Go leaves the order in which [range] visits a map unspecified, and it
    changes from run to run; [rangeOver m] is the order of one run, a
    permutation of the entries of [m] (see [isRangeOrder]). *)
Variable rangeOver : gmap PodResource float -> list (PodResource * float).

(** The first loop of [GetTypicalPods]: one pod added to the weighted counts
    and to [total].  ([podGpuCntMap] only feeds the log.) *)
Definition countPod (config : TypicalPodsConfig)
    (st : gmap PodResource float * float) (pod : Pod) : gmap PodResource float * float :=
  let '(tgtPodResCntMap, total) := st in
  let tgtPodRes := GetPodResource pod in
  if negb (IsInvolvedCpuPods config) && (GpuNumber tgtPodRes =? 0)%Z then st
  else
    let weightedCnt :=
      if (0 <? GpuResWeight config) && (MilliGpu tgtPodRes =? MILLI)%Z
      then 1 + float64_of_int64 (GpuNumber tgtPodRes) * GpuResWeight config
      else 1 in
    let tgtPodResCntMap' :=
      match tgtPodResCntMap !! tgtPodRes with
      | Some cnt => <[tgtPodRes := cnt + weightedCnt]> tgtPodResCntMap
      | None => <[tgtPodRes := weightedCnt]> tgtPodResCntMap
      end in
    (tgtPodResCntMap', total + weightedCnt).

Definition SortTargetPodInDecreasingCount (tgtPodResMap : gmap PodResource float)
  : option TargetPodList :=
  let pl := map (fun kv => mkTargetPod kv.1 kv.2) (rangeOver tgtPodResMap) in
  sortSort (fun a b => targetPodLess b a) pl.

(** State of the selection loops. *)
Record selection := mkSelection {
  sel_i : Z;
  sel_podResNum : Z;
  sel_cumNumPods : float;
  sel_tgtPodList : TargetPodList
}.

(** The inner loop [for i < podResNum && i < len(tgtPodList)]; [k] bounds the
    iterations left ([len(tgtPodList) - i] suffices, [i] grows each time). *)
Fixpoint selectInner (k : nat) (total : float) (st : selection) : selection :=
  match k with
  | O => st
  | S k' =>
      let i := sel_i st in
      if (i <? sel_podResNum st)%Z && (i <? Z.of_nat (length (sel_tgtPodList st)))%Z then
        match sel_tgtPodList st !! Z.to_nat i with
        | None => st
        | Some tp =>
            let numPods := Percentage tp in
            selectInner k' total
              (mkSelection (i + 1)%Z (sel_podResNum st) (sel_cumNumPods st + numPods)
                 (<[Z.to_nat i := mkTargetPod (TargetPodResource tp) (Percentage tp / total)]>
                    (sel_tgtPodList st)))
        end
      else st
  end.

(** The outer loop [for cumNumPods < expectedNumPods]; every iteration costs
    one unit of [fuel], [None] means that [fuel] iterations did not end it. *)
Fixpoint selectOuter (fuel : nat) (step : Z) (total expectedNumPods : float)
    (st : selection) : option selection :=
  match fuel with
  | O => None
  | S fuel' =>
      if sel_cumNumPods st <? expectedNumPods then
        let st1 := mkSelection (sel_i st) (wrap64 (sel_podResNum st + step))
                               (sel_cumNumPods st) (sel_tgtPodList st) in
        let k := (length (sel_tgtPodList st) - Z.to_nat (sel_i st))%nat in
        selectOuter fuel' step total expectedNumPods (selectInner k total st1)
      else Some st
  end.

Definition GetTypicalPods (fuel : nat) (allPods : list Pod) (config : TypicalPodsConfig)
  : option TargetPodList :=
  let '(tgtPodResCntMap, total) := foldl (countPod config) (∅, 0) allPods in
  match SortTargetPodInDecreasingCount tgtPodResCntMap with
  | None => None
  | Some tgtPodList =>
      let expectedNumPods :=
        if (PodPopularityThreshold config >? 0)%Z
        then float64_of_int64 (PodPopularityThreshold config) * total / 100
        else float64_of_int64 DefaultTypicalPodPopularityThreshold * total / 100 in
      let step :=
        if (PodIncreaseStep config >? 0)%Z then PodIncreaseStep config
        else DefaultTypicalPodIncreaseStep in
      match selectOuter fuel step total expectedNumPods (mkSelection 0 0 0 tgtPodList) with
      | None => None
      | Some st =>
          let i := sel_i st in
          let cumNumPods := sel_cumNumPods st in
          if (i >=? Z.of_nat (length (sel_tgtPodList st)))%Z then Some (sel_tgtPodList st)
          else
            let outPodList := take (Z.to_nat i) (sel_tgtPodList st) in
            Some (map (fun tp => mkTargetPod (TargetPodResource tp)
                                   (Percentage tp / (cumNumPods / total)))
                      outPodList)
      end
  end.

End Distiller.

Definition isRangeOrder (rangeOver : gmap PodResource float -> list (PodResource * float))
  : Prop :=
  forall m, rangeOver m ≡ₚ map_to_list m.

(** [a] comes before-or-with [b] in the order [(milliCpu ASC, milliGpu ASC)]. *)
Definition cpuGpuLe (a b : PodResource) : Prop :=
  (MilliCpu a < MilliCpu b \/ (MilliCpu a = MilliCpu b /\ MilliGpu a <= MilliGpu b))%Z.

(** The partial order of the skyline in the specification's data model:
    [a] dominates [b] when it asks for strictly more CPU and strictly less
    GPU. *)
Definition dominates (a b : PodResource) : Prop :=
  (MilliCpu b < MilliCpu a /\ MilliGpu a < MilliGpu b)%Z.

(** Component-wise comparison of two requests: [a] asks for no more CPU and
    no more GPU than [b]. *)
Definition fitsWhenever (a b : PodResource) : Prop :=
  (MilliCpu a <= MilliCpu b /\ MilliGpu a <= MilliGpu b)%Z.

(** ** [FragAmount.AddGamma]: the receiver and its backing array

    [AddGamma] has a value receiver: the callee works on a copy of the
    [FragAmount] struct (node name and slice header), while the elements of
    [Data] live in a backing array that caller and callee share.  The store
    below holds the backing arrays; a slice names its array and its length
    (the slices of this code always start at the first element), the nil
    slice names no array. *)

Module Store.

Abbreviation loc := nat.

Record slice := mkSlice {
  sl_array : option loc;
  sl_len : nat
}.

Definition nilSlice : slice := mkSlice None 0.

Abbreviation store := (gmap loc (list float)).

(** [s[i]], [None] when the index is out of range (a run-time panic). *)
Definition sliceGet (st : store) (s : slice) (i : nat) : option float :=
  if (i <? sl_len s)%nat then
    match sl_array s with
    | Some a => match st !! a with Some arr => arr !! i | None => None end
    | None => None
    end
  else None.

(** [s[i] = v] *)
Definition sliceSet (st : store) (s : slice) (i : nat) (v : float) : option store :=
  if (i <? sl_len s)%nat then
    match sl_array s with
    | Some a => match st !! a with
                | Some arr => Some (<[a := <[i := v]> arr]> st)
                | None => None
                end
    | None => None
    end
  else None.

(** The elements a holder of the slice header [s] sees. *)
Definition sliceElems (st : store) (s : slice) : option (list float) :=
  match sl_array s with
  | Some a => match st !! a with Some arr => Some (take (sl_len s) arr) | None => None end
  | None => Some []
  end.

(** [make([]float64, n)]: a fresh zeroed array. *)
Definition makeSlice (st : store) (n : nat) : store * slice :=
  let a := fresh (dom st) in
  (<[a := replicate n 0]> st, mkSlice (Some a) n).

Record FragAmount := mkFragAmount {
  NodeName : string;
  Data : slice
}.

(** The built-in [copy(dst, src)], element by element over the indices still
    to visit (the two slices of [NewFragAmount] never overlap). *)
Fixpoint copyLoop (st : store) (dst src : slice) (idx : list nat) : option store :=
  match idx with
  | [] => Some st
  | i :: rest =>
      match sliceGet st src i with
      | Some x =>
          match sliceSet st dst i x with
          | Some st' => copyLoop st' dst src rest
          | None => None
          end
      | None => None
      end
  end.

Definition copy (st : store) (dst src : slice) : option store :=
  copyLoop st dst src (seq 0 (Nat.min (sl_len dst) (sl_len src))).

(** [NewFragAmount(nodeName, data)] *)
Definition NewFragAmount (st : store) (nodeName : string) (data : slice)
  : option (FragAmount * store) :=
  let '(st1, fresh_data) := makeSlice st (sl_len data) in
  match copy st1 fresh_data data with
  | Some st2 => Some (mkFragAmount nodeName fresh_data, st2)
  | None => None
  end.

(** The loop [for i := 0; i < len(fa.Data); i++ { fa.Data[i] += gamma * faOther.Data[i] }],
    over the indices still to visit. *)
Fixpoint addGammaLoop (st : store) (data other : slice) (gamma : float) (idx : list nat)
  : option store :=
  match idx with
  | [] => Some st
  | i :: rest =>
      match sliceGet st data i, sliceGet st other i with
      | Some x, Some y =>
          match sliceSet st data i (x + gamma * y) with
          | Some st' => addGammaLoop st' data other gamma rest
          | None => None
          end
      | _, _ => None
      end
  end.

(** [fa.AddGamma(faOther, gamma)]: the [error] returned and the store after
    the call; the caller keeps its own [fa]. *)
Definition AddGamma (st : store) (fa faOther : FragAmount) (gamma : float)
  : option (error * store) :=
  let '(st1, data) :=
    if (sl_len (Data fa) =? 0)%nat
    then makeSlice st (size FragRatioDataMap) (* fa.Data = make(...), zeroed *)
    else (st, Data fa) in
  if negb (sl_len data =? sl_len (Data faOther))%nat
  then Some (Some "this does not match the other"%string, st1)
  else
    match addGammaLoop st1 data (Data faOther) gamma (seq 0 (sl_len data)) with
    | Some st2 => Some (None, st2)
    | None => None
    end.

Definition AddFragAmount (st : store) (fa faOther : FragAmount) : option (error * store) :=
  AddGamma st fa faOther 1.

End Store.

(** ** Pod ordering: [GreedQueue] *)

Module algo.

(** What [GreedQueue] reads of a [*corev1.Pod]: [Spec.NodeName] and the
    requests summed by [resourcehelper.PodRequestsAndLimits], each quantity
    given by its [AsApproximateFloat64]. *)
Record Pod := mkPod {
  NodeName : string;
  podReq : gmap string float
}.

(** [totalResource] holds the cluster's allocatable CPU and memory (keys
    ["cpu"] and ["memory"]), again by [AsApproximateFloat64]. *)
Record GreedQueue := mkGreedQueue {
  pods : list Pod;
  totalResource : gmap string float
}.

Definition Share (alloc total : float) : float :=
  if total =? 0 then
    if alloc =? 0 then 0 else 1
  else alloc / total.

(** One iteration of [for resourceName := range greed.totalResource]. *)
Definition shareStep (greed : GreedQueue) (pod : Pod) (res : float) (resourceName : string)
  : float :=
  let allocatedRes := default 0 (podReq pod !! resourceName) in
  let totalRes := default 0 (totalResource greed !! resourceName) in
  let share := Share allocatedRes totalRes in
  if res <? share then share else res.

(** [rangeOrder] is the order in which this run visits the keys of
    [totalResource] (Go leaves it unspecified). *)
Definition calculatePodShare (rangeOrder : list string) (greed : GreedQueue) (pod : Pod)
  : float :=
  if (size (podReq pod) =? 0)%nat then 0
  else foldl (shareStep greed pod) 0 rangeOrder.

(** [Less(i, j)]; [None] is an index out of range. *)
Definition Less (rangeOrder : list string) (greed : GreedQueue) (i j : nat) : option bool :=
  match pods greed !! i with
  | None => None
  | Some pi =>
      if negb (String.eqb (NodeName pi) "") then Some true
      else
        match pods greed !! j with
        | None => None
        | Some pj =>
            if negb (String.eqb (NodeName pj) "") then Some false
            else Some (calculatePodShare rangeOrder greed pj
                       <? calculatePodShare rangeOrder greed pi)
        end
  end.

(** An admissible visiting order of the keys of [totalResource]. *)
Definition isKeyOrder (greed : GreedQueue) (rangeOrder : list string) : Prop :=
  rangeOrder ≡ₚ (map_to_list (totalResource greed)).*1.

(** The dominant share as the specification words it: the largest, over the
    resource dimensions of the cluster, of request divided by capacity. *)
Definition requestOverCapacity (greed : GreedQueue) (pod : Pod) (resourceName : string)
  : float :=
  default 0 (podReq pod !! resourceName) / default 0 (totalResource greed !! resourceName).

Definition dominantShare (rangeOrder : list string) (greed : GreedQueue) (pod : Pod) : float :=
  foldl (fun res resourceName =>
           let share := requestOverCapacity greed pod resourceName in
           if res <? share then share else res) 0 rangeOrder.

End algo.

(** ** PWR score plugin *)

(** Go's conversion [int64(f)] of a [float64]: the fraction is discarded.
    Where the value does not fit (NaN and infinities included) Go leaves the
    result to the implementation; the smallest [int64] is what amd64 yields. *)
Definition int64_of_float64 (f : float) : Z :=
  match Prim2SF f with
  | S754_zero _ => 0%Z
  | S754_finite s m e =>
      let magnitude :=
        if (0 <=? e)%Z then (Zpos m * 2 ^ e)%Z else (Zpos m / 2 ^ (- e))%Z in
      let v := if s then (- magnitude)%Z else magnitude in
      if (int64_min <=? v)%Z && (v <=? int64_max)%Z then v else int64_min
  | S754_infinity _ | S754_nan => int64_min
  end.

Module plugin.

(** [framework.MaxNodeScore] and [framework.MinNodeScore] *)
Definition MaxNodeScore : Z := 100.
Definition MinNodeScore : Z := 0.

(** [framework.Status], by its code. *)
Inductive Status :=
  | Success
  | Error (reason : string).

Section PWRScore.

(** Defined in other files of the repository: the logistic function of the
    plugin package, the energy model and [Sub] of [pkg/type], the accessors
    of [pkg/utils]. *)
Variable sigmoid : float -> float.
Variable GetEnergyConsumptionNode : NodeResource -> float * float.
Variable Sub : NodeResource -> PodResource -> NodeResource * error.
Variable AllocateExclusiveGpuId : NodeResource -> PodResource -> string.
Variable IsNodeAccessibleToPod : NodeResource -> PodResource -> bool.
Variable Pod : Type.
Variable GetPodResource : Pod -> PodResource.
(** [len(podReq)] for [podReq, _ := resourcehelper.PodRequestsAndLimits(p)] *)
Variable podRequestCount : Pod -> nat.
Variable GetNodeResourceViaHandleAndName : string -> option NodeResource.

Definition nodeEnergy (nodeRes : NodeResource) : float :=
  let '(cpuEnergy, gpuEnergy) := GetEnergyConsumptionNode nodeRes in
  cpuEnergy + gpuEnergy.

(** [int64(sigmoid((old_node_energy-new_node_energy)/1000) * float64(framework.MaxNodeScore))] *)
Definition energyScore (old_node_energy new_node_energy : float) : Z :=
  int64_of_float64
    (sigmoid ((old_node_energy - new_node_energy) / 1000) * float64_of_int64 MaxNodeScore).

(** The loop over the GPUs of the node for a pod that shares one GPU; [i] is
    the index of the head of [gpus]. *)
Fixpoint shareLoop (nodeRes : NodeResource) (podRes : PodResource) (old_node_energy : float)
    (i : nat) (gpus : list Z) (score : Z) (gpuId : string) : Z * string :=
  match gpus with
  | [] => (score, gpuId)
  | milliGpuLeft :: rest =>
      if (milliGpuLeft >=? MilliGpu podRes)%Z then
        let newNodeRes :=
          mkNodeResource (NodeName nodeRes)
            (wrap64 (MilliCpuLeft nodeRes - MilliCpu podRes))
            (<[i := wrap64 (milliGpuLeft - MilliGpu podRes)]> (MilliGpuLeftList nodeRes))
            (NodeGpuType nodeRes) in
        let new_node_energy := nodeEnergy newNodeRes in
        let fragScore := energyScore old_node_energy new_node_energy in
        if String.eqb gpuId "" || (fragScore >? score)%Z
        then shareLoop nodeRes podRes old_node_energy (S i) rest fragScore (pretty i)
        else shareLoop nodeRes podRes old_node_energy (S i) rest score gpuId
      else shareLoop nodeRes podRes old_node_energy (S i) rest score gpuId
  end.

Definition calculatePWRShareFragExtendScore (nodeRes : NodeResource) (podRes : PodResource)
    (typicalPods : TargetPodList) : Z * string :=
  let old_node_energy := nodeEnergy nodeRes in
  if (GpuNumber podRes =? 1)%Z && (MilliGpu podRes <? MILLI)%Z then
    shareLoop nodeRes podRes old_node_energy 0 (MilliGpuLeftList nodeRes) 0 ""
  else
    let '(newNodeRes, _) := Sub nodeRes podRes in
    let new_node_energy := nodeEnergy newNodeRes in
    (energyScore old_node_energy new_node_energy, AllocateExclusiveGpuId nodeRes podRes).

Definition Score (typicalPods : TargetPodList) (p : Pod) (nodeName : string) : Z * Status :=
  if (podRequestCount p =? 0)%nat then (MaxNodeScore, Success)
  else
    match GetNodeResourceViaHandleAndName nodeName with
    | None => (MinNodeScore, Error "failed to get nodeRes")
    | Some nodeRes =>
        let podRes := GetPodResource p in
        if negb (IsNodeAccessibleToPod nodeRes podRes)
        then (MinNodeScore, Error "Node does not match GPU type request of pod")
        else
          let '(score, _) := calculatePWRShareFragExtendScore nodeRes podRes typicalPods in
          (score, Success)
    end.

End PWRScore.

End plugin.

(** ** Further functions of [frag.go] *)

(** The frequency guard of [NodeGpuFragRatio] and [NodeGpuShareFragAmount]
    lets the pod through. *)
Definition passesFreqGuard (pod : TargetPod) : bool :=
  negb ((Percentage pod <? 0) || (1 <? Percentage pod)).

Definition FragAmountSumQ1Q2Q4 (Data : list float) : option float :=
  match FragRatioDataMap !! Q1LackBoth, FragRatioDataMap !! Q2LackGpu,
        FragRatioDataMap !! Q4LackCpu with
  | Some q1, Some q2, Some q4 =>
      match Data !! q1 with
      | None => None
      | Some a =>
          match Data !! q2 with
          | None => None
          | Some b =>
              match Data !! q4 with
              | None => None
              | Some c => Some (0 + a + b + c)
              end
          end
      end
  | _, _, _ => None
  end.

(** ** [GetTypicalPods] after the sort

    The part of [GetTypicalPods] that follows the call of
    [SortTargetPodInDecreasingCount]: the threshold, the two selection loops
    and the final chopping, on the ranking [tgtPodList] and the [total] of
    the weighted counts. *)
Definition selectTypicalPods (DefaultTypicalPodPopularityThreshold : Z)
    (DefaultTypicalPodIncreaseStep : Z) (fuel : nat) (config : TypicalPodsConfig)
    (total : float) (tgtPodList : TargetPodList) : option TargetPodList :=
  let expectedNumPods :=
    if (PodPopularityThreshold config >? 0)%Z
    then float64_of_int64 (PodPopularityThreshold config) * total / 100
    else float64_of_int64 DefaultTypicalPodPopularityThreshold * total / 100 in
  let step :=
    if (PodIncreaseStep config >? 0)%Z then PodIncreaseStep config
    else DefaultTypicalPodIncreaseStep in
  match selectOuter fuel step total expectedNumPods (mkSelection 0 0 0 tgtPodList) with
  | None => None
  | Some st =>
      let i := sel_i st in
      let cumNumPods := sel_cumNumPods st in
      if (i >=? Z.of_nat (length (sel_tgtPodList st)))%Z then Some (sel_tgtPodList st)
      else
        let outPodList := take (Z.to_nat i) (sel_tgtPodList st) in
        Some (map (fun tp => mkTargetPod (TargetPodResource tp)
                               (Percentage tp / (cumNumPods / total)))
                  outPodList)
  end.

(** ** [validate] of [pkg/apply] *)

Module apply.

(** What [validate] reads of an [Applier]: the two cluster sources, the
    scheduler configuration and the applications, each application with its
    name and path. *)
Record AppInfo := mkAppInfo {
  Name : string;
  Path : string
}.

Record Applier := mkApplier {
  KubeConfig : string;
  CustomCluster : string;
  schedulerConfig : string;
  appList : list AppInfo
}.

Section Validate.

(** [os.Stat(path)] returns no error; the file system is the same for every
    call of one run of [validate]. *)
Variable statOk : string -> bool.

Definition isEmpty (s : string) : bool := (String.length s =? 0)%nat.

(** The loop [for _, app := range applier.appList]. *)
Fixpoint validateApps (apps : list AppInfo) : error :=
  match apps with
  | [] => None
  | app :: rest =>
      if negb (statOk (Path app)) then Some ("invalid path of " +:+ Name app +:+ " app")
      else validateApps rest
  end.

Definition validate (applier : Applier) : error :=
  if isEmpty (KubeConfig applier) && isEmpty (CustomCluster applier)
     || negb (isEmpty (KubeConfig applier)) && negb (isEmpty (CustomCluster applier))
  then Some "only one of values of both kubeConfig and customConfig must exist "
  else if negb (isEmpty (KubeConfig applier)) && negb (statOk (KubeConfig applier))
  then Some "invalid path of kubeConfig"
  else if negb (isEmpty (CustomCluster applier)) && negb (statOk (CustomCluster applier))
  then Some "invalid path of customConfig"
  else if negb (isEmpty (schedulerConfig applier)) && negb (statOk (schedulerConfig applier))
  then Some "invalid path of scheduler config"
  else validateApps (appList applier).

End Validate.

End apply.

(** ** Stand-ins for the operations of [pkg/type] and [pkg/utils] on which the
       functions above are parameterised; used to run them on examples. *)

Module SpecModel.

(** Modelled from the spec: [IsNodeAccessibleToPod] (its file is not part of
    the sources at hand) is "true iff GPU type matches (or pod requires none)
    and [CanNodeHostPodOnGpuMemory] holds or the pod requires no GPU". *)
Definition IsNodeAccessibleToPod (nodeRes : NodeResource) (podRes : PodResource) : bool :=
  (String.eqb (GpuType podRes) "" || String.eqb (GpuType podRes) (NodeGpuType nodeRes))
  && (CanNodeHostPodOnGpuMemory nodeRes podRes || (GpuNumber podRes =? 0)%Z).

(** Deducts [milliGpu] from the lowest-indexed GPUs that can serve it, until
    [gpuRequest] GPUs are found. *)
Fixpoint subGpus (gpuRequest milliGpu : Z) (l : list Z) : option (list Z) :=
  if (gpuRequest <=? 0)%Z then Some l
  else
    match l with
    | [] => None
    | g :: rest =>
        if (milliGpu <=? g)%Z
        then option_map (cons (g - milliGpu)%Z) (subGpus (gpuRequest - 1) milliGpu rest)
        else option_map (cons g) (subGpus gpuRequest milliGpu rest)
    end.

(** Modelled from the spec: [NodeResource.Sub] (defined in [pkg/type]) gives
    the node with the pod's resources deducted and fails with
    [InsufficientResources], [IncompatibleGpuType] or [InsufficientGpus]. *)
Definition Sub (nodeRes : NodeResource) (podRes : PodResource) : NodeResource * error :=
  if (MilliCpuLeft nodeRes <? MilliCpu podRes)%Z
  then (nodeRes, Some "InsufficientResources"%string)
  else if negb (String.eqb (GpuType podRes) "")
          && negb (String.eqb (GpuType podRes) (NodeGpuType nodeRes))
  then (nodeRes, Some "IncompatibleGpuType"%string)
  else
    match subGpus (GpuNumber podRes) (MilliGpu podRes) (MilliGpuLeftList nodeRes) with
    | None => (nodeRes, Some "InsufficientGpus"%string)
    | Some gpus =>
        (mkNodeResource (NodeName nodeRes) (MilliCpuLeft nodeRes - MilliCpu podRes)%Z
                        gpus (NodeGpuType nodeRes), None)
    end.

(** Modelled from the spec: [NodeResource.Flatten] (defined in [pkg/type])
    is the node's flattened resource signature: CPU, GPU type and the sorted
    list of remaining GPU millis. *)
Definition Flatten (nodeRes : NodeResource) (tag : string) : string :=
  foldl (fun acc g => acc +:+ "," +:+ pretty g)
        (tag +:+ ":" +:+ pretty (MilliCpuLeft nodeRes) +:+ ":" +:+ NodeGpuType nodeRes)
        (merge_sort Z.le (MilliGpuLeftList nodeRes)).

End SpecModel.

(** ** Example inputs *)

Module Examples.

(** A node with one idle GPU and four cores left. *)
Definition idleGpuNode : NodeResource := mkNodeResource "node-1" 4000 [1000%Z] "V100".

(** A node with a partly used and an idle GPU. *)
Definition twoGpuNode : NodeResource := mkNodeResource "node-2" 4000 [300%Z; 1000%Z] "V100".

(** A reference workload of one CPU-only pod shape that asks for eight cores. *)
Definition cpuOnlyWorkload : TargetPodList :=
  [ mkTargetPod (mkPodResource 8000 0 0 "") 1 ].

(** Half of a GPU and one core, seen in half of the workload. *)
Definition halfGpuPod : TargetPod := mkTargetPod (mkPodResource 1000 500 1 "") 0.5.

End Examples.

Module DistillerExamples.

(** One pod that asks for a whole GPU, counted with [gpuResWeight = 0.36] and
    selected up to 100 % of the workload, one pod shape at a time. *)
Definition wholeGpuPod : PodResource := mkPodResource 1000 1000 1 "".

Definition weightedConfig : TypicalPodsConfig :=
  mkTypicalPodsConfig true 100 1 0x1.70a3d70a3d70ap-2 (* 0.36 *).

(** Two pod shapes that occur once each. *)
Definition halfGpuShape : PodResource := mkPodResource 1000 500 1 "".
Definition bigShape : PodResource := mkPodResource 2000 1000 1 "".

Definition plainConfig : TypicalPodsConfig := mkTypicalPodsConfig true 100 1 0.

(** Two orders in which [range] may visit a map. *)
Definition rangeForward (m : gmap PodResource float) : list (PodResource * float) :=
  map_to_list m.
Definition rangeBackward (m : gmap PodResource float) : list (PodResource * float) :=
  reverse (map_to_list m).

End DistillerExamples.

Module StoreExamples.

(** A store with the vector of one node, a cluster-wide [FragAmount] that was
    never given a [Data] slice, and the node's [FragAmount]. *)
Definition nodeStore : Store.store := {[ 0%nat := [1; 2; 0; 0; 0; 0; 0] ]}.

Definition clusterAmount : Store.FragAmount := Store.mkFragAmount "cluster" Store.nilSlice.

Definition nodeAmount : Store.FragAmount :=
  Store.mkFragAmount "node-1" (Store.mkSlice (Some 0%nat) 7).

End StoreExamples.

Module GreedExamples.

(** A queue over a cluster without allocatable CPU or memory, holding one
    unbound pod that asks for one core. *)
Definition oneCorePod : algo.Pod := algo.mkPod "" {[ "cpu"%string := 1 ]}.

Definition emptyCluster : algo.GreedQueue :=
  algo.mkGreedQueue [oneCorePod] (<["cpu"%string := 0]> {[ "memory"%string := 0 ]}).

(** A queue over an 8-core, 16-unit cluster: two pods already bound to
    nodes, an unbound pod that asks for two cores and one that asks for four
    units of memory and one core. *)
Definition boundA : algo.Pod := algo.mkPod "node-1" {[ "cpu"%string := 1 ]}.
Definition boundB : algo.Pod := algo.mkPod "node-2" {[ "cpu"%string := 4 ]}.
Definition twoCores : algo.Pod := algo.mkPod "" {[ "cpu"%string := 2 ]}.
Definition fourUnits : algo.Pod :=
  algo.mkPod "" (<["cpu"%string := 1]> {[ "memory"%string := 4 ]}).

Definition smallCluster : algo.GreedQueue :=
  algo.mkGreedQueue [boundA; boundB; twoCores; fourUnits]
    (<["cpu"%string := 8]> {[ "memory"%string := 16 ]}).



(** The same cluster with unbound pods only. *)
Definition threeUnits : algo.Pod := algo.mkPod "" {[ "memory"%string := 3 ]}.

Definition unboundQueue : algo.GreedQueue :=
  algo.mkGreedQueue [fourUnits; threeUnits; oneCorePod]
    (<["cpu"%string := 8]> {[ "memory"%string := 16 ]}).

End GreedExamples.

Module PwrExamples.

(** The "hard sigmoid", a piecewise linear stand-in for the logistic
    function with the same range: [0.5 + x/4] clamped to [[0,1]]. *)
Definition hardSigmoid (x : float) : float :=
  let y := 0.5 + 0.25 * x in
  if y <? 0 then 0 else if 1 <? y then 1 else if y =? y then y else 0.5.

(** An energy model in which a node draws 100 W for its CPUs and 50 W for
    its GPUs as soon as one of them is in use. *)
Definition busyGpuEnergy (nodeRes : NodeResource) : float * float :=
  (100, if existsb (fun g => (g <? MILLI)%Z) (MilliGpuLeftList nodeRes) then 50 else 0).

(** The stand-ins for the remaining parameters of the plugin: pods are given
    by their resources, every pod has requests, and the only known node is
    [Examples.twoGpuNode]. *)
Definition firstFit (nodeRes : NodeResource) (podRes : PodResource) : string := "0".
Definition knownNode (nodeName : string) : option NodeResource :=
  if String.eqb nodeName "node-2" then Some Examples.twoGpuNode else None.

End PwrExamples.

Module MoreExamples.

(** A typical pod whose percentage is not a number. *)
Definition nanPod : TargetPod := mkTargetPod (mkPodResource 1000 500 1 "") nan.

(** A whole-GPU pod and a smaller request on one GPU. *)
Definition wholeGpuRequest : PodResource := mkPodResource 2000 1000 1 "".
Definition smallRequest : PodResource := mkPodResource 500 200 1 "".

End MoreExamples.

Module MoreDistillerExamples.

(** A workload of CPU-only pods, distilled without CPU pods. *)
Definition cpuPodA : PodResource := mkPodResource 1000 0 0 "".
Definition cpuPodB : PodResource := mkPodResource 4000 0 0 "".

Definition gpuOnlyConfig : TypicalPodsConfig := mkTypicalPodsConfig false 80 1 0.

(** Weighted counts of three pod shapes, all different. *)
Definition distinctCounts : gmap PodResource float :=
  <[DistillerExamples.halfGpuShape := 3%float]>
    (<[DistillerExamples.bigShape := 1%float]>
       {[DistillerExamples.wholeGpuPod := 2%float]}).

(** A ranking of thirteen pod shapes, seen 13, 12, ..., 1 times (91 pods). *)
Definition longRanking : TargetPodList :=
  map (fun k => mkTargetPod (mkPodResource (k * 1000)%Z 500 1 "")
                            (float64_of_int64 (14 - k)))
      [1; 2; 3; 4; 5; 6; 7; 8; 9; 10; 11; 12; 13]%Z.

Definition halfConfig : TypicalPodsConfig := mkTypicalPodsConfig true 50 1 0.

End MoreDistillerExamples.

Module MoreStoreExamples.

(** A store with the vectors of two nodes, both of full length. *)
Definition twoNodeStore : Store.store :=
  <[1%nat := [0; 4; 0; 0; 0; 8; 0]]> StoreExamples.nodeStore.

Definition otherAmount : Store.FragAmount :=
  Store.mkFragAmount "node-2" (Store.mkSlice (Some 1%nat) 7).

(** A vector of the wrong length. *)
Definition shortAmount : Store.FragAmount :=
  Store.mkFragAmount "node-3" (Store.mkSlice (Some 1%nat) 3).

End MoreStoreExamples.

Module BellmanExamples.

(** A table that already holds the value of some node. *)
Definition memoTable : gmap string dpValue := {[ "bellman:0:T4"%string := DpFloat64 250 ]}.

(** A reference workload of half-GPU pods only. *)
Definition halfGpuWorkload : TargetPodList := [Examples.halfGpuPod].

End BellmanExamples.

Module ApplyExamples.

(** A run from a custom cluster directory with one application. *)
Definition simpleApplier : apply.Applier :=
  apply.mkApplier "" "cluster/" "" [apply.mkAppInfo "app" "apps/app.yaml"].

Definition onDisk (path : string) : bool :=
  String.eqb path "cluster/" || String.eqb path "apps/app.yaml".

End ApplyExamples.

Local Close Scope float_scope.

(** * Properties *)

(** ** Machine integers *)

Lemma wrap64_id z : in_int64 z -> wrap64 z = z.
Proof.
  unfold in_int64, int64_min, int64_max, wrap64. intros H.
  rewrite Z.mod_small; lia.
Qed.

Lemma wrap64_range z : in_int64 (wrap64 z).
Proof.
  unfold in_int64, int64_min, int64_max, wrap64.
  pose proof (Z.mod_pos_bound (z + 2 ^ 63) (2 ^ 64) ltac:(lia)). lia.
Qed.


(** ** [GetNodePodFrag] *)

Lemma fragCategories_NoDup : NoDup fragCategories.
Proof. apply (bool_decide_unpack _). vm_compute. reflexivity. Qed.

Lemma FragRatioDataMap_size : size FragRatioDataMap = 7%nat.
Proof. vm_compute. reflexivity. Qed.

Section FragCategory.

Variable IsNodeAccessibleToPod : NodeResource -> PodResource -> bool.

Local Abbreviation fragOf := (GetNodePodFrag IsNodeAccessibleToPod).

(** C1: [GetNodePodFrag] follows the decision tree of the specification, one
    leaf per line below, and therefore always answers with one of the seven
    (pairwise distinct) category names. *)
Theorem GetNodePodFrag_decision_tree (nodeRes : NodeResource) (podRes : PodResource) :
  (* 1 *)
  (MilliGpu podRes = 0 -> MilliCpu podRes <= MilliCpuLeft nodeRes ->
     fragOf nodeRes podRes = XLSatisfied) /\
  (MilliGpu podRes = 0 -> MilliCpuLeft nodeRes < MilliCpu podRes ->
     fragOf nodeRes podRes = XRLackCPU) /\
  (* 2 *)
  (MilliGpu podRes <> 0 -> IsNodeAccessibleToPod nodeRes podRes = false ->
     fragOf nodeRes podRes = NoAccess) /\
  (* 3 *)
  (MilliGpu podRes <> 0 -> IsNodeAccessibleToPod nodeRes podRes = true ->
   CanNodeHostPodOnGpuMemory nodeRes podRes = true ->
   MilliCpu podRes <= MilliCpuLeft nodeRes ->
     fragOf nodeRes podRes = Q3Satisfied) /\
  (MilliGpu podRes <> 0 -> IsNodeAccessibleToPod nodeRes podRes = true ->
   CanNodeHostPodOnGpuMemory nodeRes podRes = true ->
   MilliCpuLeft nodeRes < MilliCpu podRes ->
     fragOf nodeRes podRes = Q4LackCpu) /\
  (* 4 *)
  (MilliGpu podRes <> 0 -> IsNodeAccessibleToPod nodeRes podRes = true ->
   CanNodeHostPodOnGpuMemory nodeRes podRes = false ->
   MilliCpu podRes <= MilliCpuLeft nodeRes ->
     fragOf nodeRes podRes = Q2LackGpu) /\
  (MilliGpu podRes <> 0 -> IsNodeAccessibleToPod nodeRes podRes = true ->
   CanNodeHostPodOnGpuMemory nodeRes podRes = false ->
   MilliCpuLeft nodeRes < MilliCpu podRes ->
     fragOf nodeRes podRes = Q1LackBoth) /\
  (* totality *)
  fragOf nodeRes podRes ∈ fragCategories /\
  NoDup fragCategories /\ length fragCategories = 7%nat.
Proof.
  unfold GetNodePodFrag.
  destruct (Z.eqb_spec (MilliGpu podRes) 0) as [Hg | Hg];
    destruct (Z.geb_spec (MilliCpuLeft nodeRes) (MilliCpu podRes)) as [Hc | Hc];
    destruct (IsNodeAccessibleToPod nodeRes podRes);
    destruct (CanNodeHostPodOnGpuMemory nodeRes podRes); simpl;
    repeat split; intros; try reflexivity; try lia; try congruence;
    try apply fragCategories_NoDup;
    unfold fragCategories; set_solver.
Qed.

End FragCategory.

(** ** [CanNodeHostPodOnGpuMemory] *)

Lemma gpusAtLeast_nil milliGpu : gpusAtLeast milliGpu [] = 0.
Proof. reflexivity. Qed.

Lemma gpusAtLeast_cons milliGpu g l :
  gpusAtLeast milliGpu (g :: l) =
  (if Z_le_dec milliGpu g then 1 else 0) + gpusAtLeast milliGpu l.
Proof.
  unfold gpusAtLeast. rewrite filter_cons.
  destruct (Z_le_dec milliGpu g); case_decide; try lia; simpl; lia.
Qed.

Lemma gpusAtLeast_nonneg milliGpu l : 0 <= gpusAtLeast milliGpu l.
Proof. unfold gpusAtLeast. lia. Qed.

(** The counter loop succeeds exactly when enough GPUs qualify, where a
    request below one still waits for the first qualifying GPU. *)
Lemma canHostLoop_spec milliGpu l : forall gpuRequest,
  int64_min < gpuRequest <= int64_max ->
  canHostLoop gpuRequest milliGpu l = true <->
  Z.max 1 gpuRequest <= gpusAtLeast milliGpu l.
Proof.
  induction l as [|g l IH]; intros r Hr.
  - simpl. rewrite gpusAtLeast_nil. split; [discriminate | lia].
  - simpl. rewrite gpusAtLeast_cons.
    pose proof (gpusAtLeast_nonneg milliGpu l) as Hn.
    destruct (Z.geb_spec g milliGpu) as [Hge | Hlt].
    + rewrite wrap64_id by (unfold in_int64, int64_min, int64_max in *; lia).
      destruct (Z_le_dec milliGpu g); [|lia].
      destruct (Z.leb_spec (r - 1) 0) as [Hle | Hgt].
      * split; [intros _; lia | reflexivity].
      * rewrite IH by (unfold int64_min, int64_max in *; lia). lia.
    + destruct (Z_le_dec milliGpu g); [lia|].
      rewrite IH by exact Hr. lia.
Qed.

(** C5 (as stated, refuted): a CPU-only pod ([gpuNumber = 0]) on a node
    without GPUs meets "at least [gpuNumber] entries are [>= milliGpu]"
    vacuously, yet [CanNodeHostPodOnGpuMemory] answers [false]: the loop
    returns [true] only from inside an iteration over a qualifying GPU. *)
Lemma CanNodeHostPodOnGpuMemory_zero_request_counterexample :
  ~ (CanNodeHostPodOnGpuMemory
       (mkNodeResource "cpu-node" 4000 [] "")
       (mkPodResource 1000 0 0 "") = true
     <-> GpuNumber (mkPodResource 1000 0 0 "")
         <= gpusAtLeast (MilliGpu (mkPodResource 1000 0 0 ""))
                        (MilliGpuLeftList (mkNodeResource "cpu-node" 4000 [] ""))).
Proof.
  intros [_ H]. simpl in H. rewrite gpusAtLeast_nil in H.
  specialize (H ltac:(lia)). discriminate H.
Qed.

(** C5 (amended): [CanNodeHostPodOnGpuMemory] returns [true] iff at least
    [max 1 pod.gpuNumber] entries of the node's [milliGpuLeftList] are
    greater than or equal to [pod.milliGpu]; in particular for
    [pod.gpuNumber >= 1] iff at least [pod.gpuNumber] entries are, and for
    [pod.gpuNumber = 0] iff some entry is. *)
Theorem CanNodeHostPodOnGpuMemory_iff (nodeRes : NodeResource) (podRes : PodResource) :
  int64_min < GpuNumber podRes <= int64_max ->
  CanNodeHostPodOnGpuMemory nodeRes podRes = true <->
  Z.max 1 (GpuNumber podRes)
    <= gpusAtLeast (MilliGpu podRes) (MilliGpuLeftList nodeRes).
Proof. intros H. unfold CanNodeHostPodOnGpuMemory. apply canHostLoop_spec, H. Qed.

Lemma CanNodeHostPodOnGpuMemory_iff_witness :
  int64_min < GpuNumber (mkPodResource 1000 500 1 "") <= int64_max /\
  (CanNodeHostPodOnGpuMemory (mkNodeResource "n" 4000 [300; 1000] "V100")
                             (mkPodResource 1000 500 1 "") = true <->
   Z.max 1 (GpuNumber (mkPodResource 1000 500 1 ""))
     <= gpusAtLeast (MilliGpu (mkPodResource 1000 500 1 ""))
                    (MilliGpuLeftList (mkNodeResource "n" 4000 [300; 1000] "V100"))).
Proof.
  split.
  - simpl. unfold int64_min, int64_max. lia.
  - apply (CanNodeHostPodOnGpuMemory_iff (mkNodeResource "n" 4000 [300; 1000] "V100")
                                         (mkPodResource 1000 500 1 "")).
    simpl. unfold int64_min, int64_max. lia.
Defined.

(** ** [float64]: the sign facts the accumulators rely on *)

(** Not below zero under [<]: every value but the negative finite numbers and
    negative infinity (NaN and both zeros included). *)
Definition SFnotneg (x : spec_float) : Prop :=
  match x with
  | S754_infinity true | S754_finite true _ _ => False
  | _ => True
  end.

(** Carries no negative sign. *)
Definition SFplus (x : spec_float) : Prop :=
  match x with
  | S754_zero s | S754_infinity s | S754_finite s _ _ => s = false
  | S754_nan => True
  end.

Lemma SFplus_notneg x : SFplus x -> SFnotneg x.
Proof. destruct x as [s|s| |s m e]; simpl; intros H; subst; exact I. Qed.

Lemma ltb_zero_false (x : float) :
  (x <? 0)%float = false <-> SFnotneg (Prim2SF x).
Proof.
  rewrite ltb_spec. change (Prim2SF 0%float) with (S754_zero false).
  unfold SFltb. destruct (Prim2SF x) as [s|[|]| |[|] m e]; simpl;
    split; intros H; try exact I; try reflexivity; try discriminate; try contradiction.
Qed.

Lemma binary_round_aux_plus m e l :
  SFplus (binary_round_aux prec emax false m e l).
Proof.
  unfold binary_round_aux.
  destruct (shr_fexp prec emax m e l) as [mrs' e'].
  destruct (shr_fexp prec emax _ e' loc_Exact) as [mrs'' e''].
  destruct (shr_m mrs''); simpl; try reflexivity.
  destruct (e'' <=? emax - prec)%Z; reflexivity.
Qed.

Lemma binary_normalize_plus (z e : Z) :
  0 <= z -> SFplus (binary_normalize prec emax z e false).
Proof.
  intros Hz. destruct z as [|p|p]; simpl; [reflexivity | | lia].
  unfold binary_round.
  destruct (shl_align p e _) as [mz ez]. apply binary_round_aux_plus.
Qed.

Lemma float64_of_int64_plus (z : Z) :
  0 <= z -> SFplus (Prim2SF (float64_of_int64 z)).
Proof.
  intros Hz. unfold float64_of_int64.
  destruct (Z.ltb_spec z 0) as [H | _]; [lia|].
  rewrite of_uint63_spec. apply binary_normalize_plus.
  apply Uint63.to_Z_bounded.
Qed.

Lemma SFmul_notneg x y :
  SFnotneg x -> SFplus y -> SFnotneg (SFmul prec emax x y).
Proof.
  destruct x as [sx|[|]| |[|] mx ex]; destruct y as [sy|sy| |sy my ey];
    simpl; intros Hx Hy; subst; try exact I; try contradiction.
  apply SFplus_notneg, binary_round_aux_plus.
Qed.

(** A frequency that passed the [freq < 0] guard, scaled by a non-negative
    number of GPU millis, passes the [amount < 0] guard of [AddByFragType]. *)
Lemma scaled_amount_not_negative (freq : float) (z : Z) :
  (freq <? 0)%float = false -> 0 <= z ->
  (freq * float64_of_int64 z <? 0)%float = false.
Proof.
  intros Hf Hz. apply ltb_zero_false. rewrite mul_spec.
  apply SFmul_notneg; [apply ltb_zero_false, Hf | apply float64_of_int64_plus, Hz].
Qed.

(** Comparison of binary64 values is antisymmetric. *)
Lemma SFcompare_antisym x y :
  SFcompare y x = option_map CompOpp (SFcompare x y).
Proof.
  destruct x as [sx|sx| |sx mx ex]; destruct y as [sy|sy| |sy my ey]; simpl;
    try reflexivity;
    try (destruct sx; reflexivity); try (destruct sy; reflexivity);
    try (destruct sx, sy; reflexivity).
  f_equal. destruct sx, sy; try reflexivity.
  - rewrite (Z.compare_antisym ey ex).
    destruct (ey ?= ex) eqn:E; simpl; try reflexivity.
    rewrite CompOpp_involutive.
    rewrite Pos.compare_cont_antisym. reflexivity.
  - rewrite (Z.compare_antisym ey ex).
    destruct (ey ?= ex) eqn:E; simpl; try reflexivity.
    rewrite Pos.compare_cont_antisym. reflexivity.
Qed.

Lemma leb_ltb_swap (x y : float) :
  (x <=? y)%float = true -> (y <? x)%float = false.
Proof.
  rewrite leb_spec, ltb_spec. unfold SFleb, SFltb.
  rewrite (SFcompare_antisym (Prim2SF x) (Prim2SF y)).
  destruct (SFcompare (Prim2SF x) (Prim2SF y)) as [[| |]|]; simpl;
    intros H; try reflexivity; discriminate.
Qed.

(** A frequency in [[0,1]] passes the guard [freq < 0 || freq > 1]. *)
Lemma freq_guard_passes (freq : float) :
  (0 <=? freq)%float = true -> (freq <=? 1)%float = true ->
  ((freq <? 0) || (1 <? freq))%float = false.
Proof.
  intros H0 H1. rewrite (leb_ltb_swap _ _ H0), (leb_ltb_swap _ _ H1). reflexivity.
Qed.

(** *** Order facts for the values a running maximum takes

    [calculatePodShare] keeps a maximum that starts at [+0] and is only ever
    replaced by something strictly greater: it is [+0] or strictly
    positive. *)

Definition SFgood (x : spec_float) : Prop :=
  x = S754_zero false \/ SFltb (S754_zero false) x = true.

Lemma SFltb_asym x y : SFltb x y = true -> SFltb y x = false.
Proof.
  unfold SFltb. rewrite (SFcompare_antisym x y).
  destruct (SFcompare x y) as [[| |]|]; simpl; intros H; try discriminate; reflexivity.
Qed.

Ltac float_order_cases :=
  repeat match goal with
  | |- context [Pos.compare_cont Eq ?m ?n] =>
      change (Pos.compare_cont Eq m n) with (Pos.compare m n);
      destruct (Pos.compare_spec m n)
  | H : context [Pos.compare_cont Eq ?m ?n] |- _ =>
      change (Pos.compare_cont Eq m n) with (Pos.compare m n) in H;
      destruct (Pos.compare_spec m n)
  | |- context [Z.compare ?e ?f] => destruct (Z.compare_spec e f)
  | H : context [Z.compare ?e ?f] |- _ => destruct (Z.compare_spec e f)
  end.

Lemma SFltb_pos_trans r x y :
  SFgood r -> SFltb r x = true -> SFltb x y = true -> SFltb r y = true.
Proof.
  unfold SFgood, SFltb. intros [-> | Hr] Hrx Hxy.
  - destruct x as [sx|[|]| |[|] mx ex]; simpl in Hrx; try discriminate;
      destruct y as [sy|[|]| |[|] my ey]; simpl in Hxy |- *; try discriminate;
      try reflexivity; float_order_cases; discriminate.
  - destruct r as [sr|[|]| |[|] mr er]; simpl in Hr; try discriminate;
      destruct x as [sx|[|]| |[|] mx ex]; simpl in Hrx; try discriminate;
      destruct y as [sy|[|]| |[|] my ey]; simpl in Hxy |- *; try discriminate;
      try reflexivity;
      float_order_cases; try discriminate; try reflexivity; subst; lia.
Qed.

Lemma SFpos_step r x :
  SFgood r -> SFltb r x = true -> SFltb (S754_zero false) x = true.
Proof.
  intros Hr Hrx. destruct Hr as [-> | Hr]; [exact Hrx|].
  apply (SFltb_pos_trans (S754_zero false) r x); [left; reflexivity | exact Hr | exact Hrx].
Qed.

Lemma SFgood_step r x : SFgood r -> SFltb r x = true -> SFgood x.
Proof. intros Hr Hrx. right. exact (SFpos_step r x Hr Hrx). Qed.


(** The update [if res < share { res = share }] of a running maximum. *)
Definition fmaxStep (res share : float) : float :=
  if (res <? share)%float then share else res.

Definition goodMax (res : float) : Prop := SFgood (Prim2SF res).

Lemma goodMax_zero : goodMax 0%float.
Proof. left. reflexivity. Qed.

Lemma fmaxStep_good res share : goodMax res -> goodMax (fmaxStep res share).
Proof.
  unfold goodMax, fmaxStep. intros Hr.
  destruct (res <? share)%float eqn:E; [|exact Hr].
  rewrite ltb_spec in E. exact (SFgood_step _ _ Hr E).
Qed.


(** ** Integer sums without overflow *)

Lemma sumZ_nonneg l : Forall (fun g => 0 <= g) l -> 0 <= sumZ l.
Proof. induction 1; simpl; lia. Qed.

Lemma sumZ_filter_le (P : Z -> Prop) `{!forall g, Decision (P g)} l :
  Forall (fun g => 0 <= g) l -> 0 <= sumZ (filter P l) <= sumZ l.
Proof.
  induction 1 as [|g l Hg Hl IH]; simpl; [lia|].
  rewrite filter_cons. case_decide; simpl; lia.
Qed.

Lemma GetGpuMilliLeftTotalFrom_sum l : forall acc,
  Forall (fun g => 0 <= g) l -> 0 <= acc -> acc + sumZ l <= int64_max ->
  GetGpuMilliLeftTotalFrom acc l = acc + sumZ l.
Proof.
  induction l as [|g l IH]; intros acc Hl Hacc Hmax; simpl in *; [lia|].
  inversion Hl as [|? ? Hg Hl']; subst.
  pose proof (sumZ_nonneg l Hl').
  rewrite wrap64_id by (unfold in_int64, int64_min, int64_max in *; lia).
  rewrite IH by (auto; lia). lia.
Qed.

Lemma GetGpuFragMilliFrom_sum milliGpu l : forall acc,
  Forall (fun g => 0 <= g) l -> 0 <= acc -> acc + sumZ l <= int64_max ->
  GetGpuFragMilliFrom milliGpu acc l = acc + sumZ (filter (fun g => g < milliGpu) l).
Proof.
  induction l as [|g l IH]; intros acc Hl Hacc Hmax; simpl in *; [lia|].
  inversion Hl as [|? ? Hg Hl']; subst.
  pose proof (sumZ_nonneg l Hl').
  rewrite filter_cons.
  destruct (Z.ltb_spec g milliGpu); case_decide; try lia.
  - rewrite wrap64_id by (unfold in_int64, int64_min, int64_max in *; lia).
    rewrite IH by (auto; lia). simpl. lia.
  - rewrite IH by (auto; lia). lia.
Qed.

Lemma GetGpuMilliLeftTotal_valid nodeRes :
  validNode nodeRes -> GetGpuMilliLeftTotal nodeRes = gpuMilliLeftSum nodeRes.
Proof.
  intros [Hl Hmax]. unfold GetGpuMilliLeftTotal, gpuMilliLeftSum in *.
  rewrite GetGpuMilliLeftTotalFrom_sum; auto; lia.
Qed.

Lemma GetGpuFragMilli_valid nodeRes podRes :
  validNode nodeRes ->
  GetGpuFragMilliByNodeResAndPodRes nodeRes podRes = gpuMilliFragmentSum nodeRes podRes.
Proof.
  intros [Hl Hmax].
  unfold GetGpuFragMilliByNodeResAndPodRes, gpuMilliFragmentSum, gpuMilliLeftSum in *.
  rewrite GetGpuFragMilliFrom_sum; auto; lia.
Qed.

Lemma gpuMilli_bounds nodeRes podRes :
  validNode nodeRes ->
  0 <= gpuMilliFragmentSum nodeRes podRes <= gpuMilliLeftSum nodeRes /\
  gpuMilliLeftSum nodeRes <= int64_max.
Proof.
  intros [Hl Hmax]. split; [|exact Hmax].
  unfold gpuMilliFragmentSum, gpuMilliLeftSum. apply sumZ_filter_le, Hl.
Qed.

(** ** [NodeGpuShareFragAmount] *)

Lemma FragRatioDataMap_index_lt fragType idx :
  FragRatioDataMap !! fragType = Some idx -> (idx < 7)%nat.
Proof.
  intros H. apply elem_of_list_to_map_2 in H.
  repeat (apply elem_of_cons in H as [H | H]; [inversion H; lia|]).
  apply elem_of_nil in H. contradiction.
Qed.

Lemma FragRatioDataMap_category cat :
  cat ∈ fragCategories -> exists idx, FragRatioDataMap !! cat = Some idx.
Proof.
  intros H. unfold fragCategories in H.
  repeat (apply elem_of_cons in H as [-> | H]; [eexists; vm_compute; reflexivity|]).
  apply elem_of_nil in H. contradiction.
Qed.

Lemma FragRatioDataMap_Q2 : FragRatioDataMap !! Q2LackGpu = Some 1%nat.
Proof. vm_compute. reflexivity. Qed.

Lemma FragRatioDataMap_Q3 : FragRatioDataMap !! Q3Satisfied = Some 2%nat.
Proof. vm_compute. reflexivity. Qed.

(** An accepted amount is added to the entry of its category and to no
    other entry. *)
Lemma AddByFragType_adds Data fragType idx amount :
  length Data = 7%nat ->
  (amount <? 0)%float = false ->
  FragRatioDataMap !! fragType = Some idx ->
  exists Data',
    AddByFragType Data fragType amount = Some (Data', None) /\
    length Data' = 7%nat /\
    entryIncreasedBy Data Data' idx amount /\
    (forall i, i <> idx -> Data' !! i = Data !! i).
Proof.
  intros Hlen Hamt Hidx. unfold AddByFragType. rewrite Hamt, Hidx.
  pose proof (FragRatioDataMap_index_lt _ _ Hidx) as Hlt.
  destruct (lookup_lt_is_Some_2 Data idx ltac:(lia)) as [v Hv]. rewrite Hv.
  eexists. split; [reflexivity|]. split; [rewrite length_insert; exact Hlen|].
  split.
  - exists v. split; [exact Hv|]. apply list_lookup_insert_eq. lia.
  - intros i Hi. apply list_lookup_insert_ne. congruence.
Qed.

(** Whatever it is given, [AddByFragType] does not run past a vector of seven
    entries. *)
Lemma AddByFragType_total Data fragType amount :
  length Data = 7%nat ->
  exists Data' e, AddByFragType Data fragType amount = Some (Data', e) /\
                  length Data' = 7%nat.
Proof.
  intros Hlen. unfold AddByFragType.
  destruct (amount <? 0)%float; [eauto|].
  destruct (FragRatioDataMap !! fragType) as [idx|] eqn:Hidx; [|eauto].
  pose proof (FragRatioDataMap_index_lt _ _ Hidx) as Hlt.
  destruct (lookup_lt_is_Some_2 Data idx ltac:(lia)) as [v Hv]. rewrite Hv.
  do 2 eexists. split; [reflexivity|]. rewrite length_insert. exact Hlen.
Qed.

Section FragAmountProps.

Variable IsNodeAccessibleToPod : NodeResource -> PodResource -> bool.

Local Abbreviation fragOf := (GetNodePodFrag IsNodeAccessibleToPod).
Local Abbreviation stepOf := (fragAmountStep IsNodeAccessibleToPod).
Local Abbreviation amountOf := (NodeGpuShareFragAmount IsNodeAccessibleToPod).

Lemma GetNodePodFrag_category nodeRes podRes :
  fragOf nodeRes podRes ∈ fragCategories.
Proof. apply (GetNodePodFrag_decision_tree IsNodeAccessibleToPod nodeRes podRes). Qed.

Lemma fragAmountStep_total nodeRes Data pod :
  length Data = 7%nat ->
  exists Data', stepOf nodeRes Data pod = Some Data' /\ length Data' = 7%nat.
Proof.
  intros Hlen. unfold fragAmountStep.
  destruct (_ || _)%float; [eauto|].
  case_decide.
  - destruct (AddByFragType_total Data Q2LackGpu
                (Percentage pod * float64_of_int64
                   (GetGpuFragMilliByNodeResAndPodRes nodeRes (TargetPodResource pod))) Hlen)
      as (D1 & e1 & -> & Hlen1).
    destruct (AddByFragType_total D1 Q3Satisfied
                (Percentage pod * float64_of_int64
                   (wrap64 (GetGpuMilliLeftTotal nodeRes
                            - GetGpuFragMilliByNodeResAndPodRes nodeRes (TargetPodResource pod))))
                Hlen1)
      as (D2 & e2 & -> & Hlen2).
    eauto.
  - destruct (AddByFragType_total Data (fragOf nodeRes (TargetPodResource pod))
                (Percentage pod * float64_of_int64 (GetGpuMilliLeftTotal nodeRes)) Hlen)
      as (D1 & e1 & -> & Hlen1).
    eauto.
Qed.

Lemma fragAmount_fold_total nodeRes typicalPods : forall Data,
  length Data = 7%nat ->
  exists Data',
    foldl (fun acc pod => match acc with
                          | None => None
                          | Some D => stepOf nodeRes D pod
                          end) (Some Data) typicalPods = Some Data' /\
    length Data' = 7%nat.
Proof.
  induction typicalPods as [|pod pods IH]; intros Data Hlen; simpl; [eauto|].
  destruct (fragAmountStep_total nodeRes Data pod Hlen) as (D1 & -> & Hlen1).
  apply IH, Hlen1.
Qed.

(** What one typical pod with an admissible frequency adds. *)
Lemma fragAmountStep_accumulates nodeRes Data pod :
  validNode nodeRes ->
  (0 <=? Percentage pod)%float = true -> (Percentage pod <=? 1)%float = true ->
  length Data = 7%nat ->
  exists Data',
    stepOf nodeRes Data pod = Some Data' /\ length Data' = 7%nat /\
    (fragOf nodeRes (TargetPodResource pod) = Q3Satisfied ->
       entryIncreasedBy Data Data' 1
         (Percentage pod
          * float64_of_int64 (gpuMilliFragmentSum nodeRes (TargetPodResource pod))) /\
       entryIncreasedBy Data Data' 2
         (Percentage pod
          * float64_of_int64 (gpuMilliLeftSum nodeRes
                              - gpuMilliFragmentSum nodeRes (TargetPodResource pod))) /\
       (forall i, i <> 1%nat -> i <> 2%nat -> Data' !! i = Data !! i)) /\
    (fragOf nodeRes (TargetPodResource pod) <> Q3Satisfied ->
       exists idx,
         FragRatioDataMap !! fragOf nodeRes (TargetPodResource pod) = Some idx /\
         entryIncreasedBy Data Data' idx
           (Percentage pod * float64_of_int64 (gpuMilliLeftSum nodeRes)) /\
         (forall i, i <> idx -> Data' !! i = Data !! i)).
Proof.
  intros Hvalid H0 H1 Hlen.
  pose proof (gpuMilli_bounds nodeRes (TargetPodResource pod) Hvalid) as [[Hf0 Hfle] Hmax].
  pose proof (leb_ltb_swap _ _ H0) as Hneg.
  assert (Hrest : 0 <= gpuMilliLeftSum nodeRes
                       - gpuMilliFragmentSum nodeRes (TargetPodResource pod)) by lia.
  unfold fragAmountStep. rewrite (freq_guard_passes _ H0 H1).
  rewrite (GetGpuMilliLeftTotal_valid _ Hvalid), (GetGpuFragMilli_valid _ _ Hvalid).
  rewrite wrap64_id by (unfold in_int64, int64_min, int64_max in *; lia).
  case_decide as Hcat.
  - destruct (AddByFragType_adds Data Q2LackGpu 1 _ Hlen
                (scaled_amount_not_negative _ _ Hneg Hf0) FragRatioDataMap_Q2)
      as (D1 & -> & Hlen1 & (v1 & Hv1 & Hv1') & Hother1).
    destruct (AddByFragType_adds D1 Q3Satisfied 2
                (Percentage pod * float64_of_int64
                   (gpuMilliLeftSum nodeRes
                    - gpuMilliFragmentSum nodeRes (TargetPodResource pod)))
                Hlen1
                (scaled_amount_not_negative _ _ Hneg Hrest) FragRatioDataMap_Q3)
      as (D2 & -> & Hlen2 & (v2 & Hv2 & Hv2') & Hother2).
    exists D2. split; [reflexivity|]. split; [exact Hlen2|]. split; [|congruence].
    intros _. split; [|split].
    + exists v1. split; [exact Hv1|]. rewrite Hother2 by lia. exact Hv1'.
    + exists v2. split; [|exact Hv2']. rewrite <- Hother1 by lia. exact Hv2.
    + intros i Hi1 Hi2. rewrite Hother2, Hother1 by assumption. reflexivity.
  - destruct (FragRatioDataMap_category _
                (GetNodePodFrag_category nodeRes (TargetPodResource pod))) as [idx Hidx].
    destruct (AddByFragType_adds Data _ idx _ Hlen
                (scaled_amount_not_negative _ _ Hneg (Z.le_trans _ _ _ Hf0 Hfle)) Hidx)
      as (D1 & -> & Hlen1 & Hinc & Hother1).
    exists D1. split; [reflexivity|]. split; [exact Hlen1|]. split; [congruence|].
    intros _. exists idx. auto.
Qed.

(** C2: on a node that satisfies the resource-model invariant,
    [NodeGpuShareFragAmount] starts from the vector of seven zeros (its
    result on the empty list), and the typical pod processed last, when its
    percentage [f] lies in [[0,1]], changes the vector computed for the pods
    before it as follows.  In category [Q3Satisfied] the [Q2LackGpu] entry
    grows by [f] times the sum of the per-GPU remaining millis below
    [pod.milliGpu] and the [Q3Satisfied] entry by [f] times the rest of the
    remaining millis; in any other category the entry of that category grows
    by [f] times all remaining millis.  All other entries keep their value.
    The two parts fix the result on every list of such pods. *)
Theorem NodeGpuShareFragAmount_accumulates (nodeRes : NodeResource)
    (typicalPods : TargetPodList) (pod : TargetPod) :
  validNode nodeRes ->
  (0 <=? Percentage pod)%float = true -> (Percentage pod <=? 1)%float = true ->
  amountOf nodeRes [] = Some (mkFragAmount (NodeName nodeRes) [0; 0; 0; 0; 0; 0; 0]%float) /\
  exists before after q2 q3,
    amountOf nodeRes typicalPods = Some (mkFragAmount (NodeName nodeRes) before) /\
    amountOf nodeRes (typicalPods ++ [pod])
      = Some (mkFragAmount (NodeName nodeRes) after) /\
    length before = size FragRatioDataMap /\ length after = size FragRatioDataMap /\
    FragRatioDataMap !! Q2LackGpu = Some q2 /\
    FragRatioDataMap !! Q3Satisfied = Some q3 /\
    (fragOf nodeRes (TargetPodResource pod) = Q3Satisfied ->
       entryIncreasedBy before after q2
         (Percentage pod
          * float64_of_int64 (gpuMilliFragmentSum nodeRes (TargetPodResource pod))) /\
       entryIncreasedBy before after q3
         (Percentage pod
          * float64_of_int64 (gpuMilliLeftSum nodeRes
                              - gpuMilliFragmentSum nodeRes (TargetPodResource pod))) /\
       (forall i, i <> q2 -> i <> q3 -> after !! i = before !! i)) /\
    (fragOf nodeRes (TargetPodResource pod) <> Q3Satisfied ->
       exists idx,
         FragRatioDataMap !! fragOf nodeRes (TargetPodResource pod) = Some idx /\
         entryIncreasedBy before after idx
           (Percentage pod * float64_of_int64 (gpuMilliLeftSum nodeRes)) /\
         (forall i, i <> idx -> after !! i = before !! i)).
Proof.
  intros Hvalid H0 H1.
  split; [reflexivity|].
  assert (Hz : length zeroData = 7%nat) by (vm_compute; reflexivity).
  destruct (fragAmount_fold_total nodeRes typicalPods zeroData Hz) as (before & Hb & Hlenb).
  destruct (fragAmountStep_accumulates nodeRes before pod Hvalid H0 H1 Hlenb)
    as (after & Ha & Hlena & HQ3 & Hother).
  exists before, after, 1%nat, 2%nat.
  unfold NodeGpuShareFragAmount. rewrite foldl_snoc, Hb, Ha.
  rewrite FragRatioDataMap_size.
  repeat split; auto using FragRatioDataMap_Q2, FragRatioDataMap_Q3; apply HQ3; assumption.
Qed.

End FragAmountProps.

Lemma NodeGpuShareFragAmount_accumulates_witness :
  validNode Examples.twoGpuNode /\
  (0 <=? Percentage Examples.halfGpuPod)%float = true /\
  (Percentage Examples.halfGpuPod <=? 1)%float = true /\
  NodeGpuShareFragAmount SpecModel.IsNodeAccessibleToPod Examples.twoGpuNode []
    = Some (mkFragAmount (NodeName Examples.twoGpuNode) [0; 0; 0; 0; 0; 0; 0]%float) /\
  exists before after q2 q3,
    NodeGpuShareFragAmount SpecModel.IsNodeAccessibleToPod Examples.twoGpuNode []
      = Some (mkFragAmount (NodeName Examples.twoGpuNode) before) /\
    NodeGpuShareFragAmount SpecModel.IsNodeAccessibleToPod Examples.twoGpuNode
        ([] ++ [Examples.halfGpuPod])
      = Some (mkFragAmount (NodeName Examples.twoGpuNode) after) /\
    length before = size FragRatioDataMap /\ length after = size FragRatioDataMap /\
    FragRatioDataMap !! Q2LackGpu = Some q2 /\
    FragRatioDataMap !! Q3Satisfied = Some q3 /\
    (GetNodePodFrag SpecModel.IsNodeAccessibleToPod Examples.twoGpuNode
       (TargetPodResource Examples.halfGpuPod) = Q3Satisfied ->
       entryIncreasedBy before after q2
         (Percentage Examples.halfGpuPod
          * float64_of_int64 (gpuMilliFragmentSum Examples.twoGpuNode
                                (TargetPodResource Examples.halfGpuPod))) /\
       entryIncreasedBy before after q3
         (Percentage Examples.halfGpuPod
          * float64_of_int64 (gpuMilliLeftSum Examples.twoGpuNode
                              - gpuMilliFragmentSum Examples.twoGpuNode
                                  (TargetPodResource Examples.halfGpuPod))) /\
       (forall i, i <> q2 -> i <> q3 -> after !! i = before !! i)) /\
    (GetNodePodFrag SpecModel.IsNodeAccessibleToPod Examples.twoGpuNode
       (TargetPodResource Examples.halfGpuPod) <> Q3Satisfied ->
       exists idx,
         FragRatioDataMap !! GetNodePodFrag SpecModel.IsNodeAccessibleToPod
                               Examples.twoGpuNode
                               (TargetPodResource Examples.halfGpuPod) = Some idx /\
         entryIncreasedBy before after idx
           (Percentage Examples.halfGpuPod
            * float64_of_int64 (gpuMilliLeftSum Examples.twoGpuNode)) /\
         (forall i, i <> idx -> after !! i = before !! i)).
Proof.
  assert (Hvalid : validNode Examples.twoGpuNode).
  { split; [repeat constructor; lia | vm_compute; discriminate]. }
  split; [exact Hvalid|]. split; [reflexivity|]. split; [reflexivity|].
  exact (NodeGpuShareFragAmount_accumulates SpecModel.IsNodeAccessibleToPod
           Examples.twoGpuNode [] Examples.halfGpuPod Hvalid eq_refl eq_refl).
Defined.

(** ** [NodeGpuFragBellman] *)

Section BellmanProps.

Variable IsNodeAccessibleToPod : NodeResource -> PodResource -> bool.
Variable Flatten : NodeResource -> string -> string.
Variable Sub : NodeResource -> PodResource -> NodeResource * error.

Local Abbreviation bellman := (NodeGpuFragBellman IsNodeAccessibleToPod Flatten Sub).
Local Abbreviation ratioOf := (NodeGpuFragRatio IsNodeAccessibleToPod).

(** A hit in the memoization table is returned as it is. *)
Lemma NodeGpuFragBellman_hit fuel nodeRes typicalPods dp cumProb frag :
  dpLoadFloat64 dp (Flatten nodeRes "bellman") = Some frag ->
  bellman (S fuel) nodeRes typicalPods dp cumProb = Some (frag, dp).
Proof. intros H. simpl. rewrite H. reflexivity. Qed.

(** With nothing left, or with too little probability mass, the answer is 0
    and the table is left alone. *)
Lemma NodeGpuFragBellman_low_mass fuel nodeRes typicalPods dp cumProb :
  dpLoadFloat64 dp (Flatten nodeRes "bellman") = None ->
  (float64_of_int64 (GetGpuMilliLeftTotal nodeRes) * cumProb <? 1)%float = true ->
  bellman (S fuel) nodeRes typicalPods dp cumProb = Some (0%float, dp).
Proof.
  intros Hmiss Hlow. simpl. rewrite Hmiss, Hlow.
  destruct (_ =? 0)%float; reflexivity.
Qed.

(** A product with a zero is a zero or NaN, never [>= 1]. *)
Lemma mul_zero_not_ge_one (x y : float) :
  (x =? 0)%float = true -> (1 <=? x * y)%float = false.
Proof.
  rewrite FloatAxioms.eqb_spec, leb_spec, mul_spec.
  change (Prim2SF 0%float) with (S754_zero false).
  change (Prim2SF 1%float) with (S754_finite false 4503599627370496 (-52)).
  unfold SFeqb, SFleb.
  destruct (Prim2SF x) as [s|s| |s m e]; simpl;
    try (destruct s; discriminate); try discriminate.
  intros _. destruct (Prim2SF y) as [t|t| |t n f]; reflexivity.
Qed.

Lemma NodeGpuFragBellman_full_frag fuel nodeRes typicalPods dp cumProb
    fragRatio fragRatioValue :
  dpLoadFloat64 dp (Flatten nodeRes "bellman") = None ->
  (1 <=? float64_of_int64 (GetGpuMilliLeftTotal nodeRes) * cumProb)%float = true ->
  ratioOf nodeRes typicalPods = Some fragRatio ->
  FragRatioSumExceptQ3 fragRatio = Some fragRatioValue ->
  (delta <=? fragRatioValue)%float = true ->
  bellman (S fuel) nodeRes typicalPods dp cumProb
  = Some (float64_of_int64 (GetGpuMilliLeftTotal nodeRes),
          <[Flatten nodeRes "bellman" :=
              DpFloat64 (float64_of_int64 (GetGpuMilliLeftTotal nodeRes))]> dp).
Proof.
  intros Hmiss Hmass Hratio Hsum Hfull. simpl. rewrite Hmiss.
  destruct (_ =? 0)%float eqn:Hz.
  - rewrite (mul_zero_not_ge_one _ cumProb Hz) in Hmass. discriminate Hmass.
  - rewrite (leb_ltb_swap _ _ Hmass), Hratio, Hsum, (leb_ltb_swap _ _ Hfull).
    reflexivity.
Qed.


Lemma AddRatio_total Data fragType freq :
  length Data = 7%nat ->
  exists Data' e, AddRatio Data fragType freq = Some (Data', e) /\ length Data' = 7%nat.
Proof.
  intros Hlen. unfold AddRatio.
  destruct (_ || _)%float; [eauto|].
  destruct (FragRatioDataMap !! fragType) as [idx|] eqn:Hidx; [|eauto].
  pose proof (FragRatioDataMap_index_lt _ _ Hidx) as Hlt.
  destruct (lookup_lt_is_Some_2 Data idx ltac:(lia)) as [v Hv]. rewrite Hv.
  do 2 eexists. split; [reflexivity|]. rewrite length_insert. exact Hlen.
Qed.

Lemma fragRatio_fold_total nodeRes typicalPods : forall Data,
  length Data = 7%nat ->
  exists Data',
    foldl (fun acc pod => match acc with
                          | None => None
                          | Some D => fragRatioStep IsNodeAccessibleToPod nodeRes D pod
                          end) (Some Data) typicalPods = Some Data' /\
    length Data' = 7%nat.
Proof.
  induction typicalPods as [|pod pods IH]; intros Data Hlen; simpl; [eauto|].
  unfold fragRatioStep at 2.
  destruct (_ || _)%float; [apply IH, Hlen|].
  destruct (AddRatio_total Data
              (GetNodePodFrag IsNodeAccessibleToPod nodeRes (TargetPodResource pod))
              (Percentage pod) Hlen) as (D1 & e1 & -> & Hlen1).
  apply IH, Hlen1.
Qed.

Lemma FragRatioSumExceptQ3_total Data :
  length Data = 7%nat -> exists v, FragRatioSumExceptQ3 Data = Some v.
Proof.
  intros Hlen. unfold FragRatioSumExceptQ3.
  rewrite FragRatioDataMap_Q3, FragRatioDataMap_size.
  do 8 (destruct Data as [|? Data]; try discriminate Hlen).
  simpl. eauto.
Qed.

(** The fragmentation ratio of a node over the typical pods is always
    defined. *)
Lemma NodeGpuFragRatio_total nodeRes typicalPods :
  exists fragRatio fragRatioValue,
    ratioOf nodeRes typicalPods = Some fragRatio /\
    FragRatioSumExceptQ3 fragRatio = Some fragRatioValue.
Proof.
  assert (Hz : length zeroData = 7%nat) by (vm_compute; reflexivity).
  destruct (fragRatio_fold_total nodeRes typicalPods zeroData Hz) as (D & HD & Hlen).
  destruct (FragRatioSumExceptQ3_total D Hlen) as [v Hv].
  exists D, v. split; [exact HD | exact Hv].
Qed.

(** C3 (amended): when the table has no [float64] under the node's key,
    [NodeGpuFragBellman] returns 0 whenever [gpuMilliLeftTotal * cumProb < 1],
    and returns the node's total remaining GPU millis (which it also stores)
    whenever [FragRatioSumExceptQ3 >= 0.999] and
    [gpuMilliLeftTotal * cumProb >= 1].  The low-mass cut-off is tested
    first; a value found in the table is returned before either test. *)
Theorem NodeGpuFragBellman_cutoffs (fuel : nat) (nodeRes : NodeResource)
    (typicalPods : TargetPodList) (dp : gmap string dpValue) (cumProb : float) :
  dpLoadFloat64 dp (Flatten nodeRes "bellman") = None ->
  exists fragRatio fragRatioValue,
    ratioOf nodeRes typicalPods = Some fragRatio /\
    FragRatioSumExceptQ3 fragRatio = Some fragRatioValue /\
    ((delta <=? fragRatioValue)%float = true ->
     (1 <=? float64_of_int64 (GetGpuMilliLeftTotal nodeRes) * cumProb)%float = true ->
     bellman (S fuel) nodeRes typicalPods dp cumProb
     = Some (float64_of_int64 (GetGpuMilliLeftTotal nodeRes),
             <[Flatten nodeRes "bellman" :=
                 DpFloat64 (float64_of_int64 (GetGpuMilliLeftTotal nodeRes))]> dp)) /\
    ((float64_of_int64 (GetGpuMilliLeftTotal nodeRes) * cumProb <? 1)%float = true ->
     bellman (S fuel) nodeRes typicalPods dp cumProb = Some (0%float, dp)).
Proof.
  intros Hmiss.
  destruct (NodeGpuFragRatio_total nodeRes typicalPods) as (fragRatio & v & Hr & Hv).
  exists fragRatio, v. split; [exact Hr|]. split; [exact Hv|]. split.
  - intros Hfull Hmass.
    exact (NodeGpuFragBellman_full_frag fuel nodeRes typicalPods dp cumProb
             fragRatio v Hmiss Hmass Hr Hv Hfull).
  - intros Hlow. exact (NodeGpuFragBellman_low_mass fuel nodeRes typicalPods dp cumProb
                          Hmiss Hlow).
Qed.

End BellmanProps.

(** On [idleGpuNode] the CPU-only reference workload leaves every GPU milli
    fragmented (ratio 1), and with [cumProb = 2^-10] the mass
    [1000 * cumProb] is below 1: both cut-offs of the specification apply, and
    the code answers 0, not 1000. *)
Lemma NodeGpuFragBellman_both_cutoffs_example
    (IsNodeAccessibleToPod : NodeResource -> PodResource -> bool)
    (Flatten : NodeResource -> string -> string)
    (Sub : NodeResource -> PodResource -> NodeResource * error) (fuel : nat) :
  NodeGpuFragRatio IsNodeAccessibleToPod Examples.idleGpuNode Examples.cpuOnlyWorkload
    = Some [0; 0; 0; 0; 0; 1; 0]%float /\
  FragRatioSumExceptQ3 [0; 0; 0; 0; 0; 1; 0]%float = Some 1%float /\
  (delta <=? 1)%float = true /\
  float64_of_int64 (GetGpuMilliLeftTotal Examples.idleGpuNode) = 1000%float /\
  (1000 * 0x1p-10 <? 1)%float = true /\
  NodeGpuFragBellman IsNodeAccessibleToPod Flatten Sub (S fuel)
    Examples.idleGpuNode Examples.cpuOnlyWorkload ∅ 0x1p-10%float
  = Some (0%float, ∅).
Proof.
  repeat split; vm_compute; reflexivity.
Qed.

(** C3 (as stated, refuted): the two cut-offs cannot both hold "whenever"
    their condition does.  Where the ratio is at least 0.999 and
    [gpuMilliLeftTotal * cumProb < 1] at once, the code returns 0 although the
    node has 1000 GPU millis left. *)
Lemma NodeGpuFragBellman_cutoffs_as_stated_counterexample :
  ~ (forall (IsNodeAccessibleToPod : NodeResource -> PodResource -> bool)
            (Flatten : NodeResource -> string -> string)
            (Sub : NodeResource -> PodResource -> NodeResource * error)
            (nodeRes : NodeResource) (typicalPods : TargetPodList)
            (dp : gmap string dpValue) (cumProb : float)
            (fragRatio : list float) (fragRatioValue : float),
       NodeGpuFragRatio IsNodeAccessibleToPod nodeRes typicalPods = Some fragRatio ->
       FragRatioSumExceptQ3 fragRatio = Some fragRatioValue ->
       ((delta <=? fragRatioValue)%float = true ->
        exists fuel dp',
          NodeGpuFragBellman IsNodeAccessibleToPod Flatten Sub fuel
            nodeRes typicalPods dp cumProb
          = Some (float64_of_int64 (GetGpuMilliLeftTotal nodeRes), dp')) /\
       ((float64_of_int64 (GetGpuMilliLeftTotal nodeRes) * cumProb <? 1)%float = true ->
        exists fuel dp',
          NodeGpuFragBellman IsNodeAccessibleToPod Flatten Sub fuel
            nodeRes typicalPods dp cumProb
          = Some (0%float, dp'))).
Proof.
  intros H.
  destruct (NodeGpuFragBellman_both_cutoffs_example
              SpecModel.IsNodeAccessibleToPod SpecModel.Flatten SpecModel.Sub 0)
    as (Hr & Hv & Hfull & Htot & _ & _).
  destruct (H SpecModel.IsNodeAccessibleToPod SpecModel.Flatten SpecModel.Sub
              Examples.idleGpuNode Examples.cpuOnlyWorkload ∅ 0x1p-10%float
              _ _ Hr Hv) as [Hclaim _].
  destruct (Hclaim Hfull) as (fuel & dp' & Hrun).
  destruct fuel as [|fuel]; [discriminate Hrun|].
  destruct (NodeGpuFragBellman_both_cutoffs_example
              SpecModel.IsNodeAccessibleToPod SpecModel.Flatten SpecModel.Sub fuel)
    as (_ & _ & _ & _ & _ & Hcode).
  rewrite Hcode, Htot in Hrun.
  apply (f_equal (fun r => match r with
                            | Some (v, _) => Prim2SF v
                            | None => S754_nan
                            end)) in Hrun.
  vm_compute in Hrun. discriminate Hrun.
Qed.

Lemma NodeGpuFragBellman_cutoffs_witness :
  dpLoadFloat64 ∅ (SpecModel.Flatten Examples.idleGpuNode "bellman") = None /\
  exists fragRatio fragRatioValue,
    NodeGpuFragRatio SpecModel.IsNodeAccessibleToPod
      Examples.idleGpuNode Examples.cpuOnlyWorkload = Some fragRatio /\
    FragRatioSumExceptQ3 fragRatio = Some fragRatioValue /\
    ((delta <=? fragRatioValue)%float = true ->
     (1 <=? float64_of_int64 (GetGpuMilliLeftTotal Examples.idleGpuNode) * 1)%float = true ->
     NodeGpuFragBellman SpecModel.IsNodeAccessibleToPod SpecModel.Flatten SpecModel.Sub 1
       Examples.idleGpuNode Examples.cpuOnlyWorkload ∅ 1%float
     = Some (float64_of_int64 (GetGpuMilliLeftTotal Examples.idleGpuNode),
             <[SpecModel.Flatten Examples.idleGpuNode "bellman" :=
                 DpFloat64 (float64_of_int64 (GetGpuMilliLeftTotal Examples.idleGpuNode))]>
               ∅)) /\
    ((float64_of_int64 (GetGpuMilliLeftTotal Examples.idleGpuNode) * 1 <? 1)%float = true ->
     NodeGpuFragBellman SpecModel.IsNodeAccessibleToPod SpecModel.Flatten SpecModel.Sub 1
       Examples.idleGpuNode Examples.cpuOnlyWorkload ∅ 1%float
     = Some (0%float, ∅)).
Proof.
  assert (Hmiss : dpLoadFloat64 ∅ (SpecModel.Flatten Examples.idleGpuNode "bellman") = None).
  { unfold dpLoadFloat64. rewrite lookup_empty. reflexivity. }
  split; [exact Hmiss|].
  exact (NodeGpuFragBellman_cutoffs SpecModel.IsNodeAccessibleToPod SpecModel.Flatten
           SpecModel.Sub 0 Examples.idleGpuNode Examples.cpuOnlyWorkload ∅ 1%float Hmiss).
Defined.

(** ** [GetSkylinePods] *)

Section StableSort.

Context {A : Type} (less : A -> A -> bool).

Lemma insertSorted_Permutation x (l : list A) : insertSorted less x l ≡ₚ x :: l.
Proof.
  induction l as [|y l IH]; simpl; [reflexivity|].
  destruct (less x y); [reflexivity|].
  rewrite IH. apply Permutation_swap.
Qed.

Lemma SliceStable_from_Permutation (l : list A) : forall sorted,
  foldl (fun sorted x => insertSorted less x sorted) sorted l ≡ₚ sorted ++ l.
Proof.
  induction l as [|x l IH]; intros sorted; simpl.
  - rewrite app_nil_r. reflexivity.
  - rewrite IH, insertSorted_Permutation. apply Permutation_middle.
Qed.

Lemma SliceStable_Permutation (l : list A) : SliceStable less l ≡ₚ l.
Proof. unfold SliceStable. apply SliceStable_from_Permutation. Qed.

(** Sortedness for any order [le] that [less] decides in the sense below. *)
Variable le : A -> A -> Prop.
Hypothesis less_le : forall x y, less x y = true -> le x y.
Hypothesis not_less_le : forall x y, less x y = false -> le y x.

Lemma insertSorted_HdRel x y (l : list A) :
  HdRel le y l -> le y x -> HdRel le y (insertSorted less x l).
Proof.
  intros Hhd Hyx. destruct l as [|z l]; simpl; [constructor; exact Hyx|].
  destruct (less x z); constructor; [exact Hyx|].
  inversion Hhd; assumption.
Qed.

Lemma insertSorted_Sorted x (l : list A) :
  Sorted le l -> Sorted le (insertSorted less x l).
Proof.
  induction 1 as [|y l Hl IH Hhd]; simpl; [repeat constructor|].
  destruct (less x y) eqn:E.
  - constructor; [constructor; assumption|]. constructor. apply less_le, E.
  - constructor; [exact IH|]. apply insertSorted_HdRel; [exact Hhd|].
    apply not_less_le, E.
Qed.

Lemma SliceStable_Sorted (l : list A) : Sorted le (SliceStable less l).
Proof.
  unfold SliceStable.
  assert (H : forall sorted, Sorted le sorted ->
            Sorted le (foldl (fun sorted x => insertSorted less x sorted) sorted l)).
  { induction l as [|x l IH]; intros sorted Hs; simpl; [exact Hs|].
    apply IH, insertSorted_Sorted, Hs. }
  apply H. constructor.
Qed.

End StableSort.

Lemma skylineLess_cpuGpuLe x y : skylineLess x y = true -> cpuGpuLe x y.
Proof.
  unfold skylineLess, cpuGpuLe.
  destruct (Z.ltb_spec (MilliCpu x) (MilliCpu y)); [lia|].
  destruct (Z.eqb_spec (MilliCpu x) (MilliCpu y)); [|discriminate].
  destruct (Z.ltb_spec (MilliGpu x) (MilliGpu y)); [lia|discriminate].
Qed.

Lemma not_skylineLess_cpuGpuLe x y : skylineLess x y = false -> cpuGpuLe y x.
Proof.
  unfold skylineLess, cpuGpuLe.
  destruct (Z.ltb_spec (MilliCpu x) (MilliCpu y)); [discriminate|].
  destruct (Z.eqb_spec (MilliCpu x) (MilliCpu y)); [|lia].
  destruct (Z.ltb_spec (MilliGpu x) (MilliGpu y)); [discriminate|lia].
Qed.

#[local] Instance cpuGpuLe_trans : Transitive cpuGpuLe.
Proof. unfold cpuGpuLe. intros x y z. lia. Qed.

(** Later skyline entries dominate earlier ones. *)
Definition dominatedBy (a b : PodResource) : Prop := dominates b a.

#[local] Instance dominatedBy_trans : Transitive dominatedBy.
Proof. unfold dominatedBy, dominates. intros x y z. lia. Qed.

Lemma skylineSweep_accept skylinePods p rest :
  (skylinePods = [] \/
   exists top, last skylinePods = Some top /\
               MilliCpu top < MilliCpu p /\ MilliGpu p < MilliGpu top) ->
  skylineSweep skylinePods (p :: rest) = skylineSweep (skylinePods ++ [p]) rest.
Proof.
  intros [-> | (top & Htop & Hc & Hg)]; simpl; [reflexivity|].
  rewrite Htop.
  destruct (Z.gtb_spec (MilliCpu p) (MilliCpu top)); [|lia].
  destruct (Z.ltb_spec (MilliGpu p) (MilliGpu top)); [|lia].
  reflexivity.
Qed.

Lemma skylineSweep_reject skylinePods p rest :
  ~ (skylinePods = [] \/
     exists top, last skylinePods = Some top /\
                 MilliCpu top < MilliCpu p /\ MilliGpu p < MilliGpu top) ->
  skylineSweep skylinePods (p :: rest) = skylineSweep skylinePods rest.
Proof.
  intros Hno. simpl.
  destruct (last skylinePods) as [top|] eqn:Htop.
  - destruct (Z.gtb_spec (MilliCpu p) (MilliCpu top));
      destruct (Z.ltb_spec (MilliGpu p) (MilliGpu top)); simpl; try reflexivity.
    exfalso. apply Hno. right. exists top. split; [reflexivity | split; lia].
  - exfalso. apply Hno. left. apply last_None, Htop.
Qed.

Lemma skylineSweep_chain podResList : forall skylinePods,
  StronglySorted dominatedBy skylinePods ->
  StronglySorted dominatedBy (skylineSweep skylinePods podResList).
Proof.
  induction podResList as [|p rest IH]; intros sky Hsky; simpl; [exact Hsky|].
  destruct (last sky) as [top|] eqn:Htop.
  - destruct ((MilliCpu p >? MilliCpu top) && (MilliGpu p <? MilliGpu top)) eqn:E;
      [|apply IH, Hsky].
    apply andb_true_iff in E as [Hc Hg].
    apply Z.gtb_lt in Hc. apply Z.ltb_lt in Hg.
    apply IH. apply last_Some in Htop as [sky' ->].
    apply StronglySorted_app. split; [|split; [exact Hsky | repeat constructor]].
    intros x y Hx Hy. apply list_elem_of_singleton in Hy as ->.
    assert (Htp : dominatedBy top p) by (unfold dominatedBy, dominates; lia).
    apply elem_of_app in Hx as [Hx | Hx].
    + transitivity top; [|exact Htp].
      apply (StronglySorted_app_1_elem_of _ sky' [top]); [exact Hsky | exact Hx |].
      apply list_elem_of_singleton. reflexivity.
    + apply list_elem_of_singleton in Hx as ->. exact Htp.
  - apply last_None in Htop as ->. apply IH. repeat constructor.
Qed.

Lemma StronglySorted_lookup {A : Type} (R : A -> A -> Prop) (l : list A) :
  StronglySorted R l ->
  forall i j a b, (i < j)%nat -> l !! i = Some a -> l !! j = Some b -> R a b.
Proof.
  induction 1 as [|x l Hl IH Hall]; intros i j a b Hij Hi Hj.
  - rewrite lookup_nil in Hi. discriminate Hi.
  - destruct j as [|j]; [lia|]. simpl in Hj. destruct i as [|i]; simpl in Hi.
    + injection Hi as <-. rewrite Forall_forall in Hall. apply Hall.
      apply list_elem_of_lookup. eauto.
    + apply (IH i j); [lia | exact Hi | exact Hj].
Qed.

Section SkylineProps.

Variable Pod : Type.
Variable GetPodResource : Pod -> PodResource.

Local Abbreviation skylineOf := (GetSkylinePods Pod GetPodResource).

(** C6 (amended): [GetSkylinePods] sorts the requests by
    [(milliCpu ASC, milliGpu ASC)] and sweeps, appending a pod iff no pod was
    accepted yet or its [milliCpu] is strictly greater and its [milliGpu]
    strictly less than the last accepted pod's.  Consequently the skyline is a
    chain: of two pods at different positions the later one asks for
    strictly more CPU and strictly less GPU, that is, it dominates the
    earlier one under [(cpu up, gpu down)]; what no two skyline pods satisfy
    is the component-wise order (no more CPU and no more GPU). *)
Theorem GetSkylinePods_chain (allPods : list Pod) :
  (* sorted *)
  SliceStable skylineLess (map GetPodResource allPods) ≡ₚ map GetPodResource allPods /\
  Sorted cpuGpuLe (SliceStable skylineLess (map GetPodResource allPods)) /\
  skylineOf allPods
    = skylineSweep [] (SliceStable skylineLess (map GetPodResource allPods)) /\
  (* sweep *)
  (forall skylinePods p rest,
     (skylinePods = [] \/
      exists top, last skylinePods = Some top /\
                  MilliCpu top < MilliCpu p /\ MilliGpu p < MilliGpu top) ->
     skylineSweep skylinePods (p :: rest) = skylineSweep (skylinePods ++ [p]) rest) /\
  (forall skylinePods p rest,
     ~ (skylinePods = [] \/
        exists top, last skylinePods = Some top /\
                    MilliCpu top < MilliCpu p /\ MilliGpu p < MilliGpu top) ->
     skylineSweep skylinePods (p :: rest) = skylineSweep skylinePods rest) /\
  (* skyline *)
  (forall i j a b, (i < j)%nat ->
     skylineOf allPods !! i = Some a -> skylineOf allPods !! j = Some b ->
     dominates b a) /\
  (forall i j a b, i <> j ->
     skylineOf allPods !! i = Some a -> skylineOf allPods !! j = Some b ->
     ~ fitsWhenever a b).
Proof.
  assert (Hchain : forall i j a b, (i < j)%nat ->
            skylineOf allPods !! i = Some a -> skylineOf allPods !! j = Some b ->
            dominates b a).
  { apply (StronglySorted_lookup dominatedBy).
    unfold GetSkylinePods. apply skylineSweep_chain. constructor. }
  split; [apply SliceStable_Permutation|].
  split; [apply SliceStable_Sorted;
          [apply skylineLess_cpuGpuLe | apply not_skylineLess_cpuGpuLe]|].
  split; [reflexivity|].
  split; [apply skylineSweep_accept|].
  split; [apply skylineSweep_reject|].
  split; [exact Hchain|].
  intros i j a b Hij Hi Hj [Hc Hg].
  destruct (Nat.lt_total i j) as [Hlt | [Heq | Hgt]]; [| contradiction |].
  - destruct (Hchain i j a b Hlt Hi Hj). lia.
  - destruct (Hchain j i b a Hgt Hj Hi). lia.
Qed.

End SkylineProps.

(** C6 (as stated, refuted): of the two requests (1 core, half a GPU) and
    (2 cores, a fifth of a GPU) both are in the skyline, and the second
    dominates the first under [(cpu up, gpu down)]. *)
Lemma GetSkylinePods_dominance_counterexample :
  ~ (forall a b,
       a ∈ GetSkylinePods PodResource (fun p => p)
             [mkPodResource 1000 500 1 ""; mkPodResource 2000 200 1 ""] ->
       b ∈ GetSkylinePods PodResource (fun p => p)
             [mkPodResource 1000 500 1 ""; mkPodResource 2000 200 1 ""] ->
       ~ dominates a b /\ ~ dominates b a).
Proof.
  intros H.
  destruct (H (mkPodResource 2000 200 1 "") (mkPodResource 1000 500 1 "")) as [Hd _].
  - vm_compute. apply list_elem_of_further, list_elem_of_here.
  - vm_compute. apply list_elem_of_here.
  - apply Hd. unfold dominates. simpl. lia.
Qed.

(** ** [GetTypicalPods] *)

Lemma rangeForward_isRangeOrder : isRangeOrder DistillerExamples.rangeForward.
Proof. intros m. reflexivity. Qed.

Lemma rangeBackward_isRangeOrder : isRangeOrder DistillerExamples.rangeBackward.
Proof. intros m. unfold DistillerExamples.rangeBackward. apply reverse_Permutation. Qed.

(** Once every entry of the sorted list has been consumed, an outer loop
    whose condition still holds can do nothing but raise [podResNum]. *)
Lemma selectOuter_stuck (step : Z) (total expectedNumPods : float) (fuel : nat) :
  forall st,
    (sel_cumNumPods st <? expectedNumPods)%float = true ->
    sel_i st = Z.of_nat (length (sel_tgtPodList st)) ->
    selectOuter fuel step total expectedNumPods st = None.
Proof.
  induction fuel as [|fuel IH]; intros st Hcum Hi; simpl; [reflexivity|].
  rewrite Hcum, Hi, Nat2Z.id, Nat.sub_diag. simpl.
  apply IH; simpl; [exact Hcum | reflexivity].
Qed.

Section DistillerProps.

Variable DefaultTypicalPodPopularityThreshold : Z.
Variable DefaultTypicalPodIncreaseStep : Z.

Local Abbreviation typicalPodsOf rangeOver :=
  (GetTypicalPods PodResource (fun p => p)
     DefaultTypicalPodPopularityThreshold DefaultTypicalPodIncreaseStep rangeOver).

(** C10 (the code at the failing input): for a workload of one whole-GPU pod
    with [gpuResWeight = 0.36] and [podPopularityThreshold = 100] the
    weighted total is [1.3599999999999999], the expected count
    [100 * total / 100] rounds to [1.36], and the selection loop never
    exits: no amount of fuel yields a result. *)
Theorem GetTypicalPods_rounding_diverges
    (rangeOver : gmap PodResource float -> list (PodResource * float)) (fuel : nat) :
  isRangeOrder rangeOver ->
  typicalPodsOf rangeOver fuel [DistillerExamples.wholeGpuPod]
    DistillerExamples.weightedConfig = None.
Proof.
  intros Hrange. unfold GetTypicalPods.
  assert (Hcount : foldl (countPod PodResource (fun p => p) DistillerExamples.weightedConfig)
                     (∅, 0%float) [DistillerExamples.wholeGpuPod]
                   = ({[DistillerExamples.wholeGpuPod := 0x1.5c28f5c28f5c2p+0%float]},
                      0x1.5c28f5c28f5c2p+0%float)).
  { simpl. unfold countPod. simpl. rewrite lookup_empty.
    f_equal; vm_compute; reflexivity. }
  rewrite Hcount. clear Hcount.
  unfold SortTargetPodInDecreasingCount.
  pose proof (Hrange {[DistillerExamples.wholeGpuPod := 0x1.5c28f5c28f5c2p+0%float]}) as Hp.
  rewrite map_to_list_singleton in Hp.
  apply Permutation_singleton_r in Hp. rewrite Hp. clear Hp.
  destruct fuel as [|fuel]; [reflexivity|].
  cbn -[selectOuter]. cbn [selectOuter].
  rewrite selectOuter_stuck; [reflexivity | vm_compute; reflexivity | reflexivity].
Qed.

(** C4 (the code at the failing input): two pod shapes that occur equally
    often.  [SortTargetPodInDecreasingCount] ranges over a Go map, and its
    comparison cannot tell the two entries apart, so the order of the result
    is the order of the map iteration: two runs on the same workload and
    configuration return the typical pods in different orders. *)
Theorem GetTypicalPods_order_follows_map_range :
  isRangeOrder DistillerExamples.rangeForward /\
  isRangeOrder DistillerExamples.rangeBackward /\
  SortTargetPodInDecreasingCount DistillerExamples.rangeForward
    (<[DistillerExamples.halfGpuShape := 1%float]>
       {[DistillerExamples.bigShape := 1%float]})
  = Some [mkTargetPod DistillerExamples.halfGpuShape 1;
          mkTargetPod DistillerExamples.bigShape 1] /\
  SortTargetPodInDecreasingCount DistillerExamples.rangeBackward
    (<[DistillerExamples.halfGpuShape := 1%float]>
       {[DistillerExamples.bigShape := 1%float]})
  = Some [mkTargetPod DistillerExamples.bigShape 1;
          mkTargetPod DistillerExamples.halfGpuShape 1] /\
  typicalPodsOf DistillerExamples.rangeForward 3
    [DistillerExamples.halfGpuShape; DistillerExamples.bigShape]
    DistillerExamples.plainConfig
  = Some [mkTargetPod DistillerExamples.halfGpuShape 0.5;
          mkTargetPod DistillerExamples.bigShape 0.5] /\
  typicalPodsOf DistillerExamples.rangeBackward 3
    [DistillerExamples.halfGpuShape; DistillerExamples.bigShape]
    DistillerExamples.plainConfig
  = Some [mkTargetPod DistillerExamples.bigShape 0.5;
          mkTargetPod DistillerExamples.halfGpuShape 0.5].
Proof.
  split; [apply rangeForward_isRangeOrder|].
  split; [apply rangeBackward_isRangeOrder|].
  repeat split; vm_compute; reflexivity.
Qed.

End DistillerProps.

Lemma GetTypicalPods_rounding_diverges_witness :
  isRangeOrder DistillerExamples.rangeForward /\
  GetTypicalPods PodResource (fun p => p) 60 1 DistillerExamples.rangeForward 1000
    [DistillerExamples.wholeGpuPod] DistillerExamples.weightedConfig = None.
Proof.
  split; [apply rangeForward_isRangeOrder|].
  exact (GetTypicalPods_rounding_diverges 60 1 DistillerExamples.rangeForward 1000
           rangeForward_isRangeOrder).
Defined.

(** ** [FragAmount.AddGamma] *)

(** C9 (the code at the failing input): a receiver whose [Data] is empty.
    [AddGamma] returns [nil], and the sums are written to an array that only
    the callee's copy of the receiver refers to: the caller's [fa.Data] is as
    empty as before, entry 0 does not exist, and the other vector is
    untouched. *)
Theorem AddGamma_first_use_is_lost :
  exists st',
    Store.AddGamma StoreExamples.nodeStore StoreExamples.clusterAmount
      StoreExamples.nodeAmount 1
    = Some (None, st') /\
    Store.sliceElems st' (Store.Data StoreExamples.nodeAmount)
    = Some [1; 2; 0; 0; 0; 0; 0]%float /\
    Store.sl_len (Store.Data StoreExamples.clusterAmount) = 0%nat /\
    Store.sliceElems st' (Store.Data StoreExamples.clusterAmount) = Some [] /\
    Store.sliceGet st' (Store.Data StoreExamples.clusterAmount) 0 = None /\
    st' = <[1%nat := [1; 2; 0; 0; 0; 0; 0]%float]> StoreExamples.nodeStore.
Proof.
  eexists. split; [vm_compute; reflexivity|].
  repeat split; vm_compute; reflexivity.
Qed.

Section AddGammaShared.

(** The receiver's slice over array [a], the other vector over array [b]
    (possibly the same array), both of length [n], in the store [st0] of the
    caller. *)
Variables (a b : Store.loc) (n : nat) (gamma : float).
Variables (st0 : Store.store) (A0 B0 : list float).
Hypothesis HA0 : st0 !! a = Some A0.
Hypothesis HB0 : st0 !! b = Some B0.
Hypothesis HlenA : (n <= length A0)%nat.
Hypothesis HlenB : (n <= length B0)%nat.

(** Entries below [k] hold their sum, the others their old value. *)
Definition addGammaInv (k : nat) (st : Store.store) : Prop :=
  exists A,
    st !! a = Some A /\ length A = length A0 /\
    (forall i x y, (i < k)%nat -> A0 !! i = Some x -> B0 !! i = Some y ->
                   A !! i = Some (x + gamma * y)%float) /\
    (forall i, (k <= i)%nat -> A !! i = A0 !! i) /\
    (a <> b -> st !! b = Some B0).

Lemma addGammaInv_other k st i :
  addGammaInv k st -> (k <= i < n)%nat ->
  Store.sliceGet st (Store.mkSlice (Some b) n) i = B0 !! i.
Proof.
  intros (A & HA & Hlen & _ & Hrest & Hb) Hi. unfold Store.sliceGet. simpl.
  destruct (Nat.ltb_spec i n); [|lia].
  destruct (decide (a = b)) as [<- | Hne].
  - rewrite HA. rewrite Hrest by lia. congruence.
  - rewrite (Hb Hne). reflexivity.
Qed.

Lemma addGammaLoop_inv m : forall k st,
  (k + m = n)%nat -> addGammaInv k st ->
  exists st',
    Store.addGammaLoop st (Store.mkSlice (Some a) n) (Store.mkSlice (Some b) n)
      gamma (seq k m) = Some st' /\
    addGammaInv n st'.
Proof.
  induction m as [|m IH]; intros k st Hkm Hinv; simpl.
  - exists st. split; [reflexivity|]. replace n with k by lia. exact Hinv.
  - pose proof (addGammaInv_other k st k Hinv ltac:(lia)) as Hother.
    destruct Hinv as (A & HA & Hlen & Hdone & Hrest & Hb).
    destruct (lookup_lt_is_Some_2 A0 k ltac:(lia)) as [x Hx].
    destruct (lookup_lt_is_Some_2 B0 k ltac:(lia)) as [y Hy].
    rewrite Hother, Hy.
    unfold Store.sliceGet at 1, Store.sliceSet. simpl.
    destruct (Nat.ltb_spec k n); [|lia].
    rewrite HA, (Hrest k) by lia. rewrite Hx.
    apply IH; [lia|].
    exists (<[k := (x + gamma * y)%float]> A).
    split; [apply lookup_insert_eq|].
    split; [rewrite length_insert; exact Hlen|].
    split; [|split].
    + intros i x' y' Hi Hx' Hy'.
      destruct (decide (i = k)) as [-> | Hne].
      * rewrite list_lookup_insert_eq by lia. congruence.
      * rewrite list_lookup_insert_ne by congruence. apply Hdone; [lia|assumption..].
    + intros i Hi. rewrite list_lookup_insert_ne by lia. apply Hrest. lia.
    + intros Hne. rewrite lookup_insert_ne by exact Hne. apply Hb, Hne.
Qed.

(** With a non-empty receiver the claim of C9 holds: [AddGamma] returns
    [nil], and through the caller's own [fa.Data] every entry reads as its old
    value plus [gamma] times the entry of the other vector. *)
Lemma AddGamma_nonempty_receiver (fa faOther : Store.FragAmount) :
  Store.Data fa = Store.mkSlice (Some a) n ->
  Store.Data faOther = Store.mkSlice (Some b) n ->
  (0 < n)%nat ->
  exists st',
    Store.AddGamma st0 fa faOther gamma = Some (None, st') /\
    forall i, (i < n)%nat ->
      exists x y,
        Store.sliceGet st0 (Store.Data fa) i = Some x /\
        Store.sliceGet st0 (Store.Data faOther) i = Some y /\
        Store.sliceGet st' (Store.Data fa) i = Some (x + gamma * y)%float.
Proof.
  intros Hfa Hother Hn. unfold Store.AddGamma. rewrite Hfa, Hother. simpl.
  destruct (Nat.eqb_spec n 0); [lia|].
  rewrite Nat.eqb_refl. simpl.
  destruct (addGammaLoop_inv n 0 st0 ltac:(lia)) as (st' & -> & (A & HA & Hlen & Hdone & _)).
  { exists A0. split; [exact HA0|]. split; [reflexivity|].
    split; [intros; lia|]. split; [reflexivity|]. intros _. exact HB0. }
  exists st'. split; [reflexivity|].
  intros i Hi.
  destruct (lookup_lt_is_Some_2 A0 i ltac:(lia)) as [x Hx].
  destruct (lookup_lt_is_Some_2 B0 i ltac:(lia)) as [y Hy].
  exists x, y. unfold Store.sliceGet. simpl.
  destruct (Nat.ltb_spec i n); [|lia].
  rewrite HA0, HB0, HA. auto.
Qed.

End AddGammaShared.

(** ** [GreedQueue.Less] *)

Lemma fmaxStep_foldl_good {A : Type} (g : A -> float) (l : list A) : forall res,
  goodMax res -> goodMax (foldl (fun r x => fmaxStep r (g x)) res l).
Proof.
  induction l as [|x l IH]; intros res Hres; simpl; [exact Hres|].
  apply IH, fmaxStep_good, Hres.
Qed.








(** The share is not request over capacity where a capacity is zero: in a
    cluster without capacity the pod that asks for one core has share 1,
    while request divided by capacity is [1 / 0 = +infinity]. *)
Lemma calculatePodShare_zero_capacity_counterexample :
  ~ (forall rangeOrder greed pod,
       algo.isKeyOrder greed rangeOrder -> pod ∈ algo.pods greed ->
       algo.calculatePodShare rangeOrder greed pod
       = algo.dominantShare rangeOrder greed pod).
Proof.
  intros H.
  specialize (H ["cpu"; "memory"]%string GreedExamples.emptyCluster GreedExamples.oneCorePod).
  assert (Hk : algo.isKeyOrder GreedExamples.emptyCluster ["cpu"; "memory"]%string).
  { unfold algo.isKeyOrder. vm_compute. first [reflexivity | apply Permutation_swap]. }
  specialize (H Hk ltac:(apply list_elem_of_here)).
  apply (f_equal Prim2SF) in H. vm_compute in H. discriminate H.
Qed.


(** ** Rounding of binary64 products below a bound

    The facts about [binary_round_aux] that bound the PWR score: shifting a
    mantissa right divides it, rounding to nearest moves it up by at most
    one and only when bits were lost, so a product that does not exceed 100
    is rounded to a value that does not exceed 100. *)

Lemma iter_pos_nat {A : Type} (f : A -> A) (p : positive) : forall x,
  SpecFloat.iter_pos f p x = Nat.iter (Pos.to_nat p) f x.
Proof.
  induction p as [p IH | p IH |]; intros x.
  - change (SpecFloat.iter_pos f p~1 x)
      with (SpecFloat.iter_pos f p (SpecFloat.iter_pos f p (f x))).
    rewrite !IH. rewrite Pos2Nat.inj_xI.
    change (S (2 * Pos.to_nat p)) with (S (Pos.to_nat p + (Pos.to_nat p + 0))).
    rewrite Nat.add_0_r. rewrite Nat.iter_succ_r. rewrite Nat.iter_add. reflexivity.
  - change (SpecFloat.iter_pos f p~0 x)
      with (SpecFloat.iter_pos f p (SpecFloat.iter_pos f p x)).
    rewrite !IH. rewrite Pos2Nat.inj_xO.
    change (2 * Pos.to_nat p)%nat with (Pos.to_nat p + (Pos.to_nat p + 0))%nat.
    rewrite Nat.add_0_r. rewrite Nat.iter_add. reflexivity.
  - reflexivity.
Qed.

(** After [k] shifts of the record that starts as [(m0, false, false)]: the
    mantissa is the quotient by [2^k], and the two flags are clear exactly
    when the remainder is zero. *)
Definition shiftedBy (m0 : Z) (k : Z) (mrs : shr_record) : Prop :=
  exists rem,
    m0 = shr_m mrs * 2 ^ k + rem /\ 0 <= rem < 2 ^ k /\ 0 <= shr_m mrs /\
    (shr_r mrs || shr_s mrs = false <-> rem = 0).

Lemma shiftedBy_start (m0 : Z) :
  0 <= m0 -> shiftedBy m0 0 (Build_shr_record m0 false false).
Proof.
  intros H. exists 0. simpl. repeat split; try lia.
Qed.

Lemma shr_1_halves (mrs : shr_record) :
  0 <= shr_m mrs ->
  exists b : bool,
    shr_m mrs = 2 * shr_m (shr_1 mrs) + (if b then 1 else 0) /\
    0 <= shr_m (shr_1 mrs) /\
    shr_r (shr_1 mrs) = b /\
    shr_s (shr_1 mrs) = shr_r mrs || shr_s mrs.
Proof.
  destruct mrs as [m r s]. simpl. intros Hm.
  destruct m as [|[p|p|]|p]; simpl; try lia.
  - exists false. repeat split; lia.
  - exists true. repeat split; lia.
  - exists false. repeat split; lia.
  - exists true. repeat split; lia.
Qed.

Lemma shiftedBy_step (m0 k : Z) (mrs : shr_record) :
  0 <= k -> shiftedBy m0 k mrs -> shiftedBy m0 (k + 1) (shr_1 mrs).
Proof.
  intros Hk (rem & Hm0 & Hrem & Hm & Hflags).
  destruct (shr_1_halves mrs Hm) as (b & Hhalf & Hm' & Hr & Hs).
  assert (Hpow : 2 ^ (k + 1) = 2 * 2 ^ k) by (rewrite Z.pow_add_r by lia; lia).
  assert (Hpos : 0 < 2 ^ k) by (apply Z.pow_pos_nonneg; lia).
  exists ((if b then 1 else 0) * 2 ^ k + rem).
  rewrite Hpow, Hr, Hs.
  split; [rewrite Hm0, Hhalf at 1; destruct b; lia|].
  split; [destruct b; lia|].
  split; [exact Hm'|].
  destruct b; simpl.
  - split; [discriminate | lia].
  - rewrite Hflags. lia.
Qed.

Lemma shiftedBy_iter (m0 : Z) (n : nat) : forall k mrs,
  0 <= k -> shiftedBy m0 k mrs ->
  shiftedBy m0 (k + Z.of_nat n) (Nat.iter n shr_1 mrs).
Proof.
  induction n as [|n IH]; intros k mrs Hk H.
  - simpl. rewrite Z.add_0_r. exact H.
  - rewrite Nat.iter_succ_r.
    replace (k + Z.of_nat (S n)) with ((k + 1) + Z.of_nat n) by lia.
    apply IH; [lia|]. apply shiftedBy_step; assumption.
Qed.

(** [shr] on a fresh record. *)
Lemma shr_shiftedBy (m0 e n : Z) :
  0 <= m0 ->
  let '(mrs, e') := shr (Build_shr_record m0 false false) e n in
  e' = e + Z.max 0 n /\ shiftedBy m0 (Z.max 0 n) mrs.
Proof.
  intros Hm0. unfold shr.
  destruct n as [|p|p].
  - split; [lia|]. apply shiftedBy_start, Hm0.
  - split; [lia|]. rewrite iter_pos_nat.
    replace (Z.max 0 (Z.pos p)) with (0 + Z.of_nat (Pos.to_nat p)) by lia.
    apply shiftedBy_iter; [lia|]. apply shiftedBy_start, Hm0.
  - split; [lia|]. apply shiftedBy_start, Hm0.
Qed.

Lemma digits2_pos_bounds (p : positive) :
  2 ^ (Zpos (digits2_pos p) - 1) <= Zpos p < 2 ^ Zpos (digits2_pos p).
Proof.
  induction p as [p IH | p IH |]; simpl digits2_pos.
  - rewrite Pos2Z.inj_succ.
    replace (Z.succ (Zpos (digits2_pos p)) - 1) with (Zpos (digits2_pos p) - 1 + 1) by lia.
    rewrite Z.pow_succ_r by lia. rewrite Z.pow_add_r by lia. lia.
  - rewrite Pos2Z.inj_succ.
    replace (Z.succ (Zpos (digits2_pos p)) - 1) with (Zpos (digits2_pos p) - 1 + 1) by lia.
    rewrite Z.pow_succ_r by lia. rewrite Z.pow_add_r by lia. lia.
  - simpl. lia.
Qed.

Lemma fexp_binary64 (x : Z) : fexp prec emax x = Z.max (x - 53) (-1074).
Proof. reflexivity. Qed.

(** The largest mantissa that, at exponent [e <= 2], is worth at most 100. *)
Definition capHundred (e : Z) : Z := 25 * 2 ^ (2 - e).

(** A zero, or a positive number of at most 100. *)
Definition uptoHundred (x : spec_float) : Prop :=
  match x with
  | S754_zero _ => True
  | S754_finite s m e => s = false /\ e <= 2 /\ Zpos m <= capHundred e
  | _ => False
  end.

Lemma capHundred_shift (e k : Z) :
  0 <= k -> e + k <= 2 -> capHundred e = capHundred (e + k) * 2 ^ k.
Proof.
  intros Hk He. unfold capHundred.
  replace (2 - e) with ((2 - (e + k)) + k) by lia.
  rewrite Z.pow_add_r by lia. lia.
Qed.

Lemma Zdigits2_capHundred (m0 e : Z) :
  0 <= m0 -> m0 <= capHundred e -> e <= 2 -> Zdigits2 m0 + e <= 7.
Proof.
  intros Hm0 Hcap He. destruct m0 as [|p|p]; simpl; [lia| |lia].
  pose proof (digits2_pos_bounds p) as [Hlow _].
  assert (Hlt : 2 ^ (Zpos (digits2_pos p) - 1) < 2 ^ (7 - e)).
  { eapply Z.le_lt_trans; [exact Hlow|]. eapply Z.le_lt_trans; [exact Hcap|].
    unfold capHundred. replace (7 - e) with (5 + (2 - e)) by lia.
    rewrite Z.pow_add_r by lia.
    assert (0 < 2 ^ (2 - e)) by (apply Z.pow_pos_nonneg; lia). lia. }
  apply Z.pow_lt_mono_r_iff in Hlt; lia.
Qed.

(** One normalisation step keeps a mantissa under the cap, strictly so when
    bits were shifted out. *)
Lemma shr_fexp_capHundred (m0 e : Z) :
  0 <= m0 -> e <= 2 -> m0 <= capHundred e ->
  forall mrs e', shr_fexp prec emax m0 e loc_Exact = (mrs, e') ->
  e' <= 2 /\ 0 <= shr_m mrs <= capHundred e' /\
  (shr_r mrs || shr_s mrs = true -> shr_m mrs < capHundred e').
Proof.
  intros Hm0 He Hcap mrs e' Hshr. unfold shr_fexp in Hshr. simpl in Hshr.
  pose proof (shr_shiftedBy m0 e (fexp prec emax (Zdigits2 m0 + e) - e) Hm0) as Hs.
  rewrite Hshr in Hs. destruct Hs as [He' (rem & Hm & Hrem & Hnonneg & Hflags)].
  pose proof (Zdigits2_capHundred m0 e Hm0 Hcap He) as Hd.
  rewrite fexp_binary64 in He', Hm, Hrem.
  set (k := Z.max 0 (Z.max (Zdigits2 m0 + e - 53) (-1074) - e)) in *.
  assert (Hk : 0 <= k) by lia.
  assert (He2 : e' <= 2) by lia.
  assert (Hpos : 0 < 2 ^ k) by (apply Z.pow_pos_nonneg; lia).
  rewrite (capHundred_shift e k Hk ltac:(lia)) in Hcap.
  replace (e + k) with e' in Hcap by lia.
  split; [exact He2|]. split; [split; [exact Hnonneg | nia]|].
  intros Hin.
  assert (Hr : rem <> 0).
  { intros Hz. apply Hflags in Hz. rewrite Hz in Hin. discriminate Hin. }
  nia.
Qed.

Lemma round_nearest_even_bounds (mrs : shr_record) :
  shr_m mrs <= round_nearest_even (shr_m mrs) (loc_of_shr_record mrs) <= shr_m mrs + 1 /\
  (round_nearest_even (shr_m mrs) (loc_of_shr_record mrs) = shr_m mrs + 1 ->
   shr_r mrs || shr_s mrs = true).
Proof.
  destruct mrs as [m [|] [|]]; simpl; try (split; [lia | intros; try reflexivity; lia]).
  destruct (Z.even m); split; try lia; intros; try reflexivity; lia.
Qed.

(** Rounding a non-negative value of at most 100 gives a value of at most
    100, and neither an infinity nor NaN. *)
Lemma binary_round_aux_capHundred (mx ex : Z) :
  0 <= mx -> ex <= 2 -> mx <= capHundred ex ->
  uptoHundred (binary_round_aux prec emax false mx ex loc_Exact).
Proof.
  intros Hmx Hex Hcap. unfold uptoHundred, binary_round_aux.
  destruct (shr_fexp prec emax mx ex loc_Exact) as [mrs' e'] eqn:H1.
  destruct (shr_fexp_capHundred mx ex Hmx Hex Hcap mrs' e' H1) as (He' & [Hm0 Hm1] & Hstrict).
  pose proof (round_nearest_even_bounds mrs') as [[Hr0 Hr1] Hup].
  set (m1 := round_nearest_even (shr_m mrs') (loc_of_shr_record mrs')) in *.
  assert (Hm1cap : m1 <= capHundred e').
  { destruct (Z.eq_dec m1 (shr_m mrs' + 1)) as [E | E]; [|lia].
    specialize (Hstrict (Hup E)). lia. }
  destruct (shr_fexp prec emax m1 e' loc_Exact) as [mrs'' e''] eqn:H2.
  destruct (shr_fexp_capHundred m1 e' ltac:(lia) He' Hm1cap mrs'' e'' H2)
    as (He'' & [Hn0 Hn1] & _).
  destruct (shr_m mrs'') as [|m|m] eqn:Hm; [exact I | | lia].
  destruct (Z.leb_spec e'' (emax - prec)) as [_ | Hbig].
  - repeat split; assumption.
  - unfold emax, prec in Hbig. lia.
Qed.

Lemma int64_of_float64_capHundred (f : float) :
  uptoHundred (Prim2SF f) ->
  0 <= int64_of_float64 f <= 100.
Proof.
  unfold uptoHundred, int64_of_float64.
  destruct (Prim2SF f) as [s|s| |s m e]; try contradiction; [lia|].
  intros (-> & He & Hcap). unfold capHundred in Hcap.
  assert (Hv : 0 <= (if 0 <=? e then Zpos m * 2 ^ e else Zpos m / 2 ^ (- e)) <= 100).
  { destruct (Z.leb_spec 0 e) as [H0 | H0].
    - assert (He3 : e = 0 \/ e = 1 \/ e = 2) by lia.
      destruct He3 as [-> | [-> | ->]]; simpl in *; lia.
    - replace (2 - e) with (2 + (- e)) in Hcap by lia.
      rewrite Z.pow_add_r in Hcap by lia.
      assert (Hp : 0 < 2 ^ (- e)) by (apply Z.pow_pos_nonneg; lia).
      split; [apply Z.div_pos; lia|].
      apply Z.div_le_upper_bound; [exact Hp|]. lia. }
  destruct ((int64_min <=? _) && (_ <=? int64_max)) eqn:Hr; [exact Hv|].
  apply andb_false_iff in Hr. unfold int64_min, int64_max in Hr.
  destruct Hr as [Hr | Hr]; [apply Z.leb_gt in Hr | apply Z.leb_gt in Hr]; lia.
Qed.

(** A valid binary64 mantissa has at most 53 bits. *)
Lemma valid_mantissa_bound (s : bool) (m : positive) (e : Z) :
  valid_binary (S754_finite s m e) = true -> Zpos m < 2 ^ 53.
Proof.
  unfold valid_binary, SpecFloat.valid_binary, bounded, canonical_mantissa. intros H.
  apply andb_true_iff in H as [H _]. apply Z.eqb_eq in H.
  rewrite fexp_binary64 in H.
  pose proof (digits2_pos_bounds m) as [_ Hup].
  eapply Z.lt_le_trans; [exact Hup|].
  apply Z.pow_le_mono_r; lia.
Qed.

Lemma compare_cont_Eq (m n : positive) :
  PosDef.Pos.compare_cont Eq m n = (m ?= n)%positive.
Proof. reflexivity. Qed.

(** For [s] in [[0,1]], [int64(s * 100)] lies in [[0,100]]. *)
Lemma unit_times_hundred (s : float) :
  (0 <=? s)%float = true -> (s <=? 1)%float = true ->
  0 <= int64_of_float64 (s * 100)%float <= 100.
Proof.
  intros H0 H1. apply int64_of_float64_capHundred.
  rewrite mul_spec. rewrite leb_spec in H0, H1.
  pose proof (Prim2SF_valid s) as Hvalid.
  change (Prim2SF 0%float) with (S754_zero false) in H0.
  change (Prim2SF 1%float) with (S754_finite false 4503599627370496 (-52)) in H1.
  change (Prim2SF 100%float) with (S754_finite false 7036874417766400 (-46)).
  unfold SFleb in H0, H1.
  destruct (Prim2SF s) as [sz|[|]| |[|] m e]; cbn [SFcompare] in H0, H1;
    [ | discriminate H0 | discriminate H1 | discriminate H0 | discriminate H0 | ].
  - exact I.
  - pose proof (valid_mantissa_bound false m e Hvalid) as Hm.
    rewrite compare_cont_Eq in H1.
    assert (He : e <= -52).
    { destruct (Z.compare_spec e (-52)); [lia | lia | discriminate H1]. }
    assert (Hunit : Zpos m <= 2 ^ (- e)).
    { destruct (Z.compare_spec e (-52)) as [-> | Hlt | Hgt]; [ | | discriminate H1].
      - destruct (Pos.compare_spec m 4503599627370496) as [Heq | Hlt | Hgt].
        + subst m. clear Hvalid H0 H1. change (2 ^ (- (-52))) with 4503599627370496. lia.
        + clear Hvalid H0 H1 Hm. change (2 ^ (- (-52))) with 4503599627370496.
          apply Pos2Z.pos_lt_pos in Hlt. apply Z.lt_le_incl. exact Hlt.
        + discriminate H1.
      - clear Hvalid H0 H1. transitivity (2 ^ 53); [lia|]. apply Z.pow_le_mono_r; lia. }
    clear H0 H1 Hvalid.
    unfold SF64mul, SFmul. cbn [xorb].
    apply binary_round_aux_capHundred; [lia | lia | ].
    unfold capHundred.
    replace (2 - (e + -46)) with (48 + (- e)) by lia.
    rewrite Z.pow_add_r by lia.
    rewrite Pos2Z.inj_mul.
    change (Zpos 7036874417766400) with (25 * 2 ^ 48).
    assert (0 < 2 ^ 48) by (apply Z.pow_pos_nonneg; lia).
    assert (0 < 2 ^ (- e)) by (apply Z.pow_pos_nonneg; lia).
    nia.
Qed.

(** *** The energy difference is a number *)

Definition SFnumber (x : spec_float) : Prop :=
  match x with S754_zero _ | S754_finite _ _ _ => True | _ => False end.

Lemma SFcompare_refl (x : spec_float) : x <> S754_nan -> SFcompare x x = Some Eq.
Proof.
  destruct x as [s|[|]| |[|] m e]; simpl; intros H; try reflexivity; try congruence;
    rewrite Z.compare_refl, compare_cont_Eq, Pos.compare_refl; reflexivity.
Qed.

Lemma is_nan_false (x : float) : Prim2SF x <> S754_nan -> is_nan x = false.
Proof.
  intros H. unfold is_nan. rewrite FloatAxioms.eqb_spec. unfold SFeqb.
  rewrite (SFcompare_refl _ H). reflexivity.
Qed.

Lemma is_finite_number (x : float) : is_finite x = true -> SFnumber (Prim2SF x).
Proof.
  unfold is_finite, is_nan, is_infinity.
  rewrite !FloatAxioms.eqb_spec, abs_spec.
  change (Prim2SF infinity) with (S754_infinity false).
  unfold SFeqb. destruct (Prim2SF x) as [s|s| |s m e]; simpl; intros H;
    try exact I; try discriminate H.
  destruct s; discriminate H.
Qed.

Lemma shr_1_iter_nonneg (n : nat) : forall mrs,
  0 <= shr_m mrs -> 0 <= shr_m (Nat.iter n shr_1 mrs).
Proof.
  induction n as [|n IH]; intros mrs H; [exact H|].
  rewrite Nat.iter_succ_r. apply IH.
  destruct (shr_1_halves mrs H) as (b & _ & H' & _). exact H'.
Qed.

Lemma shr_fexp_nonneg (m e : Z) (l : location) :
  0 <= m -> 0 <= shr_m (fst (shr_fexp prec emax m e l)).
Proof.
  intros Hm. unfold shr_fexp, shr.
  assert (H0 : 0 <= shr_m (shr_record_of_loc m l)).
  { destruct l as [|[| |]]; exact Hm. }
  destruct (fexp prec emax (Zdigits2 m + e) - e) as [|p|p]; simpl fst; try exact H0.
  rewrite iter_pos_nat. apply shr_1_iter_nonneg, H0.
Qed.

(** Rounding a non-negative mantissa never yields NaN. *)
Lemma binary_round_aux_not_nan (s : bool) (m e : Z) (l : location) :
  0 <= m -> binary_round_aux prec emax s m e l <> S754_nan.
Proof.
  intros Hm. unfold binary_round_aux.
  pose proof (shr_fexp_nonneg m e l Hm) as H1.
  destruct (shr_fexp prec emax m e l) as [mrs' e']. simpl fst in H1.
  pose proof (round_nearest_even_bounds mrs') as [[Hr _] _].
  pose proof (shr_fexp_nonneg (round_nearest_even (shr_m mrs') (loc_of_shr_record mrs'))
                e' loc_Exact ltac:(lia)) as H2.
  destruct (shr_fexp prec emax _ e' loc_Exact) as [mrs'' e'']. simpl fst in H2.
  destruct (shr_m mrs'') as [|p|p]; [discriminate | | lia].
  destruct (e'' <=? emax - prec); discriminate.
Qed.

Lemma binary_normalize_not_nan (m e : Z) (szero : bool) :
  binary_normalize prec emax m e szero <> S754_nan.
Proof.
  destruct m as [|p|p]; simpl; [discriminate | |];
    unfold binary_round;
    destruct (shl_align p e _) as [mz ez]; apply binary_round_aux_not_nan; lia.
Qed.

Lemma SFsub_number_not_nan (x y : spec_float) :
  SFnumber x -> SFnumber y -> SFsub prec emax x y <> S754_nan.
Proof.
  destruct x as [sx|sx| |sx mx ex]; destruct y as [sy|sy| |sy my ey];
    simpl; intros Hx Hy; try contradiction; try discriminate.
  - destruct sx, sy; discriminate.
  - apply binary_normalize_not_nan.
Qed.

Lemma SFdiv_by_number_not_nan (x : spec_float) (sy : bool) (my : positive) (ey : Z) :
  x <> S754_nan -> SFdiv prec emax x (S754_finite sy my ey) <> S754_nan.
Proof.
  destruct x as [sx|sx| |sx mx ex]; simpl; intros Hx; try discriminate; [congruence|].
  unfold SFdiv_core_binary.
  set (m' := match _ - _ - _ with Z0 => _ | Zpos _ => _ | Zneg _ => _ end).
  assert (Hm' : 0 <= m').
  { subst m'. destruct (_ - _ - _) as [|p|p]; [lia | apply Z.shiftl_nonneg; lia | lia]. }
  pose proof (Z_div_mod m' (Zpos my) ltac:(lia)) as Hdiv.
  destruct (Z.div_eucl m' (Zpos my)) as [q r]. destruct Hdiv as [Hq Hr].
  apply binary_round_aux_not_nan. nia.
Qed.

(** The argument that the plugin passes to [sigmoid] is not NaN when both
    node energies are finite. *)
Lemma energy_delta_not_nan (old_node_energy new_node_energy : float) :
  is_finite old_node_energy = true -> is_finite new_node_energy = true ->
  is_nan ((old_node_energy - new_node_energy) / 1000)%float = false.
Proof.
  intros Ho Hn. apply is_nan_false. rewrite div_spec, sub_spec.
  change (Prim2SF 1000%float) with (S754_finite false 8796093022208000 (-43)).
  apply SFdiv_by_number_not_nan, SFsub_number_not_nan; apply is_finite_number; assumption.
Qed.

(** ** PWR score *)

Section PWRScoreProps.

Variable sigmoid : float -> float.
Variable GetEnergyConsumptionNode : NodeResource -> float * float.
Variable Sub : NodeResource -> PodResource -> NodeResource * error.
Variable AllocateExclusiveGpuId : NodeResource -> PodResource -> string.
Variable IsNodeAccessibleToPod : NodeResource -> PodResource -> bool.
Variable Pod : Type.
Variable GetPodResource : Pod -> PodResource.
Variable podRequestCount : Pod -> nat.
Variable GetNodeResourceViaHandleAndName : string -> option NodeResource.

(** The logistic function maps every number into [[0,1]]. *)
Hypothesis sigmoid_range : forall x,
  is_nan x = false ->
  (0 <=? sigmoid x)%float = true /\ (sigmoid x <=? 1)%float = true.

(** The energy model gives every node a finite consumption. *)
Hypothesis energy_finite : forall nodeRes,
  is_finite (plugin.nodeEnergy GetEnergyConsumptionNode nodeRes) = true.

Local Abbreviation energyOf := (plugin.nodeEnergy GetEnergyConsumptionNode).
Local Abbreviation scoreOf := (plugin.energyScore sigmoid).

Lemma energyScore_bounds (nodeRes newNodeRes : NodeResource) :
  0 <= scoreOf (energyOf nodeRes) (energyOf newNodeRes) <= 100.
Proof.
  unfold plugin.energyScore.
  change (float64_of_int64 plugin.MaxNodeScore) with 100%float.
  destruct (sigmoid_range _ (energy_delta_not_nan _ _ (energy_finite nodeRes)
                                                   (energy_finite newNodeRes))) as [H0 H1].
  apply unit_times_hundred; assumption.
Qed.

Lemma shareLoop_bounds nodeRes podRes (gpus : list Z) : forall i score gpuId,
  0 <= score <= 100 ->
  0 <= fst (plugin.shareLoop sigmoid GetEnergyConsumptionNode nodeRes podRes
              (energyOf nodeRes) i gpus score gpuId) <= 100.
Proof.
  induction gpus as [|g gpus IH]; intros i score gpuId Hscore; simpl; [exact Hscore|].
  destruct (g >=? MilliGpu podRes); [|apply IH, Hscore].
  destruct (_ || _); apply IH; [apply energyScore_bounds | exact Hscore].
Qed.

(** C8: the score that [calculatePWRShareFragExtendScore] computes and that
    [Score] returns is an [int64] between 0 and 100, for every node, pod and
    typical-pod list. *)
Theorem PWRScore_bounds (nodeRes : NodeResource) (podRes : PodResource)
    (typicalPods : TargetPodList) (p : Pod) (nodeName : string) :
  (0 <= fst (plugin.calculatePWRShareFragExtendScore sigmoid GetEnergyConsumptionNode
               Sub AllocateExclusiveGpuId nodeRes podRes typicalPods) <= 100) /\
  (0 <= fst (plugin.Score sigmoid GetEnergyConsumptionNode Sub AllocateExclusiveGpuId
               IsNodeAccessibleToPod Pod GetPodResource podRequestCount
               GetNodeResourceViaHandleAndName typicalPods p nodeName) <= 100) /\
  in_int64 (fst (plugin.Score sigmoid GetEnergyConsumptionNode Sub AllocateExclusiveGpuId
                   IsNodeAccessibleToPod Pod GetPodResource podRequestCount
                   GetNodeResourceViaHandleAndName typicalPods p nodeName)).
Proof.
  assert (Hcalc : forall n q,
            0 <= fst (plugin.calculatePWRShareFragExtendScore sigmoid GetEnergyConsumptionNode
                        Sub AllocateExclusiveGpuId n q typicalPods) <= 100).
  { intros n q. unfold plugin.calculatePWRShareFragExtendScore.
    destruct (_ && _).
    - apply shareLoop_bounds. lia.
    - destruct (Sub n q) as [newNodeRes err]. simpl. apply energyScore_bounds. }
  assert (Hscore : 0 <= fst (plugin.Score sigmoid GetEnergyConsumptionNode Sub
                               AllocateExclusiveGpuId IsNodeAccessibleToPod Pod
                               GetPodResource podRequestCount
                               GetNodeResourceViaHandleAndName typicalPods p nodeName)
                   <= 100).
  { unfold plugin.Score.
    destruct (podRequestCount p =? 0)%nat; [simpl; unfold plugin.MaxNodeScore; lia|].
    destruct (GetNodeResourceViaHandleAndName nodeName) as [n|];
      [|simpl; unfold plugin.MinNodeScore; lia].
    destruct (negb _); [simpl; unfold plugin.MinNodeScore; lia|].
    specialize (Hcalc n (GetPodResource p)).
    destruct (plugin.calculatePWRShareFragExtendScore _ _ _ _ _ _ _) as [score gpuId].
    exact Hcalc. }
  split; [apply Hcalc|]. split; [exact Hscore|].
  unfold in_int64, int64_min, int64_max. lia.
Qed.

End PWRScoreProps.

Lemma is_nan_false_inv (x : float) : is_nan x = false -> Prim2SF x <> S754_nan.
Proof.
  unfold is_nan. rewrite FloatAxioms.eqb_spec. unfold SFeqb. intros H E.
  rewrite E in H. discriminate H.
Qed.

Lemma SFcompare_defined (x y : spec_float) :
  x <> S754_nan -> y <> S754_nan -> SFcompare x y <> None.
Proof.
  destruct x as [sx|sx| |sx mx ex]; destruct y as [sy|sy| |sy my ey]; simpl;
    intros Hx Hy; congruence.
Qed.

(** Among numbers, "not less" is "greater or equal". *)
Lemma not_ltb_leb (x y : float) :
  is_nan x = false -> is_nan y = false ->
  (x <? y)%float = false -> (y <=? x)%float = true.
Proof.
  intros Hx Hy. rewrite ltb_spec, leb_spec. unfold SFltb, SFleb.
  rewrite (SFcompare_antisym (Prim2SF x) (Prim2SF y)).
  pose proof (SFcompare_defined _ _ (is_nan_false_inv x Hx) (is_nan_false_inv y Hy)) as Hd.
  destruct (SFcompare (Prim2SF x) (Prim2SF y)) as [[| |]|]; simpl; intros H;
    try reflexivity; try discriminate H. congruence.
Qed.

Lemma hardSigmoid_range (x : float) :
  is_nan x = false ->
  (0 <=? PwrExamples.hardSigmoid x)%float = true /\
  (PwrExamples.hardSigmoid x <=? 1)%float = true.
Proof.
  intros _. unfold PwrExamples.hardSigmoid.
  set (y := (0.5 + 0.25 * x)%float).
  destruct (y <? 0)%float eqn:H0; [split; reflexivity|].
  destruct (1 <? y)%float eqn:H1; [split; reflexivity|].
  destruct (y =? y)%float eqn:Hy; [|split; reflexivity].
  assert (Hn : is_nan y = false) by (unfold is_nan; rewrite Hy; reflexivity).
  split; [apply (not_ltb_leb y 0) | apply (not_ltb_leb 1 y)];
    try assumption; reflexivity.
Qed.

Lemma busyGpuEnergy_finite (nodeRes : NodeResource) :
  is_finite (plugin.nodeEnergy PwrExamples.busyGpuEnergy nodeRes) = true.
Proof.
  unfold plugin.nodeEnergy, PwrExamples.busyGpuEnergy.
  destruct (existsb _ _); reflexivity.
Qed.

Lemma PWRScore_bounds_witness :
  (forall x, is_nan x = false ->
     (0 <=? PwrExamples.hardSigmoid x)%float = true /\
     (PwrExamples.hardSigmoid x <=? 1)%float = true) /\
  (forall nodeRes,
     is_finite (plugin.nodeEnergy PwrExamples.busyGpuEnergy nodeRes) = true) /\
  (0 <= fst (plugin.calculatePWRShareFragExtendScore PwrExamples.hardSigmoid
               PwrExamples.busyGpuEnergy SpecModel.Sub PwrExamples.firstFit
               Examples.twoGpuNode (TargetPodResource Examples.halfGpuPod) [])
   <= 100) /\
  (0 <= fst (plugin.Score PwrExamples.hardSigmoid PwrExamples.busyGpuEnergy SpecModel.Sub
               PwrExamples.firstFit SpecModel.IsNodeAccessibleToPod PodResource
               (fun p => p) (fun _ => 1%nat) PwrExamples.knownNode []
               (TargetPodResource Examples.halfGpuPod) "node-2")
   <= 100) /\
  in_int64 (fst (plugin.Score PwrExamples.hardSigmoid PwrExamples.busyGpuEnergy SpecModel.Sub
                   PwrExamples.firstFit SpecModel.IsNodeAccessibleToPod PodResource
                   (fun p => p) (fun _ => 1%nat) PwrExamples.knownNode []
                   (TargetPodResource Examples.halfGpuPod) "node-2")).
Proof.
  split; [exact hardSigmoid_range|]. split; [exact busyGpuEnergy_finite|].
  exact (PWRScore_bounds PwrExamples.hardSigmoid PwrExamples.busyGpuEnergy SpecModel.Sub
           PwrExamples.firstFit SpecModel.IsNodeAccessibleToPod PodResource
           (fun p => p) (fun _ => 1%nat) PwrExamples.knownNode
           hardSigmoid_range busyGpuEnergy_finite
           Examples.twoGpuNode (TargetPodResource Examples.halfGpuPod) []
           (TargetPodResource Examples.halfGpuPod) "node-2").
Defined.

(** * Further properties of the fragmentation estimator *)

Section FragMore.

Variable IsNodeAccessibleToPod : NodeResource -> PodResource -> bool.

Local Abbreviation amountStep := (fragAmountStep IsNodeAccessibleToPod).
Local Abbreviation ratioStep := (fragRatioStep IsNodeAccessibleToPod).

Lemma foldl_skips_rejected (step : list float -> TargetPod -> option (list float))
    (typicalPods : list TargetPod) :
  (forall Data pod, passesFreqGuard pod = false -> step Data pod = Some Data) ->
  forall acc,
    foldl (fun acc pod => match acc with None => None | Some D => step D pod end)
          acc typicalPods
    = foldl (fun acc pod => match acc with None => None | Some D => step D pod end)
            acc (filter (fun pod => passesFreqGuard pod = true) typicalPods).
Proof.
  intros Hskip. induction typicalPods as [|pod pods IH]; intros acc; [reflexivity|].
  rewrite filter_cons. simpl. case_decide as Hg.
  - simpl. apply IH.
  - rewrite <- IH. f_equal. destruct acc as [D|]; [|reflexivity].
    apply Hskip. destruct (passesFreqGuard pod); congruence.
Qed.

(** A typical pod whose percentage fails the guard [freq < 0 || freq > 1]
    contributes nothing, wherever it stands in the list: the ratio and the
    amount are those of the list without such pods. *)
Theorem frag_vectors_skip_rejected_pods (nodeRes : NodeResource)
    (typicalPods : list TargetPod) :
  NodeGpuFragRatio IsNodeAccessibleToPod nodeRes typicalPods
  = NodeGpuFragRatio IsNodeAccessibleToPod nodeRes
      (filter (fun pod => passesFreqGuard pod = true) typicalPods) /\
  NodeGpuShareFragAmount IsNodeAccessibleToPod nodeRes typicalPods
  = NodeGpuShareFragAmount IsNodeAccessibleToPod nodeRes
      (filter (fun pod => passesFreqGuard pod = true) typicalPods).
Proof.
  split.
  - unfold NodeGpuFragRatio. apply foldl_skips_rejected.
    intros Data pod Hg. unfold fragRatioStep, passesFreqGuard in *.
    destruct (_ || _)%float; [reflexivity | discriminate Hg].
  - unfold NodeGpuShareFragAmount. f_equal.
    rewrite (foldl_skips_rejected (amountStep nodeRes)); [reflexivity|].
    intros Data pod Hg. unfold fragAmountStep, passesFreqGuard in *.
    destruct (_ || _)%float; [reflexivity | discriminate Hg].
Qed.

(** No index ever leaves the seven-entry vector: [NodeGpuShareFragAmount]
    returns a [FragAmount] named after the node with seven entries, and
    [NodeGpuShareFragAmountScore] a number, for every node and every list of
    typical pods. *)
Theorem NodeGpuShareFragAmount_never_panics (nodeRes : NodeResource)
    (typicalPods : list TargetPod) :
  exists Data score,
    NodeGpuShareFragAmount IsNodeAccessibleToPod nodeRes typicalPods
    = Some (mkFragAmount (NodeName nodeRes) Data) /\
    length Data = 7%nat /\
    NodeGpuShareFragAmountScore IsNodeAccessibleToPod nodeRes typicalPods = Some score.
Proof.
  assert (Hz : length zeroData = 7%nat) by (vm_compute; reflexivity).
  destruct (fragAmount_fold_total IsNodeAccessibleToPod nodeRes typicalPods zeroData Hz)
    as (Data & HD & Hlen).
  destruct (FragRatioSumExceptQ3_total Data Hlen) as [score Hscore].
  exists Data, score.
  unfold NodeGpuShareFragAmountScore, NodeGpuShareFragAmount. rewrite HD.
  repeat split; [exact Hlen | exact Hscore].
Qed.

Lemma is_nan_true_inv (x : float) : is_nan x = true -> Prim2SF x = S754_nan.
Proof.
  unfold is_nan. rewrite FloatAxioms.eqb_spec. unfold SFeqb. intros H.
  destruct (Prim2SF x) as [s|s| |s m e] eqn:E; [ | | reflexivity | ];
    rewrite SFcompare_refl in H by discriminate; discriminate H.
Qed.

Lemma is_nan_of_spec (x : float) : Prim2SF x = S754_nan -> is_nan x = true.
Proof.
  intros E. unfold is_nan. rewrite FloatAxioms.eqb_spec, E. reflexivity.
Qed.

(** NaN is neither below 0 nor above 1, so it passes the frequency guard. *)
Lemma nan_passes_guard (freq : float) :
  is_nan freq = true -> ((freq <? 0) || (1 <? freq))%float = false.
Proof.
  intros H. apply is_nan_true_inv in H. rewrite !ltb_spec, H. unfold SFltb. simpl.
  destruct (Prim2SF 1%float); reflexivity.
Qed.

Lemma add_nan_r (v x : float) : is_nan x = true -> is_nan (v + x)%float = true.
Proof.
  intros H. apply is_nan_true_inv in H. apply is_nan_of_spec.
  rewrite add_spec, H. unfold SF64add, SFadd. destruct (Prim2SF v); reflexivity.
Qed.

Lemma mul_nan_l (x y : float) : is_nan x = true -> is_nan (x * y)%float = true.
Proof.
  intros H. apply is_nan_true_inv in H. apply is_nan_of_spec.
  rewrite mul_spec, H. reflexivity.
Qed.

Lemma nan_not_negative (x : float) : is_nan x = true -> (x <? 0)%float = false.
Proof.
  intros H. apply is_nan_true_inv in H. rewrite ltb_spec, H. reflexivity.
Qed.

(** The guard [freq < 0 || freq > 1] does not stop NaN: a typical pod whose
    percentage is NaN is processed, and turns the entry of its category into
    NaN, in the ratio and in the amount alike. *)
Theorem frag_vectors_nan_frequency (nodeRes : NodeResource)
    (typicalPods : list TargetPod) (pod : TargetPod) :
  is_nan (Percentage pod) = true ->
  exists idx ratio amount r a,
    FragRatioDataMap !! GetNodePodFrag IsNodeAccessibleToPod nodeRes (TargetPodResource pod)
    = Some idx /\
    NodeGpuFragRatio IsNodeAccessibleToPod nodeRes (typicalPods ++ [pod]) = Some ratio /\
    ratio !! idx = Some r /\ is_nan r = true /\
    NodeGpuShareFragAmount IsNodeAccessibleToPod nodeRes (typicalPods ++ [pod])
    = Some (mkFragAmount (NodeName nodeRes) amount) /\
    amount !! idx = Some a /\ is_nan a = true.
Proof.
  intros Hnan.
  assert (Hz : length zeroData = 7%nat) by (vm_compute; reflexivity).
  destruct (FragRatioDataMap_category _
              (GetNodePodFrag_category IsNodeAccessibleToPod nodeRes (TargetPodResource pod)))
    as [idx Hidx].
  pose proof (FragRatioDataMap_index_lt _ _ Hidx) as Hlt.
  exists idx.
  (* ratio *)
  destruct (fragRatio_fold_total IsNodeAccessibleToPod nodeRes typicalPods zeroData Hz)
    as (R0 & HR0 & HlenR).
  destruct (lookup_lt_is_Some_2 R0 idx ltac:(lia)) as [r0 Hr0].
  (* amount *)
  destruct (fragAmount_fold_total IsNodeAccessibleToPod nodeRes typicalPods zeroData Hz)
    as (A0 & HA0 & HlenA).
  assert (Hamount : exists A1 a,
            amountStep nodeRes A0 pod = Some A1 /\ A1 !! idx = Some a /\ is_nan a = true).
  { unfold fragAmountStep. rewrite (nan_passes_guard _ Hnan).
    case_decide as Hcat.
    - rewrite Hcat in Hidx. rewrite FragRatioDataMap_Q3 in Hidx. injection Hidx as <-.
      destruct (AddByFragType_adds A0 Q2LackGpu 1 _ HlenA
                  (nan_not_negative _ (mul_nan_l _ (float64_of_int64
                     (GetGpuFragMilliByNodeResAndPodRes nodeRes (TargetPodResource pod)))
                     Hnan)) FragRatioDataMap_Q2)
        as (A1 & -> & Hlen1 & _ & _).
      destruct (AddByFragType_adds A1 Q3Satisfied 2 _ Hlen1
                  (nan_not_negative _ (mul_nan_l _ (float64_of_int64
                     (wrap64 (GetGpuMilliLeftTotal nodeRes
                              - GetGpuFragMilliByNodeResAndPodRes nodeRes
                                  (TargetPodResource pod))))
                     Hnan)) FragRatioDataMap_Q3)
        as (A2 & -> & Hlen2 & (v & Hv & Hv') & _).
      exists A2. eexists. split; [reflexivity|]. split; [exact Hv'|].
      apply add_nan_r, mul_nan_l, Hnan.
    - destruct (AddByFragType_adds A0 _ idx _ HlenA
                  (nan_not_negative _ (mul_nan_l _ (float64_of_int64
                     (GetGpuMilliLeftTotal nodeRes)) Hnan)) Hidx)
        as (A1 & -> & Hlen1 & (v & Hv & Hv') & _).
      exists A1. eexists. split; [reflexivity|]. split; [exact Hv'|].
      apply add_nan_r, mul_nan_l, Hnan. }
  destruct Hamount as (A1 & a & HA1 & Ha & Hna).
  exists (<[idx := (r0 + Percentage pod)%float]> R0), A1, (r0 + Percentage pod)%float, a.
  split; [exact Hidx|]. split.
  { unfold NodeGpuFragRatio. rewrite foldl_snoc, HR0.
    unfold fragRatioStep, AddRatio. rewrite (nan_passes_guard _ Hnan), Hidx, Hr0.
    reflexivity. }
  split; [apply list_lookup_insert_eq; lia|].
  split; [apply add_nan_r, Hnan|].
  split.
  { unfold NodeGpuShareFragAmount. rewrite foldl_snoc, HA0, HA1. reflexivity. }
  split; [exact Ha | exact Hna].
Qed.

End FragMore.

Lemma frag_vectors_nan_frequency_witness :
  is_nan (Percentage MoreExamples.nanPod) = true /\
  exists idx ratio amount r a,
    FragRatioDataMap !! GetNodePodFrag SpecModel.IsNodeAccessibleToPod Examples.twoGpuNode
                          (TargetPodResource MoreExamples.nanPod)
    = Some idx /\
    NodeGpuFragRatio SpecModel.IsNodeAccessibleToPod Examples.twoGpuNode
      ([Examples.halfGpuPod] ++ [MoreExamples.nanPod]) = Some ratio /\
    ratio !! idx = Some r /\ is_nan r = true /\
    NodeGpuShareFragAmount SpecModel.IsNodeAccessibleToPod Examples.twoGpuNode
      ([Examples.halfGpuPod] ++ [MoreExamples.nanPod])
    = Some (mkFragAmount (NodeName Examples.twoGpuNode) amount) /\
    amount !! idx = Some a /\ is_nan a = true.
Proof.
  split; [reflexivity|].
  exact (frag_vectors_nan_frequency SpecModel.IsNodeAccessibleToPod Examples.twoGpuNode
           [Examples.halfGpuPod] MoreExamples.nanPod eq_refl).
Defined.

(** ** Sums over the vector *)

(** [FragAmountSumExceptQ3] (and [FragRatioSumExceptQ3]) reads the entries
    0, 1, 3, 4, 5 and 6: it panics on a vector of fewer than seven entries,
    and on a longer one its result does not depend on the [Q3Satisfied] entry
    nor on anything past the seventh entry. *)
Theorem FragAmountSumExceptQ3_reads (Data : list float) :
  (is_Some (FragAmountSumExceptQ3 Data) <-> (7 <= length Data)%nat) /\
  ((7 <= length Data)%nat -> forall v extra,
     FragAmountSumExceptQ3 (<[2%nat := v]> (take 7 Data) ++ extra)
     = FragAmountSumExceptQ3 Data) /\
  FragRatioSumExceptQ3 Data = FragAmountSumExceptQ3 Data.
Proof.
  unfold FragAmountSumExceptQ3, FragRatioSumExceptQ3.
  rewrite FragRatioDataMap_Q3, FragRatioDataMap_size.
  split; [|split; [|reflexivity]].
  - do 7 (destruct Data as [|? Data];
          [simpl; split; [intros [? H]; discriminate H | lia]|]).
    simpl. split; [lia | eauto].
  - intros Hlen v extra.
    do 7 (destruct Data as [|? Data]; [simpl in Hlen; lia|]).
    reflexivity.
Qed.

(** [FragAmountSumQ1Q2Q4] reads the entries 0, 1 and 3 only and panics on a
    vector of fewer than four entries. *)
Theorem FragAmountSumQ1Q2Q4_reads (Data : list float) :
  (is_Some (FragAmountSumQ1Q2Q4 Data) <-> (4 <= length Data)%nat) /\
  (forall d0 d1 d2 d3 rest,
     FragAmountSumQ1Q2Q4 (d0 :: d1 :: d2 :: d3 :: rest) = Some (0 + d0 + d1 + d3)%float).
Proof.
  unfold FragAmountSumQ1Q2Q4.
  assert (H1 : FragRatioDataMap !! Q1LackBoth = Some 0%nat) by (vm_compute; reflexivity).
  assert (H4 : FragRatioDataMap !! Q4LackCpu = Some 3%nat) by (vm_compute; reflexivity).
  rewrite H1, FragRatioDataMap_Q2, H4.
  split; [|reflexivity].
  do 4 (destruct Data as [|? Data];
        [simpl; split; [intros [? H]; discriminate H | lia]|]).
  simpl. split; [lia | eauto].
Qed.

(** ** Hosting a pod on the GPUs of a node *)

Lemma gpusAtLeast_mono (milliGpu milliGpu' : Z) (l l' : list Z) :
  milliGpu' <= milliGpu -> Forall2 Z.le l l' ->
  gpusAtLeast milliGpu l <= gpusAtLeast milliGpu' l'.
Proof.
  intros Hm. induction 1 as [|g g' l l' Hg Hl IH]; [reflexivity|].
  rewrite !gpusAtLeast_cons.
  destruct (Z_le_dec milliGpu g); destruct (Z_le_dec milliGpu' g'); lia.
Qed.

(** Hosting is monotone: a node that can host a pod on its GPUs can host
    every pod that asks for no more GPUs and for no more millis per GPU, and
    so can every node that has at least as much left on each GPU. *)
Theorem CanNodeHostPodOnGpuMemory_monotone (nodeRes nodeRes' : NodeResource)
    (podRes podRes' : PodResource) :
  int64_min < GpuNumber podRes <= int64_max ->
  int64_min < GpuNumber podRes' <= int64_max ->
  GpuNumber podRes' <= GpuNumber podRes ->
  MilliGpu podRes' <= MilliGpu podRes ->
  Forall2 Z.le (MilliGpuLeftList nodeRes) (MilliGpuLeftList nodeRes') ->
  CanNodeHostPodOnGpuMemory nodeRes podRes = true ->
  CanNodeHostPodOnGpuMemory nodeRes' podRes' = true.
Proof.
  unfold CanNodeHostPodOnGpuMemory. intros Hn Hn' Hle Hm Hl Hcan.
  apply canHostLoop_spec in Hcan; [|exact Hn].
  apply canHostLoop_spec; [exact Hn'|].
  pose proof (gpusAtLeast_mono _ _ _ _ Hm Hl). lia.
Qed.

Lemma CanNodeHostPodOnGpuMemory_monotone_witness :
  int64_min < GpuNumber MoreExamples.wholeGpuRequest <= int64_max /\
  int64_min < GpuNumber MoreExamples.smallRequest <= int64_max /\
  GpuNumber MoreExamples.smallRequest <= GpuNumber MoreExamples.wholeGpuRequest /\
  MilliGpu MoreExamples.smallRequest <= MilliGpu MoreExamples.wholeGpuRequest /\
  Forall2 Z.le (MilliGpuLeftList Examples.twoGpuNode) (MilliGpuLeftList Examples.twoGpuNode) /\
  CanNodeHostPodOnGpuMemory Examples.twoGpuNode MoreExamples.wholeGpuRequest = true /\
  CanNodeHostPodOnGpuMemory Examples.twoGpuNode MoreExamples.smallRequest = true.
Proof.
  assert (H1 : int64_min < GpuNumber MoreExamples.wholeGpuRequest <= int64_max)
    by (simpl; unfold int64_min, int64_max; lia).
  assert (H2 : int64_min < GpuNumber MoreExamples.smallRequest <= int64_max)
    by (simpl; unfold int64_min, int64_max; lia).
  assert (H3 : GpuNumber MoreExamples.smallRequest <= GpuNumber MoreExamples.wholeGpuRequest)
    by (simpl; lia).
  assert (H4 : MilliGpu MoreExamples.smallRequest <= MilliGpu MoreExamples.wholeGpuRequest)
    by (simpl; lia).
  assert (H5 : Forall2 Z.le (MilliGpuLeftList Examples.twoGpuNode)
                            (MilliGpuLeftList Examples.twoGpuNode))
    by (repeat constructor; lia).
  repeat (split; [assumption|]). split; [reflexivity|].
  exact (CanNodeHostPodOnGpuMemory_monotone Examples.twoGpuNode Examples.twoGpuNode
           MoreExamples.wholeGpuRequest MoreExamples.smallRequest
           H1 H2 H3 H4 H5 eq_refl).
Defined.

(** ** [NodeGpuFragBasedOnSkyline] *)

(** A skyline pod fits on the node: its CPU request and, on enough GPUs, its
    GPU request. *)
Definition skylinePodFits (nodeRes : NodeResource) (podRes : PodResource) : Prop :=
  MilliCpu podRes <= MilliCpuLeft nodeRes /\
  Z.max 1 (GpuNumber podRes) <= gpusAtLeast (MilliGpu podRes) (MilliGpuLeftList nodeRes).

(** [NodeGpuFragBasedOnSkyline] is all or nothing: 0 when some skyline pod
    fits on the node, and otherwise all the GPU millis the node has left, so
    with an empty skyline every node counts as wasted. *)
Theorem NodeGpuFragBasedOnSkyline_all_or_nothing (nodeRes : NodeResource)
    (skylinePods : list PodResource) :
  Forall (fun p => int64_min < GpuNumber p <= int64_max) skylinePods ->
  ((exists p, p ∈ skylinePods /\ skylinePodFits nodeRes p) ->
   NodeGpuFragBasedOnSkyline nodeRes skylinePods = 0) /\
  ((forall p, p ∈ skylinePods -> ~ skylinePodFits nodeRes p) ->
   NodeGpuFragBasedOnSkyline nodeRes skylinePods = GetGpuMilliLeftTotal nodeRes) /\
  NodeGpuFragBasedOnSkyline nodeRes [] = GetGpuMilliLeftTotal nodeRes.
Proof.
  intros Hrange. unfold NodeGpuFragBasedOnSkyline.
  assert (Hfit : forall p, p ∈ skylinePods ->
            ((MilliCpuLeft nodeRes >=? MilliCpu p) && CanNodeHostPodOnGpuMemory nodeRes p = true
             <-> skylinePodFits nodeRes p)).
  { intros p Hp. rewrite Forall_forall in Hrange. specialize (Hrange p Hp).
    unfold skylinePodFits, CanNodeHostPodOnGpuMemory.
    rewrite andb_true_iff, (canHostLoop_spec _ _ _ Hrange), Z.geb_le. reflexivity. }
  split; [|split; [|reflexivity]].
  - intros (p & Hp & Hf).
    assert (H : existsb (fun podRes => (MilliCpuLeft nodeRes >=? MilliCpu podRes)
                                       && CanNodeHostPodOnGpuMemory nodeRes podRes)
                        skylinePods = true).
    { apply existsb_exists. exists p. split; [apply list_elem_of_In, Hp|].
      apply Hfit; assumption. }
    rewrite H. reflexivity.
  - intros Hnone.
    destruct (existsb _ skylinePods) eqn:H; [|reflexivity].
    apply existsb_exists in H as (p & Hp & Hf). apply list_elem_of_In in Hp.
    exfalso. apply (Hnone p Hp). apply Hfit; assumption.
Qed.

Lemma NodeGpuFragBasedOnSkyline_all_or_nothing_witness :
  Forall (fun p => int64_min < GpuNumber p <= int64_max)
         [MoreExamples.smallRequest; MoreExamples.wholeGpuRequest] /\
  NodeGpuFragBasedOnSkyline Examples.twoGpuNode
    [MoreExamples.smallRequest; MoreExamples.wholeGpuRequest] = 0.
Proof.
  assert (H : Forall (fun p => int64_min < GpuNumber p <= int64_max)
                     [MoreExamples.smallRequest; MoreExamples.wholeGpuRequest]).
  { repeat constructor; simpl; unfold int64_min, int64_max; lia. }
  split; [exact H|].
  apply (proj1 (NodeGpuFragBasedOnSkyline_all_or_nothing Examples.twoGpuNode _ H)).
  exists MoreExamples.smallRequest. split; [apply list_elem_of_here|].
  unfold skylinePodFits. split; [simpl; lia|]. vm_compute. discriminate.
Defined.

(** ** The skyline covers the workload *)

Lemma skylineSweep_covers (podResList : list PodResource) : forall skylinePods,
  StronglySorted cpuGpuLe podResList ->
  (forall top x, last skylinePods = Some top -> x ∈ podResList -> cpuGpuLe top x) ->
  (forall q, q ∈ skylinePods -> q ∈ skylineSweep skylinePods podResList) /\
  (forall q, q ∈ skylineSweep skylinePods podResList ->
             q ∈ skylinePods \/ q ∈ podResList) /\
  (forall x, x ∈ podResList ->
             exists q, q ∈ skylineSweep skylinePods podResList /\ fitsWhenever q x).
Proof.
  induction podResList as [|p rest IH]; intros sky Hsorted Htop.
  - simpl. split; [auto|]. split; [auto|]. intros x Hx. apply elem_of_nil in Hx. contradiction.
  - apply StronglySorted_cons in Hsorted as [Hp Hrest]. rewrite Forall_forall in Hp.
    assert (Haccept : forall sky',
              sky' = sky ++ [p] ->
              (forall q, q ∈ sky -> q ∈ skylineSweep sky' rest) /\
              (forall q, q ∈ skylineSweep sky' rest -> q ∈ sky \/ q ∈ p :: rest) /\
              (forall x, x ∈ p :: rest ->
                         exists q, q ∈ skylineSweep sky' rest /\ fitsWhenever q x)).
    { intros sky' ->.
      destruct (IH (sky ++ [p]) Hrest) as (Hin & Hout & Hcov).
      { intros top x Hl Hx. rewrite last_snoc in Hl. injection Hl as <-. apply Hp, Hx. }
      split; [intros q Hq; apply Hin, elem_of_app; left; exact Hq|].
      split.
      { intros q Hq. destruct (Hout q Hq) as [H | H].
        - apply elem_of_app in H as [H | H]; [left; exact H|].
          right. apply list_elem_of_singleton in H as ->. apply list_elem_of_here.
        - right. apply list_elem_of_further, H. }
      intros x Hx. apply elem_of_cons in Hx as [-> | Hx]; [|apply Hcov, Hx].
      exists p. split; [|unfold fitsWhenever; lia].
      apply Hin, elem_of_app. right. apply list_elem_of_here. }
    simpl. destruct (last sky) as [top|] eqn:Hlast; [|apply Haccept; reflexivity].
    destruct ((MilliCpu p >? MilliCpu top) && (MilliGpu p <? MilliGpu top)) eqn:E;
      [apply Haccept; reflexivity|].
    destruct (IH sky Hrest) as (Hin & Hout & Hcov).
    { intros top' x Hl Hx. rewrite Hlast in Hl. apply (Htop top' x Hl).
      apply list_elem_of_further, Hx. }
    split; [exact Hin|]. split.
    { intros q Hq. destruct (Hout q Hq) as [H | H]; [left; exact H|].
      right. apply list_elem_of_further, H. }
    intros x Hx. apply elem_of_cons in Hx as [-> | Hx]; [|apply Hcov, Hx].
    exists top. split.
    + apply Hin. apply last_Some in Hlast as [sky' ->].
      apply elem_of_app. right. apply list_elem_of_here.
    + pose proof (Htop top p eq_refl ltac:(apply list_elem_of_here)) as Hle.
      apply andb_false_iff in E. unfold cpuGpuLe in Hle. unfold fitsWhenever.
      destruct E as [E | E]; [rewrite Z.gtb_ltb in E|]; apply Z.ltb_ge in E; lia.
Qed.

Section SkylineCovers.

Variable Pod : Type.
Variable GetPodResource : Pod -> PodResource.

(** The skyline is drawn from the workload and covers it: every skyline pod
    is the request of some workload pod, and for every workload pod there is
    a skyline pod that asks for no more CPU and no more GPU millis.  An empty
    workload has an empty skyline. *)
Theorem GetSkylinePods_covers_workload (allPods : list Pod) :
  (forall q, q ∈ GetSkylinePods Pod GetPodResource allPods ->
             exists p, p ∈ allPods /\ q = GetPodResource p) /\
  (forall p, p ∈ allPods ->
             exists q, q ∈ GetSkylinePods Pod GetPodResource allPods /\
                       fitsWhenever q (GetPodResource p)) /\
  GetSkylinePods Pod GetPodResource [] = [].
Proof.
  unfold GetSkylinePods.
  pose proof (SliceStable_Permutation skylineLess (map GetPodResource allPods)) as Hperm.
  assert (Hsorted : StronglySorted cpuGpuLe
                      (SliceStable skylineLess (map GetPodResource allPods))).
  { apply Sorted_StronglySorted; [exact cpuGpuLe_trans|].
    apply SliceStable_Sorted; [apply skylineLess_cpuGpuLe | apply not_skylineLess_cpuGpuLe]. }
  destruct (skylineSweep_covers _ [] Hsorted) as (_ & Hout & Hcov).
  { intros top x Hl. discriminate Hl. }
  split; [|split; [|reflexivity]].
  - intros q Hq. destruct (Hout q Hq) as [H | H]; [apply elem_of_nil in H; contradiction|].
    rewrite Hperm in H. apply list_elem_of_fmap in H as (p & -> & Hp). eauto.
  - intros p Hp. apply Hcov. rewrite Hperm. apply list_elem_of_fmap. eauto.
Qed.

End SkylineCovers.

(** ** The distiller on a workload without counted pods *)

(** The expected number of pods of an empty count is never above zero. *)
Lemma zero_total_expectation (x : float) : (0 <? x * 0 / 100)%float = false.
Proof.
  rewrite ltb_spec, div_spec, mul_spec.
  change (Prim2SF 0%float) with (S754_zero false).
  change (Prim2SF 100%float) with (S754_finite false 7036874417766400 (-46)).
  unfold SFltb.
  destruct (Prim2SF x) as [s|s| |s m e]; simpl; try reflexivity; destruct s; reflexivity.
Qed.

Section DistillerEdge.

Variable Pod : Type.
Variable GetPodResource : Pod -> PodResource.
Variable DefaultTypicalPodPopularityThreshold : Z.
Variable DefaultTypicalPodIncreaseStep : Z.
Variable rangeOver : gmap PodResource float -> list (PodResource * float).

(** When no pod is counted (an empty workload, or CPU-only pods while
    [IsInvolvedCpuPods] is off) [GetTypicalPods] returns the empty list after
    a single test of the loop condition, whatever the thresholds are. *)
Theorem GetTypicalPods_nothing_counted (fuel : nat) (allPods : list Pod)
    (config : TypicalPodsConfig) :
  isRangeOrder rangeOver ->
  Forall (fun pod => IsInvolvedCpuPods config = false /\
                     GpuNumber (GetPodResource pod) = 0) allPods ->
  GetTypicalPods Pod GetPodResource DefaultTypicalPodPopularityThreshold
    DefaultTypicalPodIncreaseStep rangeOver (S fuel) allPods config = Some [].
Proof.
  intros Hrange Hall. unfold GetTypicalPods.
  assert (Hcount : forall st, foldl (countPod Pod GetPodResource config) st allPods = st).
  { induction Hall as [|pod pods [Hcfg Hgpu] Hpods IH]; intros st; [reflexivity|].
    simpl. rewrite <- (IH st) at 2. f_equal.
    unfold countPod. destruct st as [m total]. rewrite Hcfg, Hgpu. reflexivity. }
  rewrite Hcount. unfold SortTargetPodInDecreasingCount.
  pose proof (Hrange ∅) as Hp. rewrite map_to_list_empty in Hp.
  apply Permutation_nil_r in Hp. rewrite Hp. simpl.
  destruct (PodPopularityThreshold config >? 0); simpl;
    rewrite zero_total_expectation; reflexivity.
Qed.

End DistillerEdge.

Lemma GetTypicalPods_nothing_counted_witness :
  isRangeOrder DistillerExamples.rangeForward /\
  Forall (fun pod => IsInvolvedCpuPods MoreDistillerExamples.gpuOnlyConfig = false /\
                     GpuNumber pod = 0)
         [MoreDistillerExamples.cpuPodA; MoreDistillerExamples.cpuPodB] /\
  GetTypicalPods PodResource (fun p => p) 60 1 DistillerExamples.rangeForward 1
    [MoreDistillerExamples.cpuPodA; MoreDistillerExamples.cpuPodB]
    MoreDistillerExamples.gpuOnlyConfig = Some [].
Proof.
  assert (H : Forall (fun pod => IsInvolvedCpuPods MoreDistillerExamples.gpuOnlyConfig = false /\
                                 GpuNumber pod = 0)
                     [MoreDistillerExamples.cpuPodA; MoreDistillerExamples.cpuPodB]).
  { repeat constructor. }
  split; [apply rangeForward_isRangeOrder|]. split; [exact H|].
  exact (GetTypicalPods_nothing_counted PodResource (fun p => p) 60 1
           DistillerExamples.rangeForward 0 _ _ rangeForward_isRangeOrder H).
Defined.

(** ** The typical pods are the head of the ranking *)

Lemma selectInner_shapes (k : nat) (total : float) : forall st,
  map TargetPodResource (sel_tgtPodList (selectInner k total st))
  = map TargetPodResource (sel_tgtPodList st).
Proof.
  induction k as [|k IH]; intros st; simpl; [reflexivity|].
  destruct (_ && _); [|reflexivity].
  destruct (sel_tgtPodList st !! Z.to_nat (sel_i st)) as [tp|] eqn:Htp; [|reflexivity].
  rewrite IH. simpl.
  change (map TargetPodResource) with (fmap (M := list) TargetPodResource).
  unfold TargetPodList in *.
  rewrite list_fmap_insert. simpl. apply list_insert_id.
  rewrite list_lookup_fmap, Htp. reflexivity.
Qed.

Lemma selectOuter_shapes (fuel : nat) (step : Z) (total expectedNumPods : float) :
  forall st st',
  selectOuter fuel step total expectedNumPods st = Some st' ->
  map TargetPodResource (sel_tgtPodList st') = map TargetPodResource (sel_tgtPodList st).
Proof.
  induction fuel as [|fuel IH]; intros st st' H; simpl in H; [discriminate H|].
  destruct (_ <? _)%float.
  - rewrite (IH _ _ H), selectInner_shapes. reflexivity.
  - inversion H; subst. reflexivity.
Qed.

Section DistillerPrefix.

Variable Pod : Type.
Variable GetPodResource : Pod -> PodResource.
Variable DefaultTypicalPodPopularityThreshold : Z.
Variable DefaultTypicalPodIncreaseStep : Z.
Variable rangeOver : gmap PodResource float -> list (PodResource * float).

(** [GetTypicalPods] hands the ranking of [SortTargetPodInDecreasingCount]
    and the total of the weighted counts to its selection loops; and
    whatever these loops return, on a ranking of any length, is the head of
    that ranking: the same pod shapes in the same order, none dropped from
    the middle, none repeated, none invented (only the percentages are
    rescaled). *)
Theorem GetTypicalPods_selection_is_head_of_ranking (fuel : nat)
    (config : TypicalPodsConfig) :
  (forall allPods : list Pod,
     GetTypicalPods Pod GetPodResource DefaultTypicalPodPopularityThreshold
       DefaultTypicalPodIncreaseStep rangeOver fuel allPods config
     = match SortTargetPodInDecreasingCount rangeOver
               (fst (foldl (countPod Pod GetPodResource config) (∅, 0%float) allPods)) with
       | Some ranking =>
           selectTypicalPods DefaultTypicalPodPopularityThreshold
             DefaultTypicalPodIncreaseStep fuel config
             (snd (foldl (countPod Pod GetPodResource config) (∅, 0%float) allPods)) ranking
       | None => None
       end) /\
  (forall (total : float) (ranking out : list TargetPod),
     selectTypicalPods DefaultTypicalPodPopularityThreshold
       DefaultTypicalPodIncreaseStep fuel config total ranking = Some out ->
     (length out <= length ranking)%nat /\
     map TargetPodResource out = take (length out) (map TargetPodResource ranking)).
Proof.
  split.
  - intros allPods. unfold GetTypicalPods, selectTypicalPods.
    destruct (foldl _ _ allPods) as [counts total]. reflexivity.
  - intros total ranking out. unfold selectTypicalPods.
    match goal with
    | |- context [selectOuter fuel ?step total ?e ?st0] =>
        destruct (selectOuter fuel step total e st0) as [st|] eqn:Hsel; [|discriminate]
    end.
    apply selectOuter_shapes in Hsel. simpl in Hsel.
    assert (Hlen : length (sel_tgtPodList st) = length ranking).
    { rewrite <- (length_map TargetPodResource), Hsel, length_map. reflexivity. }
    intros H. unfold TargetPodList in *.
    destruct (_ >=? _).
    + inversion H; subst. split; [lia|].
      rewrite Hsel, Hlen. symmetry. apply take_ge. rewrite length_map. lia.
    + inversion H; subst. rewrite !length_map, length_take. split; [lia|].
      rewrite map_map. simpl. rewrite <- Hsel.
      rewrite <- (length_map TargetPodResource (sel_tgtPodList st)).
      rewrite <- take_take, firstn_all, firstn_map. reflexivity.
Qed.

End DistillerPrefix.

Lemma GetTypicalPods_selection_is_head_of_ranking_witness :
  (12 < length MoreDistillerExamples.longRanking)%nat /\
  match selectTypicalPods 60 1 20 MoreDistillerExamples.halfConfig 91
          MoreDistillerExamples.longRanking with
  | Some out =>
      (0 < length out <= length MoreDistillerExamples.longRanking)%nat /\
      map TargetPodResource out
      = take (length out) (map TargetPodResource MoreDistillerExamples.longRanking)
  | None => False
  end.
Proof.
  split; [vm_compute; lia|].
  destruct (selectTypicalPods 60 1 20 MoreDistillerExamples.halfConfig 91
              MoreDistillerExamples.longRanking) as [out|] eqn:E.
  - destruct (proj2 (GetTypicalPods_selection_is_head_of_ranking PodResource (fun p => p)
                       60 1 DistillerExamples.rangeForward 20
                       MoreDistillerExamples.halfConfig) _ _ _ E) as [Hle Hhead].
    split; [|exact Hhead]. split; [|exact Hle].
    assert (Hn : match selectTypicalPods 60 1 20 MoreDistillerExamples.halfConfig 91
                         MoreDistillerExamples.longRanking with
                 | Some l => length l
                 | None => 0%nat
                 end = 4%nat) by (vm_compute; reflexivity).
    rewrite E in Hn. rewrite Hn. lia.
  - apply (f_equal (fun r => match r with Some _ => true | None => false end)) in E.
    vm_compute in E. discriminate E.
Defined.

(** ** The sort of the weighted counts *)

Lemma SFltb_trans x y z : SFltb x y = true -> SFltb y z = true -> SFltb x z = true.
Proof.
  unfold SFltb. intros Hxy Hyz.
  destruct x as [sx|[|]| |[|] mx ex]; destruct y as [sy|[|]| |[|] my ey];
    simpl in Hxy; try discriminate Hxy;
    destruct z as [sz|[|]| |[|] mz ez]; simpl in Hyz |- *; try discriminate Hyz;
    try reflexivity;
    float_order_cases; simpl in *; try discriminate; try reflexivity; subst; lia.
Qed.

Lemma moveLeft_Permutation {A : Type} (less : A -> A -> bool) (x : A) (l : list A) :
  moveLeft less x l ≡ₚ x :: l.
Proof.
  induction l as [|y l IH]; simpl; [reflexivity|].
  destruct (less x y); [|reflexivity].
  rewrite IH. apply Permutation_swap.
Qed.

Lemma insertionSort_Permutation {A : Type} (less : A -> A -> bool) (l : list A) :
  insertionSort less l ≡ₚ l.
Proof.
  unfold insertionSort.
  assert (H : forall acc, foldl (fun revPrefix x => moveLeft less x revPrefix) acc l
                          ≡ₚ l ++ acc).
  { induction l as [|x l IH]; intros acc; simpl; [reflexivity|].
    rewrite IH, moveLeft_Permutation. symmetry. apply Permutation_middle. }
  rewrite <- Permutation_rev, H, app_nil_r. reflexivity.
Qed.

Section InsertionSortSorted.

Context {A : Type} (less : A -> A -> bool).
Hypothesis less_trans : forall x y z, less x y = true -> less y z = true -> less x z = true.

(** [x] and [y] are strictly ordered, one way or the other. *)
Definition ordered (x y : A) : Prop := less x y = true \/ less y x = true.

Definition lessAfter (x y : A) : Prop := less y x = true.

Lemma moveLeft_sorted (x : A) (l : list A) :
  StronglySorted lessAfter l -> Forall (ordered x) l ->
  StronglySorted lessAfter (moveLeft less x l).
Proof.
  induction l as [|y l IH]; intros Hs Hx; simpl.
  - constructor; constructor.
  - apply StronglySorted_inv in Hs as [Hs Hy]. apply Forall_cons in Hx as [Hxy Hx].
    destruct (less x y) eqn:E.
    + constructor; [apply IH; assumption|].
      rewrite moveLeft_Permutation. constructor; [exact E | exact Hy].
    + destruct Hxy as [Hxy | Hyx]; [rewrite Hxy in E; discriminate E|].
      constructor; [constructor; assumption|].
      constructor; [exact Hyx|].
      eapply Forall_impl; [exact Hy|]. intros z Hz. unfold lessAfter in *.
      eapply less_trans; eassumption.
Qed.

Lemma StronglySorted_rev (l : list A) :
  StronglySorted lessAfter l -> StronglySorted (fun a b => less a b = true) (rev l).
Proof.
  induction 1 as [|x l Hs IH Hx]; simpl; [constructor|].
  apply StronglySorted_app_2; [| exact IH | constructor; constructor].
  intros a b Ha Hb. apply list_elem_of_singleton in Hb as ->.
  apply list_elem_of_In in Ha. apply in_rev in Ha. apply list_elem_of_In in Ha.
  rewrite Forall_forall in Hx. exact (Hx a Ha).
Qed.

Lemma insertionSort_sorted (l : list A) :
  ForallOrdPairs ordered l ->
  StronglySorted (fun a b => less a b = true) (insertionSort less l).
Proof.
  intros Hl. unfold insertionSort. apply StronglySorted_rev.
  assert (H : forall acc, StronglySorted lessAfter acc ->
                          Forall (fun y => Forall (ordered y) acc) l ->
            StronglySorted lessAfter
              (foldl (fun revPrefix x => moveLeft less x revPrefix) acc l)).
  { induction Hl as [|x l Hx Hl IH]; intros acc Hacc Hall; simpl; [exact Hacc|].
    apply Forall_cons in Hall as [Hxacc Hall].
    apply IH.
    - apply moveLeft_sorted; assumption.
    - rewrite Forall_forall in Hall, Hx. apply Forall_forall. intros y Hy.
      rewrite moveLeft_Permutation. constructor; [|exact (Hall y Hy)].
      destruct (Hx y) as [H | H]; [exact Hy | right; exact H | left; exact H]. }
  apply H; [constructor|]. apply Forall_forall. intros; constructor.
Qed.

End InsertionSortSorted.

(** The order [sort.Sort] is given in [SortTargetPodInDecreasingCount]. *)
Definition countAbove (a b : TargetPod) : bool := targetPodLess b a.

Lemma countAbove_trans x y z :
  countAbove x y = true -> countAbove y z = true -> countAbove x z = true.
Proof.
  unfold countAbove, targetPodLess. rewrite !ltb_spec. intros Hxy Hyz.
  exact (SFltb_trans _ _ _ Hyz Hxy).
Qed.

Lemma countAbove_asym x y : countAbove x y = true -> countAbove y x = true -> False.
Proof.
  unfold countAbove, targetPodLess. rewrite !ltb_spec. intros Hxy Hyx.
  rewrite (SFltb_asym _ _ Hxy) in Hyx. discriminate Hyx.
Qed.

(** The counts of a map are pairwise different and comparable (no NaN). *)
Definition distinctCounts (m : gmap PodResource float) : Prop :=
  forall k1 k2 v1 v2, k1 <> k2 -> m !! k1 = Some v1 -> m !! k2 = Some v2 ->
    (v1 <? v2)%float = true \/ (v2 <? v1)%float = true.

Lemma entries_ordered (m : gmap PodResource float) (l : list (PodResource * float)) :
  distinctCounts m -> NoDup l.*1 -> (forall kv, kv ∈ l -> m !! kv.1 = Some kv.2) ->
  ForallOrdPairs (ordered countAbove) (map (fun kv => mkTargetPod kv.1 kv.2) l).
Proof.
  intros Hm. induction l as [|[k v] l IH]; intros Hnd Hl; simpl; [constructor|].
  rewrite fmap_cons in Hnd. apply NoDup_cons in Hnd as [Hk Hnd].
  constructor.
  - apply Forall_forall. intros tp Htp. apply list_elem_of_fmap in Htp as [[k' v'] [-> Hkv]].
    unfold ordered, countAbove, targetPodLess. simpl.
    apply (Hm k' k v' v).
    + intros ->. apply Hk. apply list_elem_of_fmap. exists (k, v'). split; [reflexivity | exact Hkv].
    + apply (Hl (k', v')). right. exact Hkv.
    + apply (Hl (k, v)). left.
  - apply IH; [exact Hnd|]. intros kv Hkv. apply Hl. right. exact Hkv.
Qed.

Section SortDeterministic.

Variable rangeOver : gmap PodResource float -> list (PodResource * float).
Hypothesis rangeOver_order : isRangeOrder rangeOver.

Lemma SortTargetPodInDecreasingCount_sorted (m : gmap PodResource float) :
  (size m <= 12)%nat -> distinctCounts m ->
  exists pl, SortTargetPodInDecreasingCount rangeOver m = Some pl /\
             pl ≡ₚ map (fun kv => mkTargetPod kv.1 kv.2) (map_to_list m) /\
             StronglySorted (fun a b => countAbove a b = true) pl.
Proof.
  intros Hsize Hm. unfold SortTargetPodInDecreasingCount, sortSort.
  pose proof (rangeOver_order m) as Hp.
  rewrite length_map, (Permutation_length Hp), length_map_to_list.
  apply Nat.leb_le in Hsize. rewrite Hsize.
  eexists. split; [reflexivity|]. split.
  - rewrite insertionSort_Permutation, Hp. reflexivity.
  - apply insertionSort_sorted; [exact countAbove_trans|].
    apply (entries_ordered m); [exact Hm | |].
    + rewrite Hp. apply NoDup_fst_map_to_list.
    + intros [k v] Hkv. rewrite Hp in Hkv. apply elem_of_map_to_list in Hkv. exact Hkv.
Qed.

End SortDeterministic.

(** With at most 12 pod shapes whose weighted counts are pairwise different,
    [SortTargetPodInDecreasingCount] gives the same list under every
    iteration order of the map: the entries of the map, in strictly
    decreasing count. *)
Theorem SortTargetPodInDecreasingCount_distinct_counts
    (range1 range2 : gmap PodResource float -> list (PodResource * float))
    (m : gmap PodResource float) :
  isRangeOrder range1 -> isRangeOrder range2 ->
  (size m <= 12)%nat -> distinctCounts m ->
  exists pl,
    SortTargetPodInDecreasingCount range1 m = Some pl /\
    SortTargetPodInDecreasingCount range2 m = Some pl /\
    pl ≡ₚ map (fun kv => mkTargetPod kv.1 kv.2) (map_to_list m) /\
    StronglySorted (fun a b => (Percentage b <? Percentage a)%float = true) pl.
Proof.
  intros H1 H2 Hsize Hm.
  destruct (SortTargetPodInDecreasingCount_sorted range1 H1 m Hsize Hm) as (pl1 & E1 & P1 & S1).
  destruct (SortTargetPodInDecreasingCount_sorted range2 H2 m Hsize Hm) as (pl2 & E2 & P2 & S2).
  assert (pl2 = pl1) as ->.
  { apply (StronglySorted_unique_strong (fun a b => countAbove a b = true)).
    - intros x1 x2 _ _ Hx Hy. destruct (countAbove_asym _ _ Hx Hy).
    - exact S2.
    - exact S1.
    - rewrite P1, P2. reflexivity. }
  exists pl1. split; [exact E1|]. split; [exact E2|]. split; [exact P1 | exact S1].
Qed.

Lemma SortTargetPodInDecreasingCount_distinct_counts_witness :
  exists pl,
    SortTargetPodInDecreasingCount DistillerExamples.rangeForward
      MoreDistillerExamples.distinctCounts = Some pl /\
    SortTargetPodInDecreasingCount DistillerExamples.rangeBackward
      MoreDistillerExamples.distinctCounts = Some pl /\
    pl ≡ₚ map (fun kv => mkTargetPod kv.1 kv.2)
            (map_to_list MoreDistillerExamples.distinctCounts) /\
    StronglySorted (fun a b => (Percentage b <? Percentage a)%float = true) pl.
Proof.
  apply (SortTargetPodInDecreasingCount_distinct_counts
           DistillerExamples.rangeForward DistillerExamples.rangeBackward
           MoreDistillerExamples.distinctCounts
           rangeForward_isRangeOrder rangeBackward_isRangeOrder).
  - vm_compute. lia.
  - intros k1 k2 v1 v2 Hne. unfold MoreDistillerExamples.distinctCounts.
    rewrite !lookup_insert_Some, !lookup_singleton_Some.
    intros [[<- <-] | [_ [[<- <-] | [_ [<- <-]]]]] [[<- <-] | [_ [[<- <-] | [_ [<- <-]]]]];
      try (destruct (Hne eq_refl)); vm_compute; auto.
Defined.

(** ** [FragAmount.AddGamma]: errors and sharing *)

Lemma addGammaLoop_frame (data other : Store.slice) (gamma : float) (a : Store.loc)
    (idx : list nat) : forall st st',
  Store.sl_array data = Some a ->
  Store.addGammaLoop st data other gamma idx = Some st' ->
  forall c, c <> a -> st' !! c = st !! c.
Proof.
  induction idx as [|i idx IH]; intros st st' Ha H c Hc; simpl in H.
  - inversion H; subst. reflexivity.
  - destruct (Store.sliceGet st data i) as [x|]; [|discriminate H].
    destruct (Store.sliceGet st other i) as [y|]; [|discriminate H].
    destruct (Store.sliceSet st data i _) as [st1|] eqn:Hset; [|discriminate H].
    rewrite (IH _ _ Ha H c Hc).
    unfold Store.sliceSet in Hset. rewrite Ha in Hset.
    destruct (_ <? _)%nat; [|discriminate Hset].
    destruct (st !! a) as [arr|]; [|discriminate Hset].
    inversion Hset; subst. apply lookup_insert_ne. congruence.
Qed.

(** On a receiver that has entries, [AddGamma] works in place: it returns
    [nil], every entry read through the caller's [fa.Data] is its old value
    plus [gamma] times the entry of the other vector (also when both are the
    same vector), and no other array of the store changes. *)
Theorem AddGamma_adds_in_place (st : Store.store) (fa faOther : Store.FragAmount)
    (gamma : float) (a b : Store.loc) (n : nat) (A B : list float) :
  Store.Data fa = Store.mkSlice (Some a) n ->
  Store.Data faOther = Store.mkSlice (Some b) n ->
  (0 < n)%nat ->
  st !! a = Some A -> st !! b = Some B ->
  (n <= length A)%nat -> (n <= length B)%nat ->
  exists st',
    Store.AddGamma st fa faOther gamma = Some (None, st') /\
    (forall i x y, (i < n)%nat -> A !! i = Some x -> B !! i = Some y ->
       Store.sliceGet st' (Store.Data fa) i = Some (x + gamma * y)%float) /\
    (forall c, c <> a -> st' !! c = st !! c).
Proof.
  intros Hfa Hother Hn HA HB HlenA HlenB.
  unfold Store.AddGamma. rewrite Hfa, Hother. cbn [Store.sl_len].
  destruct (Nat.eqb_spec n 0); [lia|].
  rewrite Nat.eqb_refl. cbn [negb Store.sl_len].
  destruct (addGammaLoop_inv a b n gamma st A B HA HB HlenA HlenB n 0 st eq_refl)
    as (st' & Hloop & (A' & HA' & Hlen & Hdone & _)).
  { exists A. split; [exact HA|]. split; [reflexivity|].
    split; [intros; lia|]. split; [reflexivity|]. intros _. exact HB. }
  rewrite Hloop. exists st'. split; [reflexivity|]. split.
  - intros i x y Hi Hx Hy. unfold Store.sliceGet. simpl.
    destruct (Nat.ltb_spec i n); [|lia].
    rewrite HA'. exact (Hdone i x y Hi Hx Hy).
  - exact (addGammaLoop_frame (Store.mkSlice (Some a) n) _ _ a _ _ _ eq_refl Hloop).
Qed.

Lemma AddGamma_adds_in_place_witness :
  exists st',
    Store.AddGamma MoreStoreExamples.twoNodeStore StoreExamples.nodeAmount
      MoreStoreExamples.otherAmount 1 = Some (None, st') /\
    (forall i x y, (i < 7)%nat ->
       [1; 2; 0; 0; 0; 0; 0]%float !! i = Some x ->
       [0; 4; 0; 0; 0; 8; 0]%float !! i = Some y ->
       Store.sliceGet st' (Store.Data StoreExamples.nodeAmount) i = Some (x + 1 * y)%float) /\
    (forall c, c <> 0%nat -> st' !! c = MoreStoreExamples.twoNodeStore !! c).
Proof.
  assert (HlenA : (7 <= length [1; 2; 0; 0; 0; 0; 0]%float)%nat) by (simpl; lia).
  assert (HlenB : (7 <= length [0; 4; 0; 0; 0; 8; 0]%float)%nat) by (simpl; lia).
  assert (Hn : (0 < 7)%nat) by lia.
  exact (AddGamma_adds_in_place MoreStoreExamples.twoNodeStore StoreExamples.nodeAmount
           MoreStoreExamples.otherAmount 1%float 0%nat 1%nat 7%nat _ _
           eq_refl eq_refl Hn eq_refl eq_refl HlenA HlenB).
Defined.

(** The slice [s] is backed by an array of the store that is long enough. *)
Definition sliceBacked (st : Store.store) (s : Store.slice) : Prop :=
  Store.sl_len s = 0%nat \/
  exists a arr, Store.sl_array s = Some a /\ st !! a = Some arr /\
                (Store.sl_len s <= length arr)%nat.

(** The length [AddGamma] compares: an empty receiver counts as a vector of
    [len(FragRatioDataMap)] entries. *)
Definition receiverLen (fa : Store.FragAmount) : nat :=
  if (Store.sl_len (Store.Data fa) =? 0)%nat then size FragRatioDataMap
  else Store.sl_len (Store.Data fa).

(** [AddGamma] never panics on slices that are backed by the store; it
    returns an error exactly when the receiver's length (7 for an empty
    receiver) differs from the other vector's, and then every array of the
    caller's store is as it was. *)
Theorem AddGamma_error_iff_length_mismatch (st : Store.store)
    (fa faOther : Store.FragAmount) (gamma : float) :
  sliceBacked st (Store.Data fa) -> sliceBacked st (Store.Data faOther) ->
  exists err st',
    Store.AddGamma st fa faOther gamma = Some (err, st') /\
    (err = None <-> receiverLen fa = Store.sl_len (Store.Data faOther)) /\
    (err <> None -> forall a arr, st !! a = Some arr -> st' !! a = Some arr).
Proof.
  intros Hfa Hother. unfold Store.AddGamma, receiverLen.
  destruct fa as [name [arrA n]], faOther as [nameO [arrB k]]. simpl in *.
  destruct (Nat.eqb_spec n 0) as [-> | Hn];
    unfold Store.makeSlice; cbv beta iota zeta; cbn [Store.sl_len].
  - rewrite FragRatioDataMap_size.
    pose proof (is_fresh (dom st)) as Hfresh. apply not_elem_of_dom in Hfresh.
    destruct (Nat.eqb_spec 7 k) as [<- | Hk]; cbn [negb].
    + destruct Hother as [Hk | (b & B & Hb & HB & Hlen)]; [discriminate Hk|].
      simpl in Hb, Hlen. subst arrB.
      assert (Hne : fresh (dom st) <> b) by (intros E; rewrite E in Hfresh; congruence).
      destruct (addGammaLoop_inv (fresh (dom st)) b 7 gamma
                  (<[fresh (dom st) := replicate 7 0%float]> st)
                  (replicate 7 0%float) B
                  (lookup_insert_eq _ _ _)
                  ltac:(rewrite lookup_insert_ne by exact Hne; exact HB)
                  ltac:(simpl; lia) Hlen 7 0
                  (<[fresh (dom st) := replicate 7 0%float]> st) eq_refl)
        as (st' & Hloop & _).
      { exists (replicate 7 0%float). split; [apply lookup_insert_eq|].
        split; [reflexivity|]. split; [intros; lia|]. split; [reflexivity|].
        intros _. rewrite lookup_insert_ne by exact Hne. exact HB. }
      rewrite Hloop. exists None, st'. split; [reflexivity|].
      split; [tauto | congruence].
    + eexists _, _. split; [reflexivity|]. split.
      * split; [discriminate | intros E; destruct (Hk E)].
      * intros _ a arr Ha. rewrite lookup_insert_ne; [exact Ha|].
        intros E. rewrite E in Hfresh. congruence.
  - destruct (Nat.eqb_spec n k) as [<- | Hk]; cbn [negb].
    + destruct Hfa as [Hz | (a & A & Ha & HA & HlenA)]; [destruct (Hn Hz)|].
      destruct Hother as [Hz | (b & B & Hb & HB & HlenB)]; [destruct (Hn Hz)|].
      simpl in *. subst arrA arrB.
      destruct (addGammaLoop_inv a b n gamma st A B HA HB HlenA HlenB n 0 st eq_refl)
        as (st' & Hloop & _).
      { exists A. split; [exact HA|]. split; [reflexivity|].
        split; [intros; lia|]. split; [reflexivity|]. intros _. exact HB. }
      rewrite Hloop. exists None, st'. split; [reflexivity|].
      split; [tauto | congruence].
    + eexists _, _. split; [reflexivity|]. split.
      * split; [discriminate | intros E; destruct (Hk E)].
      * intros _ a arr Ha. exact Ha.
Qed.

Lemma AddGamma_error_iff_length_mismatch_witness :
  exists err st',
    Store.AddGamma MoreStoreExamples.twoNodeStore StoreExamples.nodeAmount
      MoreStoreExamples.shortAmount 1 = Some (err, st') /\
    (err = None <-> receiverLen StoreExamples.nodeAmount
                    = Store.sl_len (Store.Data MoreStoreExamples.shortAmount)) /\
    (err <> None -> forall a arr, MoreStoreExamples.twoNodeStore !! a = Some arr ->
                                  st' !! a = Some arr).
Proof.
  apply AddGamma_error_iff_length_mismatch.
  - right. exists 0%nat, [1; 2; 0; 0; 0; 0; 0]%float.
    split; [reflexivity|]. split; [reflexivity | simpl; lia].
  - right. exists 1%nat, [0; 4; 0; 0; 0; 8; 0]%float.
    split; [reflexivity|]. split; [reflexivity | simpl; lia].
Defined.

(** ** [NewFragAmount] *)

(** The slice [s] is nil, or a prefix of an array of the store. *)
Definition sliceValid (st : Store.store) (s : Store.slice) : Prop :=
  match Store.sl_array s with
  | None => Store.sl_len s = 0%nat
  | Some a => exists arr, st !! a = Some arr /\ (Store.sl_len s <= length arr)%nat
  end.

Lemma insert_copied (B : list float) (k m : nat) (x : float) :
  B !! k = Some x ->
  <[k := x]> (take k B ++ 0%float :: replicate m 0%float)
  = take (S k) B ++ replicate m 0%float.
Proof.
  intros Hx. pose proof (lookup_lt_Some _ _ _ Hx) as Hk.
  rewrite insert_app_r_alt by (rewrite length_take; lia).
  rewrite length_take, Nat.min_l, Nat.sub_diag by lia. simpl.
  rewrite (take_S_r _ _ _ Hx), <- app_assoc. reflexivity.
Qed.

Lemma copyLoop_fresh (st : Store.store) (a b n : nat) (B : list float) :
  st !! a = None -> st !! b = Some B -> (n <= length B)%nat ->
  forall m k, (k + m = n)%nat ->
    Store.copyLoop (<[a := take k B ++ replicate m 0%float]> st)
      (Store.mkSlice (Some a) n) (Store.mkSlice (Some b) n) (seq k m)
    = Some (<[a := take n B]> st).
Proof.
  intros Ha Hb Hn.
  assert (Hne : a <> b) by congruence.
  induction m as [|m IH]; intros k Hk; simpl.
  - replace k with n by lia. rewrite app_nil_r. reflexivity.
  - destruct (lookup_lt_is_Some_2 B k ltac:(lia)) as [x Hx].
    unfold Store.sliceGet, Store.sliceSet. simpl.
    destruct (Nat.ltb_spec k n); [|lia].
    rewrite lookup_insert_ne by exact Hne. rewrite Hb, Hx, lookup_insert_eq.
    rewrite insert_insert_eq, (insert_copied B k m x Hx).
    apply IH. lia.
Qed.

(** [NewFragAmount] never panics on a valid slice and returns a copy: the
    new vector has the node name given, the length and the elements of
    [data], and lives in an array that the caller's store did not have, so
    that nothing the caller could reach before has changed (and no later
    write through the copy can reach [data]). *)
Theorem NewFragAmount_is_a_copy (st : Store.store) (nodeName : string) (data : Store.slice) :
  sliceValid st data ->
  exists fa st' a,
    Store.NewFragAmount st nodeName data = Some (fa, st') /\
    Store.NodeName fa = nodeName /\
    Store.Data fa = Store.mkSlice (Some a) (Store.sl_len data) /\
    st !! a = None /\
    Store.sliceElems st' (Store.Data fa) = Store.sliceElems st data /\
    forall b, b <> a -> st' !! b = st !! b.
Proof.
  intros Hvalid. unfold Store.NewFragAmount, Store.makeSlice, Store.copy.
  pose proof (is_fresh (dom st)) as Hfresh. apply not_elem_of_dom in Hfresh.
  destruct data as [[b|] n]; unfold sliceValid in Hvalid; simpl in Hvalid.
  - destruct Hvalid as (B & Hb & Hn). cbn [Store.sl_len]. rewrite Nat.min_id.
    pose proof (copyLoop_fresh st (fresh (dom st)) b n B Hfresh Hb Hn n 0 eq_refl) as Hcopy.
    rewrite take_0 in Hcopy. simpl app in Hcopy. rewrite Hcopy.
    exists (Store.mkFragAmount nodeName (Store.mkSlice (Some (fresh (dom st))) n)),
           (<[fresh (dom st) := take n B]> st), (fresh (dom st)).
    split; [reflexivity|]. split; [reflexivity|]. split; [reflexivity|].
    split; [exact Hfresh|]. split.
    + unfold Store.sliceElems. simpl. rewrite lookup_insert_eq, Hb.
      rewrite take_take, Nat.min_id. reflexivity.
    + intros c Hc. rewrite lookup_insert_ne by congruence. reflexivity.
  - subst n. simpl.
    exists (Store.mkFragAmount nodeName (Store.mkSlice (Some (fresh (dom st))) 0)),
           (<[fresh (dom st) := []]> st), (fresh (dom st)).
    split; [reflexivity|]. split; [reflexivity|]. split; [reflexivity|].
    split; [exact Hfresh|]. split.
    + unfold Store.sliceElems. simpl. rewrite lookup_insert_eq. reflexivity.
    + intros c Hc. rewrite lookup_insert_ne by congruence. reflexivity.
Qed.

Lemma NewFragAmount_is_a_copy_witness :
  exists fa st' a,
    Store.NewFragAmount StoreExamples.nodeStore "copy"
      (Store.Data StoreExamples.nodeAmount) = Some (fa, st') /\
    Store.NodeName fa = "copy"%string /\
    Store.Data fa
    = Store.mkSlice (Some a) (Store.sl_len (Store.Data StoreExamples.nodeAmount)) /\
    StoreExamples.nodeStore !! a = None /\
    Store.sliceElems st' (Store.Data fa)
    = Store.sliceElems StoreExamples.nodeStore (Store.Data StoreExamples.nodeAmount) /\
    forall b, b <> a -> st' !! b = StoreExamples.nodeStore !! b.
Proof.
  apply NewFragAmount_is_a_copy.
  exists [1; 2; 0; 0; 0; 0; 0]%float. split; [reflexivity | simpl; lia].
Defined.

(** ** [NodeGpuFragBellman]: the memoization table *)

Section BellmanMemo.

Variable IsNodeAccessibleToPod : NodeResource -> PodResource -> bool.
Variable Flatten : NodeResource -> string -> string.
Variable Sub : NodeResource -> PodResource -> NodeResource * error.

Local Abbreviation bellmanOf := (NodeGpuFragBellman IsNodeAccessibleToPod Flatten Sub).

(** Every [float64] the table [dp] holds, [dp'] holds too. *)
Definition memoKept (dp dp' : gmap string dpValue) : Prop :=
  forall key frag, dpLoadFloat64 dp key = Some frag -> dpLoadFloat64 dp' key = Some frag.

Lemma memoKept_refl dp : memoKept dp dp.
Proof. intros key frag H. exact H. Qed.

Lemma memoKept_trans dp1 dp2 dp3 : memoKept dp1 dp2 -> memoKept dp2 dp3 -> memoKept dp1 dp3.
Proof. intros H12 H23 key frag H. apply H23, H12, H. Qed.

Lemma memoKept_store dp key frag :
  dpLoadFloat64 dp key = None -> memoKept dp (<[key := DpFloat64 frag]> dp).
Proof.
  intros Hmiss key' frag' H. unfold dpLoadFloat64 in *.
  destruct (decide (key = key')) as [<- | Hne].
  - rewrite H in Hmiss. discriminate Hmiss.
  - rewrite lookup_insert_ne by exact Hne. exact H.
Qed.

(** A run of [NodeGpuFragBellman] only adds to the table: a fragmentation
    value that was memoized before the call is still there afterwards, with
    the same value, however deep the recursion went. *)
Theorem NodeGpuFragBellman_keeps_memo (fuel : nat) : forall (nodeRes : NodeResource)
    (typicalPods : TargetPodList) (dp dp' : gmap string dpValue) (cumProb frag : float),
  bellmanOf fuel nodeRes typicalPods dp cumProb = Some (frag, dp') ->
  memoKept dp dp'.
Proof.
  induction fuel as [|fuel IH]; intros nodeRes typicalPods dp dp' cumProb frag H;
    [discriminate H|].
  simpl in H.
  destruct (dpLoadFloat64 dp (Flatten nodeRes "bellman")) as [hit|] eqn:Hmiss.
  { inversion H; subst. apply memoKept_refl. }
  destruct (_ =? 0)%float; [inversion H; subst; apply memoKept_refl|].
  destruct (_ <? 1)%float; [inversion H; subst; apply memoKept_refl|].
  destruct (NodeGpuFragRatio _ _ _) as [fragRatio|]; [|discriminate H].
  destruct (FragRatioSumExceptQ3 fragRatio) as [fragRatioValue|]; [|discriminate H].
  destruct (fragRatioValue <? delta)%float.
  - match type of H with
    | match ?loop typicalPods 0%float dp with _ => _ end = _ =>
        assert (Hloop : forall pods pvSum dp0 r dp1,
                   memoKept dp dp0 -> loop pods pvSum dp0 = Some (r, dp1) -> memoKept dp dp1);
        [|destruct (loop typicalPods 0%float dp) as [[pvSum dp1]|] eqn:E; [|discriminate H];
          specialize (Hloop _ _ _ _ _ (memoKept_refl dp) E)]
    end.
    + induction pods as [|pod pods IHpods]; intros pvSum dp0 r dp1 Hdp0 E.
      * inversion E; subst. exact Hdp0.
      * destruct (Sub nodeRes (TargetPodResource pod)) as [newNodeRes [e|]].
        -- exact (IHpods _ _ _ _ Hdp0 E).
        -- destruct (NodeGpuFragBellman _ _ _ fuel newNodeRes typicalPods dp0 _)
             as [[v dp2]|] eqn:Ev; [|discriminate E].
           apply (IHpods _ _ _ _ (memoKept_trans _ _ _ Hdp0 (IH _ _ _ _ _ _ Ev)) E).
    + inversion H; subst. intros key f Hk.
      pose proof (Hloop key f Hk) as Hk1. unfold dpLoadFloat64 in *.
      destruct (decide (Flatten nodeRes "bellman" = key)) as [<- | Hne].
      * rewrite Hk in Hmiss. discriminate Hmiss.
      * rewrite lookup_insert_ne by exact Hne. exact Hk1.
  - inversion H; subst. apply memoKept_store, Hmiss.
Qed.

(** A call that returned is stable: asked again with the table it left
    behind, [NodeGpuFragBellman] returns the same value and leaves the table
    as it is. *)
Theorem NodeGpuFragBellman_repeat_is_stable (fuel : nat) (nodeRes : NodeResource)
    (typicalPods : TargetPodList) (dp dp' : gmap string dpValue) (cumProb frag : float) :
  bellmanOf fuel nodeRes typicalPods dp cumProb = Some (frag, dp') ->
  bellmanOf fuel nodeRes typicalPods dp' cumProb = Some (frag, dp').
Proof.
  destruct fuel as [|fuel]; intros H; [discriminate H|].
  assert (Hstored : forall dp0 v, dp' = <[Flatten nodeRes "bellman" := DpFloat64 v]> dp0 ->
            frag = v ->
            bellmanOf (S fuel) nodeRes typicalPods dp' cumProb = Some (frag, dp')).
  { intros dp0 v -> ->. apply NodeGpuFragBellman_hit.
    unfold dpLoadFloat64. rewrite lookup_insert_eq. reflexivity. }
  pose proof H as H0. simpl in H.
  destruct (dpLoadFloat64 dp (Flatten nodeRes "bellman")) as [hit|] eqn:Hmiss.
  { inversion H; subst. exact H0. }
  destruct (_ =? 0)%float; [inversion H; subst; exact H0|].
  destruct (_ <? 1)%float; [inversion H; subst; exact H0|].
  destruct (NodeGpuFragRatio _ _ _) as [fragRatio|]; [|discriminate H].
  destruct (FragRatioSumExceptQ3 fragRatio) as [fragRatioValue|]; [|discriminate H].
  destruct (fragRatioValue <? delta)%float.
  - match type of H with
    | match ?loop with _ => _ end = _ => destruct loop as [[pvSum dp1]|]; [|discriminate H]
    end.
    apply (Hstored dp1 (0 + pvSum * gamma)%float); congruence.
  - apply (Hstored dp (float64_of_int64 (GetGpuMilliLeftTotal nodeRes))); congruence.
Qed.

End BellmanMemo.

Lemma NodeGpuFragBellman_keeps_memo_witness :
  match NodeGpuFragBellman SpecModel.IsNodeAccessibleToPod SpecModel.Flatten SpecModel.Sub 5
          Examples.idleGpuNode BellmanExamples.halfGpuWorkload BellmanExamples.memoTable 1 with
  | Some (_, dp') => memoKept BellmanExamples.memoTable dp'
  | None => False
  end.
Proof.
  destruct (NodeGpuFragBellman SpecModel.IsNodeAccessibleToPod SpecModel.Flatten SpecModel.Sub 5
              Examples.idleGpuNode BellmanExamples.halfGpuWorkload BellmanExamples.memoTable 1)
    as [[v dp']|] eqn:E.
  - exact (NodeGpuFragBellman_keeps_memo _ _ _ _ _ _ _ _ _ _ E).
  - apply (f_equal (fun r => match r with Some _ => true | None => false end)) in E.
    vm_compute in E. discriminate E.
Defined.

Lemma NodeGpuFragBellman_repeat_is_stable_witness :
  match NodeGpuFragBellman SpecModel.IsNodeAccessibleToPod SpecModel.Flatten SpecModel.Sub 5
          Examples.idleGpuNode BellmanExamples.halfGpuWorkload BellmanExamples.memoTable 1 with
  | Some (v, dp') =>
      NodeGpuFragBellman SpecModel.IsNodeAccessibleToPod SpecModel.Flatten SpecModel.Sub 5
        Examples.idleGpuNode BellmanExamples.halfGpuWorkload dp' 1 = Some (v, dp')
  | None => False
  end.
Proof.
  destruct (NodeGpuFragBellman SpecModel.IsNodeAccessibleToPod SpecModel.Flatten SpecModel.Sub 5
              Examples.idleGpuNode BellmanExamples.halfGpuWorkload BellmanExamples.memoTable 1)
    as [[v dp']|] eqn:E.
  - exact (NodeGpuFragBellman_repeat_is_stable _ _ _ _ _ _ _ _ _ _ E).
  - apply (f_equal (fun r => match r with Some _ => true | None => false end)) in E.
    vm_compute in E. discriminate E.
Defined.

(** ** [GreedQueue]: the order given to [sort.Sort] *)

(** The share of a pod is never negative and never NaN, whatever the
    requests and capacities are (a share that is NaN or negative never
    replaces the running maximum, which starts at 0). *)
Theorem calculatePodShare_not_negative (rangeOrder : list string)
    (greed : algo.GreedQueue) (pod : algo.Pod) :
  (0 <=? algo.calculatePodShare rangeOrder greed pod)%float = true.
Proof.
  assert (Hgood : goodMax (algo.calculatePodShare rangeOrder greed pod)).
  { unfold algo.calculatePodShare.
    destruct (size (algo.podReq pod) =? 0)%nat; [exact goodMax_zero|].
    exact (fmaxStep_foldl_good
             (fun r => algo.Share (default 0%float (algo.podReq pod !! r))
                                  (default 0%float (algo.totalResource greed !! r)))
             rangeOrder 0%float goodMax_zero). }
  rewrite leb_spec. change (Prim2SF 0%float) with (S754_zero false).
  destruct Hgood as [-> | Hpos]; [reflexivity|].
  unfold SFltb in Hpos. unfold SFleb.
  destruct (SFcompare (S754_zero false) _) as [[| |]|]; try discriminate Hpos; reflexivity.
Qed.

(** Among pods that are not bound to a node, [Less] is a strict order by
    decreasing share: no pod is less than itself, two pods are never less
    than each other, and [Less] is transitive. *)
Theorem GreedQueue_Less_strict_on_unbound (rangeOrder : list string)
    (greed : algo.GreedQueue) (i j k : nat) :
  Forall (fun pod => algo.NodeName pod = ""%string) (algo.pods greed) ->
  (i < length (algo.pods greed))%nat ->
  (j < length (algo.pods greed))%nat ->
  (k < length (algo.pods greed))%nat ->
  algo.Less rangeOrder greed i i = Some false /\
  (algo.Less rangeOrder greed i j = Some true ->
   algo.Less rangeOrder greed j i = Some false) /\
  (algo.Less rangeOrder greed i j = Some true ->
   algo.Less rangeOrder greed j k = Some true ->
   algo.Less rangeOrder greed i k = Some true).
Proof.
  intros Hunbound Hi Hj Hk.
  destruct (lookup_lt_is_Some_2 _ _ Hi) as [pi Hpi].
  destruct (lookup_lt_is_Some_2 _ _ Hj) as [pj Hpj].
  destruct (lookup_lt_is_Some_2 _ _ Hk) as [pk Hpk].
  rewrite Forall_lookup in Hunbound.
  assert (Hless : forall a b pa pb,
            algo.pods greed !! a = Some pa -> algo.pods greed !! b = Some pb ->
            algo.Less rangeOrder greed a b
            = Some (algo.calculatePodShare rangeOrder greed pb
                    <? algo.calculatePodShare rangeOrder greed pa)%float).
  { intros a b pa pb Ha Hb. unfold algo.Less.
    rewrite Ha, Hb, (Hunbound _ _ Ha), (Hunbound _ _ Hb). reflexivity. }
  rewrite (Hless _ _ _ _ Hpi Hpi), (Hless _ _ _ _ Hpi Hpj), (Hless _ _ _ _ Hpj Hpi),
    (Hless _ _ _ _ Hpj Hpk), (Hless _ _ _ _ Hpi Hpk).
  rewrite !ltb_spec.
  split; [|split].
  - destruct (SFltb _ _) eqn:E; [|reflexivity].
    rewrite (SFltb_asym _ _ E) in E. discriminate E.
  - intros H. apply (f_equal (fun o => default false o)) in H. simpl in H.
    rewrite (SFltb_asym _ _ H). reflexivity.
  - intros H1 H2.
    apply (f_equal (fun o => default false o)) in H1, H2. simpl in H1, H2.
    rewrite (SFltb_trans _ _ _ H2 H1). reflexivity.
Qed.

Lemma GreedQueue_Less_strict_on_unbound_witness :
  algo.Less ["cpu"; "memory"]%string GreedExamples.unboundQueue 0 0 = Some false /\
  (algo.Less ["cpu"; "memory"]%string GreedExamples.unboundQueue 0 1 = Some true ->
   algo.Less ["cpu"; "memory"]%string GreedExamples.unboundQueue 1 0 = Some false) /\
  (algo.Less ["cpu"; "memory"]%string GreedExamples.unboundQueue 0 1 = Some true ->
   algo.Less ["cpu"; "memory"]%string GreedExamples.unboundQueue 1 2 = Some true ->
   algo.Less ["cpu"; "memory"]%string GreedExamples.unboundQueue 0 2 = Some true).
Proof.
  apply (GreedQueue_Less_strict_on_unbound ["cpu"; "memory"]%string
           GreedExamples.unboundQueue 0 1 2).
  - repeat constructor.
  - simpl. lia.
  - simpl. lia.
  - simpl. lia.
Defined.

(** Two pods that are both bound to a node are each less than the other, and
    a bound pod is less than itself: with more than one bound pod in the
    queue, [Less] is not the strict order [sort.Sort] expects. *)
Theorem GreedQueue_Less_bound_pods_both_ways (rangeOrder : list string)
    (greed : algo.GreedQueue) (i j : nat) (pi pj : algo.Pod) :
  algo.pods greed !! i = Some pi -> algo.pods greed !! j = Some pj ->
  algo.NodeName pi <> ""%string -> algo.NodeName pj <> ""%string ->
  algo.Less rangeOrder greed i j = Some true /\
  algo.Less rangeOrder greed j i = Some true /\
  algo.Less rangeOrder greed i i = Some true.
Proof.
  intros Hpi Hpj Hi Hj. unfold algo.Less. rewrite Hpi, Hpj.
  apply String.eqb_neq in Hi, Hj. rewrite Hi, Hj. auto.
Qed.

Lemma GreedQueue_Less_bound_pods_both_ways_witness :
  algo.Less ["cpu"; "memory"]%string GreedExamples.smallCluster 0 1 = Some true /\
  algo.Less ["cpu"; "memory"]%string GreedExamples.smallCluster 1 0 = Some true /\
  algo.Less ["cpu"; "memory"]%string GreedExamples.smallCluster 0 0 = Some true.
Proof.
  apply (GreedQueue_Less_bound_pods_both_ways ["cpu"; "memory"]%string
           GreedExamples.smallCluster 0 1 GreedExamples.boundA GreedExamples.boundB).
  - reflexivity.
  - reflexivity.
  - discriminate.
  - discriminate.
Defined.

(** ** PWR score: the choice of the GPU for a pod that shares one *)

Lemma pretty_N_go_nonempty (x : N) : forall s, s <> ""%string -> pretty_N_go x s <> ""%string.
Proof.
  induction (N.lt_wf_0 x) as [x _ IH]; intros s Hs.
  assert (x = 0 \/ 0 < x)%N as [-> | Hpos] by lia.
  - rewrite pretty_N_go_0. exact Hs.
  - rewrite pretty_N_go_step by exact Hpos.
    apply IH; [apply N.div_lt; lia | discriminate].
Qed.

(** [strconv.Itoa(i)] is never the empty string. *)
Lemma pretty_nat_nonempty (i : nat) : pretty i <> ""%string.
Proof.
  unfold pretty, pretty_nat, pretty, pretty_N.
  destruct (decide (N.of_nat i = 0%N)) as [_ | Hne]; [discriminate|].
  rewrite pretty_N_go_step by lia.
  apply pretty_N_go_nonempty. discriminate.
Qed.

Section PWRShare.

Variable sigmoid : float -> float.
Variable GetEnergyConsumptionNode : NodeResource -> float * float.
Variable Sub : NodeResource -> PodResource -> NodeResource * error.
Variable AllocateExclusiveGpuId : NodeResource -> PodResource -> string.

Variables (nodeRes : NodeResource) (podRes : PodResource).

(** The score of placing the pod on GPU [i], which has [milliGpuLeft] left. *)
Definition gpuScore (i : nat) (milliGpuLeft : Z) : Z :=
  plugin.energyScore sigmoid
    (plugin.nodeEnergy GetEnergyConsumptionNode nodeRes)
    (plugin.nodeEnergy GetEnergyConsumptionNode
       (mkNodeResource (NodeName nodeRes)
          (wrap64 (MilliCpuLeft nodeRes - MilliCpu podRes))
          (<[i := wrap64 (milliGpuLeft - MilliGpu podRes)]> (MilliGpuLeftList nodeRes))
          (NodeGpuType nodeRes))).

(** GPU [k] of [gpus] has room for the pod's share. *)
Definition hasRoom (gpus : list Z) (k : nat) (g : Z) : Prop :=
  gpus !! k = Some g /\ MilliGpu podRes <= g.

Lemma shareLoop_spec (gpus : list Z) : forall (i : nat) (score : Z) (gpuId : string),
  let r := plugin.shareLoop sigmoid GetEnergyConsumptionNode nodeRes podRes
             (plugin.nodeEnergy GetEnergyConsumptionNode nodeRes) i gpus score gpuId in
  (r = (score, gpuId) /\
   forall k g, hasRoom gpus k g -> gpuId <> ""%string /\ gpuScore (i + k) g <= score) \/
  (exists k g, hasRoom gpus k g /\
     r = (gpuScore (i + k) g, pretty (i + k)%nat) /\
     (gpuId <> ""%string -> score < gpuScore (i + k) g) /\
     forall k' g', hasRoom gpus k' g' ->
       gpuScore (i + k') g' <= gpuScore (i + k) g /\
       ((k' < k)%nat -> gpuScore (i + k') g' < gpuScore (i + k) g)).
Proof.
  induction gpus as [|g0 gpus IH]; intros i score gpuId; simpl.
  - left. split; [reflexivity|]. intros k g [Hk _]. discriminate Hk.
  - fold (gpuScore i g0).
    assert (Hshift : forall k g, hasRoom (g0 :: gpus) (S k) g <-> hasRoom gpus k g)
      by (intros; reflexivity).
    destruct (Z.geb_spec g0 (MilliGpu podRes)) as [Hroom | Hnoroom].
    + destruct (String.eqb gpuId "" || (gpuScore i g0 >? score)) eqn:Hnew.
      * assert (Hbetter : gpuId <> ""%string -> score < gpuScore i g0).
        { intros Hne. apply String.eqb_neq in Hne. rewrite Hne in Hnew. simpl in Hnew.
          lia. }
        right.
        destruct (IH (S i) (gpuScore i g0) (pretty i))
          as [[Hr Hall] | (k & g & Hk & Hr & Hgt & Hall)].
        -- exists 0%nat, g0. rewrite Nat.add_0_r.
           split; [split; [reflexivity | lia]|]. split; [exact Hr|].
           split; [exact Hbetter|].
           intros [|k'] g' Hk'.
           ++ destruct Hk' as [Hk' _]. inversion Hk'; subst. rewrite Nat.add_0_r.
              split; lia.
           ++ apply Hshift in Hk'. destruct (Hall _ _ Hk') as [_ Hle].
              replace (i + S k')%nat with (S i + k')%nat by lia. split; lia.
        -- exists (S k), g. replace (i + S k)%nat with (S i + k)%nat by lia.
           specialize (Hgt (pretty_nat_nonempty i)).
           split; [apply Hshift; exact Hk|]. split; [exact Hr|].
           split; [intros Hne; specialize (Hbetter Hne); lia|].
           intros [|k'] g' Hk'.
           ++ destruct Hk' as [Hk' _]. inversion Hk'; subst. rewrite Nat.add_0_r.
              split; lia.
           ++ apply Hshift in Hk'. destruct (Hall _ _ Hk') as [Hle Hlt].
              replace (i + S k')%nat with (S i + k')%nat by lia. split; [lia|].
              intros Hlt'. apply Hlt. lia.
      * apply orb_false_iff in Hnew as [Hid Hscore].
        apply String.eqb_neq in Hid.
        destruct (IH (S i) score gpuId)
          as [[Hr Hall] | (k & g & Hk & Hr & Hgt & Hall)].
        -- left. split; [exact Hr|].
           intros [|k'] g' Hk'.
           ++ destruct Hk' as [Hk' _]. inversion Hk'; subst. rewrite Nat.add_0_r.
              split; [exact Hid | lia].
           ++ apply Hshift in Hk'. destruct (Hall _ _ Hk') as [Hne Hle].
              replace (i + S k')%nat with (S i + k')%nat by lia. split; [exact Hne | lia].
        -- right. exists (S k), g. replace (i + S k)%nat with (S i + k)%nat by lia.
           specialize (Hgt Hid).
           split; [apply Hshift; exact Hk|]. split; [exact Hr|].
           split; [intros _; exact Hgt|].
           intros [|k'] g' Hk'.
           ++ destruct Hk' as [Hk' _]. inversion Hk'; subst. rewrite Nat.add_0_r.
              split; lia.
           ++ apply Hshift in Hk'. destruct (Hall _ _ Hk') as [Hle Hlt].
              replace (i + S k')%nat with (S i + k')%nat by lia. split; [lia|].
              intros Hlt'. apply Hlt. lia.
    + destruct (IH (S i) score gpuId)
        as [[Hr Hall] | (k & g & Hk & Hr & Hgt & Hall)].
      * left. split; [exact Hr|].
        intros [|k'] g' Hk'.
        -- destruct Hk' as [Hk' Hg']. inversion Hk'; subst. lia.
        -- apply Hshift in Hk'. destruct (Hall _ _ Hk') as [Hne Hle].
           replace (i + S k')%nat with (S i + k')%nat by lia. split; [exact Hne | lia].
      * right. exists (S k), g. replace (i + S k)%nat with (S i + k)%nat by lia.
        split; [apply Hshift; exact Hk|]. split; [exact Hr|].
        split; [exact Hgt|].
        intros [|k'] g' Hk'.
        -- destruct Hk' as [Hk' Hg']. inversion Hk'; subst. lia.
        -- apply Hshift in Hk'. destruct (Hall _ _ Hk') as [Hle Hlt].
           replace (i + S k')%nat with (S i + k')%nat by lia. split; [lia|].
           intros Hlt'. apply Hlt. lia.
Qed.

(** For a pod that asks for a share of one GPU,
    [calculatePWRShareFragExtendScore] answers [(0, "")] when no GPU of the
    node has room for the share; otherwise it names a GPU that has room, with
    the score of placing the pod there, no GPU with room scores higher, and
    every GPU with room at a lower index scores strictly lower. *)
Theorem calculatePWRShareFragExtendScore_picks_first_best (typicalPods : TargetPodList) :
  GpuNumber podRes = 1 -> MilliGpu podRes < MILLI ->
  (plugin.calculatePWRShareFragExtendScore sigmoid GetEnergyConsumptionNode Sub
     AllocateExclusiveGpuId nodeRes podRes typicalPods = (0, ""%string) /\
   forall i g, ~ hasRoom (MilliGpuLeftList nodeRes) i g) \/
  (exists i g, hasRoom (MilliGpuLeftList nodeRes) i g /\
     plugin.calculatePWRShareFragExtendScore sigmoid GetEnergyConsumptionNode Sub
       AllocateExclusiveGpuId nodeRes podRes typicalPods = (gpuScore i g, pretty i) /\
     forall i' g', hasRoom (MilliGpuLeftList nodeRes) i' g' ->
       gpuScore i' g' <= gpuScore i g /\
       ((i' < i)%nat -> gpuScore i' g' < gpuScore i g)).
Proof.
  intros Hone Hshare. unfold plugin.calculatePWRShareFragExtendScore.
  rewrite Hone. apply Z.ltb_lt in Hshare. rewrite Hshare. simpl.
  destruct (shareLoop_spec (MilliGpuLeftList nodeRes) 0 0 "")
    as [[Hr Hall] | (k & g & Hk & Hr & _ & Hall)].
  - left. split; [exact Hr|]. intros i g Hi. destruct (Hall i g Hi) as [Hne _].
    apply Hne. reflexivity.
  - right. exists k, g. split; [exact Hk|]. split; [exact Hr|]. exact Hall.
Qed.

End PWRShare.

Lemma calculatePWRShareFragExtendScore_picks_first_best_witness :
  (plugin.calculatePWRShareFragExtendScore PwrExamples.hardSigmoid
     PwrExamples.busyGpuEnergy SpecModel.Sub PwrExamples.firstFit
     Examples.twoGpuNode MoreExamples.smallRequest [] = (0, ""%string) /\
   forall i g, ~ hasRoom MoreExamples.smallRequest (MilliGpuLeftList Examples.twoGpuNode) i g) \/
  (exists i g, hasRoom MoreExamples.smallRequest (MilliGpuLeftList Examples.twoGpuNode) i g /\
     plugin.calculatePWRShareFragExtendScore PwrExamples.hardSigmoid
       PwrExamples.busyGpuEnergy SpecModel.Sub PwrExamples.firstFit
       Examples.twoGpuNode MoreExamples.smallRequest []
     = (gpuScore PwrExamples.hardSigmoid PwrExamples.busyGpuEnergy
          Examples.twoGpuNode MoreExamples.smallRequest i g, pretty i) /\
     forall i' g', hasRoom MoreExamples.smallRequest (MilliGpuLeftList Examples.twoGpuNode) i' g' ->
       gpuScore PwrExamples.hardSigmoid PwrExamples.busyGpuEnergy
         Examples.twoGpuNode MoreExamples.smallRequest i' g'
       <= gpuScore PwrExamples.hardSigmoid PwrExamples.busyGpuEnergy
            Examples.twoGpuNode MoreExamples.smallRequest i g /\
       ((i' < i)%nat ->
        gpuScore PwrExamples.hardSigmoid PwrExamples.busyGpuEnergy
          Examples.twoGpuNode MoreExamples.smallRequest i' g'
        < gpuScore PwrExamples.hardSigmoid PwrExamples.busyGpuEnergy
            Examples.twoGpuNode MoreExamples.smallRequest i g)).
Proof.
  assert (Hshare : MilliGpu MoreExamples.smallRequest < MILLI) by (vm_compute; reflexivity).
  exact (calculatePWRShareFragExtendScore_picks_first_best PwrExamples.hardSigmoid
           PwrExamples.busyGpuEnergy SpecModel.Sub PwrExamples.firstFit
           Examples.twoGpuNode MoreExamples.smallRequest [] eq_refl Hshare).
Defined.

(** ** [Score]: the status *)

Section PWRStatus.

Variable sigmoid : float -> float.
Variable GetEnergyConsumptionNode : NodeResource -> float * float.
Variable Sub : NodeResource -> PodResource -> NodeResource * error.
Variable AllocateExclusiveGpuId : NodeResource -> PodResource -> string.
Variable IsNodeAccessibleToPod : NodeResource -> PodResource -> bool.
Variable Pod : Type.
Variable GetPodResource : Pod -> PodResource.
Variable podRequestCount : Pod -> nat.
Variable GetNodeResourceViaHandleAndName : string -> option NodeResource.

Local Abbreviation scoreOf :=
  (plugin.Score sigmoid GetEnergyConsumptionNode Sub AllocateExclusiveGpuId
     IsNodeAccessibleToPod Pod GetPodResource podRequestCount
     GetNodeResourceViaHandleAndName).

(** [Score] succeeds exactly when the pod requests nothing, or the node is
    known and accessible to the pod.  A pod without requests gets the
    maximum score on every node name, known or not; every error comes with
    the minimum score; and on a known, accessible node the score of a pod
    with requests is that of [calculatePWRShareFragExtendScore]. *)
Theorem PWRScore_status (typicalPods : TargetPodList) (p : Pod) (nodeName : string) :
  (snd (scoreOf typicalPods p nodeName) = plugin.Success <->
   podRequestCount p = 0%nat \/
   exists nodeRes, GetNodeResourceViaHandleAndName nodeName = Some nodeRes /\
                   IsNodeAccessibleToPod nodeRes (GetPodResource p) = true) /\
  (podRequestCount p = 0%nat ->
   scoreOf typicalPods p nodeName = (plugin.MaxNodeScore, plugin.Success)) /\
  (snd (scoreOf typicalPods p nodeName) <> plugin.Success ->
   fst (scoreOf typicalPods p nodeName) = plugin.MinNodeScore) /\
  (forall nodeRes, podRequestCount p <> 0%nat ->
     GetNodeResourceViaHandleAndName nodeName = Some nodeRes ->
     IsNodeAccessibleToPod nodeRes (GetPodResource p) = true ->
     fst (scoreOf typicalPods p nodeName)
     = fst (plugin.calculatePWRShareFragExtendScore sigmoid GetEnergyConsumptionNode Sub
              AllocateExclusiveGpuId nodeRes (GetPodResource p) typicalPods)).
Proof.
  unfold plugin.Score.
  destruct (Nat.eqb_spec (podRequestCount p) 0) as [Hz | Hnz].
  { simpl. split; [split; [intros _; left; exact Hz | reflexivity]|].
    split; [reflexivity|]. split; [intros H; destruct (H eq_refl)|].
    intros nodeRes H. destruct (H Hz). }
  destruct (GetNodeResourceViaHandleAndName nodeName) as [nodeRes|] eqn:Hnode.
  - destruct (IsNodeAccessibleToPod nodeRes (GetPodResource p)) eqn:Hacc; simpl.
    + destruct (plugin.calculatePWRShareFragExtendScore _ _ _ _ _ _ _) as [score gpuId] eqn:Hs.
      simpl. split; [split; [intros _; right; exists nodeRes; auto | reflexivity]|].
      split; [intros H; destruct (Hnz H)|]. split; [intros H; destruct (H eq_refl)|].
      intros n _ Hn _. inversion Hn; subst. rewrite Hs. reflexivity.
    + split; [split; [discriminate|]|].
      * intros [H | (n & Hn & Ha)]; [destruct (Hnz H)|].
        inversion Hn; subst. rewrite Ha in Hacc. discriminate Hacc.
      * split; [intros H; destruct (Hnz H)|]. split; [reflexivity|].
        intros n _ Hn Ha. inversion Hn; subst. rewrite Ha in Hacc. discriminate Hacc.
  - simpl. split; [split; [discriminate|]|].
    + intros [H | (n & Hn & _)]; [destruct (Hnz H) | discriminate Hn].
    + split; [intros H; destruct (Hnz H)|]. split; [reflexivity|].
      intros n _ Hn. discriminate Hn.
Qed.

End PWRStatus.

(** ** [validate] *)

Section ValidateProps.

Variable statOk : string -> bool.

Lemma validateApps_nil_iff (apps : list apply.AppInfo) :
  apply.validateApps statOk apps = None <->
  Forall (fun app => statOk (apply.Path app) = true) apps.
Proof.
  induction apps as [|app apps IH]; simpl.
  - split; [constructor | reflexivity].
  - destruct (statOk (apply.Path app)) eqn:E; simpl.
    + rewrite IH. split; [intros H; constructor; assumption | intros H; inversion H; assumption].
    + split; [discriminate | intros H; inversion H; congruence].
Qed.

(** [validate] accepts an applier exactly when one and only one of
    [KubeConfig] and [CustomCluster] is given, and every path that is given
    (the cluster source, the scheduler configuration if any, the path of
    every application) exists. *)
Theorem validate_accepts_iff (applier : apply.Applier) :
  apply.validate statOk applier = None <->
  (apply.KubeConfig applier = ""%string <-> apply.CustomCluster applier <> ""%string) /\
  (apply.KubeConfig applier <> ""%string -> statOk (apply.KubeConfig applier) = true) /\
  (apply.CustomCluster applier <> ""%string -> statOk (apply.CustomCluster applier) = true) /\
  (apply.schedulerConfig applier <> ""%string ->
   statOk (apply.schedulerConfig applier) = true) /\
  Forall (fun app => statOk (apply.Path app) = true) (apply.appList applier).
Proof.
  assert (Hempty : forall s, apply.isEmpty s = true <-> s = ""%string).
  { intros [|c s]; simpl; split; intros H; try reflexivity; discriminate H. }
  assert (Hnonempty : forall s, apply.isEmpty s = false <-> s <> ""%string).
  { intros [|c s]; simpl; split; intros H; try discriminate H; try reflexivity.
    - destruct (H eq_refl).
    - discriminate. }
  unfold apply.validate. rewrite <- validateApps_nil_iff.
  destruct applier as [kube custom sched apps]. simpl.
  destruct (apply.isEmpty kube) eqn:Ek, (apply.isEmpty custom) eqn:Ec; simpl;
    [ apply Hempty in Ek; apply Hempty in Ec
    | apply Hempty in Ek; apply Hnonempty in Ec
    | apply Hnonempty in Ek; apply Hempty in Ec
    | apply Hnonempty in Ek; apply Hnonempty in Ec ].
  - split; [discriminate|]. intros [[Hk _] _]. destruct (Hk Ek Ec).
  - destruct (statOk custom) eqn:Sc; simpl.
    + destruct (apply.isEmpty sched) eqn:Es; simpl.
      * apply Hempty in Es. split.
        -- intros Happs. split; [tauto|]. split; [intros H; destruct (H Ek)|].
           split; [reflexivity|]. split; [intros H; destruct (H Es) | exact Happs].
        -- intros (_ & _ & _ & _ & Happs). exact Happs.
      * apply Hnonempty in Es. destruct (statOk sched) eqn:Ss; simpl.
        -- split.
           ++ intros Happs. split; [tauto|]. split; [intros H; destruct (H Ek)|].
              split; [reflexivity|]. split; [reflexivity | exact Happs].
           ++ intros (_ & _ & _ & _ & Happs). exact Happs.
        -- split; [discriminate|]. intros (_ & _ & _ & Hs & _).
           specialize (Hs Es). discriminate Hs.
    + split; [discriminate|]. intros (_ & _ & Hc & _). specialize (Hc Ec). discriminate Hc.
  - destruct (statOk kube) eqn:Sk; simpl.
    + destruct (apply.isEmpty sched) eqn:Es; simpl.
      * apply Hempty in Es. split.
        -- intros Happs. split; [tauto|]. split; [reflexivity|].
           split; [intros H; destruct (H Ec)|].
           split; [intros H; destruct (H Es) | exact Happs].
        -- intros (_ & _ & _ & _ & Happs). exact Happs.
      * apply Hnonempty in Es. destruct (statOk sched) eqn:Ss; simpl.
        -- split.
           ++ intros Happs. split; [tauto|]. split; [reflexivity|].
              split; [intros H; destruct (H Ec)|].
              split; [reflexivity | exact Happs].
           ++ intros (_ & _ & _ & _ & Happs). exact Happs.
        -- split; [discriminate|]. intros (_ & _ & _ & Hs & _).
           specialize (Hs Es). discriminate Hs.
    + split; [discriminate|]. intros (_ & Hk & _). specialize (Hk Ek). discriminate Hk.
  - split; [discriminate|]. intros [[_ Hk] _]. destruct (Ek (Hk Ec)).
Qed.

(** The checks come in a fixed order: with both cluster sources given, or
    none, [validate] reports that before it looks at any path, so the error
    is the same on every file system. *)
Theorem validate_source_error_first (statOk' : string -> bool) (applier : apply.Applier) :
  (apply.KubeConfig applier = ""%string <-> apply.CustomCluster applier = ""%string) ->
  apply.validate statOk applier
    = Some "only one of values of both kubeConfig and customConfig must exist "%string /\
  apply.validate statOk' applier = apply.validate statOk applier.
Proof.
  intros Hboth. unfold apply.validate.
  destruct (apply.KubeConfig applier) as [|c k], (apply.CustomCluster applier) as [|c' k'];
    simpl; try (split; reflexivity).
  - destruct Hboth as [H _]. specialize (H eq_refl). discriminate H.
  - destruct Hboth as [_ H]. specialize (H eq_refl). discriminate H.
Qed.

End ValidateProps.

Lemma validate_source_error_first_witness :
  apply.validate ApplyExamples.onDisk
    (apply.mkApplier "config" "cluster/" "" [])
    = Some "only one of values of both kubeConfig and customConfig must exist "%string /\
  apply.validate (fun _ => false) (apply.mkApplier "config" "cluster/" "" [])
    = apply.validate ApplyExamples.onDisk (apply.mkApplier "config" "cluster/" "" []).
Proof.
  apply (validate_source_error_first ApplyExamples.onDisk (fun _ => false)
           (apply.mkApplier "config" "cluster/" "" [])).
  simpl. split; intros H; discriminate H.
Defined.

(** ** The GPU millis of a node *)

Lemma sumZ_filter_mono (low high : Z) (l : list Z) :
  low <= high -> Forall (fun g => 0 <= g) l ->
  sumZ (filter (fun g => g < low) l) <= sumZ (filter (fun g => g < high) l).
Proof.
  intros Hle. induction 1 as [|g l Hg Hl IH]; [reflexivity|].
  rewrite !filter_cons.
  destruct (decide (g < low)), (decide (g < high)); simpl; lia.
Qed.

(** On a node whose GPUs have no negative millis left and whose total fits
    an [int64], the fragmented millis that
    [GetGpuFragMilliByNodeResAndPodRes] reports never go down when the pod
    asks for more of a GPU; they stay between 0 and the node total, and
    reach the total exactly when no GPU with millis left has room for the
    request. *)
Theorem GetGpuFragMilli_monotone (nodeRes : NodeResource) (small large : PodResource) :
  validNode nodeRes -> MilliGpu small <= MilliGpu large ->
  0 <= GetGpuFragMilliByNodeResAndPodRes nodeRes small
    <= GetGpuFragMilliByNodeResAndPodRes nodeRes large /\
  GetGpuFragMilliByNodeResAndPodRes nodeRes large <= GetGpuMilliLeftTotal nodeRes /\
  (GetGpuFragMilliByNodeResAndPodRes nodeRes large = GetGpuMilliLeftTotal nodeRes <->
   Forall (fun g => g = 0 \/ g < MilliGpu large) (MilliGpuLeftList nodeRes)).
Proof.
  intros Hvalid Hle.
  pose proof (GetGpuFragMilli_valid nodeRes small Hvalid) as Hs.
  pose proof (GetGpuFragMilli_valid nodeRes large Hvalid) as Hl.
  pose proof (GetGpuMilliLeftTotal_valid nodeRes Hvalid) as Ht.
  pose proof (gpuMilli_bounds nodeRes small Hvalid) as Hbs.
  pose proof (gpuMilli_bounds nodeRes large Hvalid) as Hbl.
  destruct Hvalid as [Hpos _].
  split; [|split].
  - split; [lia|]. rewrite Hs, Hl. unfold gpuMilliFragmentSum.
    apply sumZ_filter_mono; assumption.
  - lia.
  - rewrite Hl, Ht. unfold gpuMilliFragmentSum, gpuMilliLeftSum.
    induction Hpos as [|g l Hg Hpos IH]; [split; [constructor | reflexivity]|].
    rewrite filter_cons.
    pose proof (sumZ_filter_le (fun g => g < MilliGpu large) l Hpos) as Hfl.
    pose proof (sumZ_nonneg _ Hpos) as Hnn.
    destruct (decide (g < MilliGpu large)) as [Hlt | Hge]; simpl.
    + split.
      * intros H. constructor; [right; exact Hlt|]. apply IH. lia.
      * intros H. apply Forall_cons in H as [_ H]. apply IH in H. lia.
    + split.
      * intros H. assert (g = 0) by lia. constructor; [left; assumption|]. apply IH. lia.
      * intros H. apply Forall_cons in H as [[Hz | Hlt] H]; [|lia]. apply IH in H. lia.
Qed.

Lemma GetGpuFragMilli_monotone_witness :
  0 <= GetGpuFragMilliByNodeResAndPodRes Examples.twoGpuNode MoreExamples.smallRequest
    <= GetGpuFragMilliByNodeResAndPodRes Examples.twoGpuNode MoreExamples.wholeGpuRequest /\
  GetGpuFragMilliByNodeResAndPodRes Examples.twoGpuNode MoreExamples.wholeGpuRequest
    <= GetGpuMilliLeftTotal Examples.twoGpuNode /\
  (GetGpuFragMilliByNodeResAndPodRes Examples.twoGpuNode MoreExamples.wholeGpuRequest
   = GetGpuMilliLeftTotal Examples.twoGpuNode <->
   Forall (fun g => g = 0 \/ g < MilliGpu MoreExamples.wholeGpuRequest)
          (MilliGpuLeftList Examples.twoGpuNode)).
Proof.
  apply GetGpuFragMilli_monotone.
  - split; [repeat constructor; lia | vm_compute; discriminate].
  - vm_compute. discriminate.
Defined.
